(** * Synthetic-data generator: schema model, dependency resolver and row
    generation.

    A shallow embedding of [app/synth_data/models.py] and
    [app/synth_data/codegen.py].  Dictionaries are [gmap]s, Python sets are
    [gset]s together with an explicit iteration order, exceptions are the
    left summand of a sum type, and the random sources of the generated
    script are explicit states threaded through the generation loop. *)

From Stdlib Require Import Ascii String ZArith QArith.
From stdpp Require Import gmap strings list fin_maps.

Local Open Scope string_scope.
Local Open Scope list_scope.
Local Open Scope Z_scope.

(** ** models.py: the schema data model *)

Inductive ScalarType := TInt | TStr | TFloat | TBool | TDate | TDatetime.

Inductive OnDelete := Restrict | Cascade | SetNull.

Record ForeignKey := {
  ref_table : string;
  ref_column : string;
  on_delete : option OnDelete
}.

(** The fields [name], [type] and [description] of the three model classes
    carry a prefix here, since Rocq record projections share one name space. *)
Record Column := {
  col_name : string;
  col_type : ScalarType;
  col_description : option string;
  primary_key : bool;
  foreign_key : option ForeignKey;
  nullable : bool;
  unique : bool;
  faker : option string
}.

Record Table := {
  table_name : string;
  table_description : option string;
  columns : list Column
}.

Record Schema := {
  schema_name : string;
  schema_description : option string;
  tables : list Table
}.

#[global] Instance ScalarType_eq_dec : EqDecision ScalarType.
Proof. solve_decision. Defined.

(** Every [raise ValueError(...)] of the two modules, one constructor per
    message. *)
Inductive ValueError :=
  | PkAndFk
  | PkNullable
  | NoColumns
  | DuplicateColumns (table : string)
  | NoPrimaryKey (table : string)
  | NoTables
  | DuplicateTables
  | UnknownFkTable (table column ref : string)
  | UnknownFkColumn (table column ref refcol : string)
  | SelfReferentialFk (child : string)
  | CyclicFk (remaining : list string)
  | RowsNotPositive.

(** [len(names) != len(set(names))] *)
Definition has_duplicates (names : list string) : bool :=
  negb (length names =? length (remove_dups names))%nat.

(** [Column._pk_fk_are_exclusive] *)
Definition validate_column (c : Column) : option ValueError :=
  if primary_key c && bool_decide (foreign_key c ≠ None) then Some PkAndFk
  else if primary_key c && nullable c then Some PkNullable
  else None.

(** [Table._validate_table]; pydantic validates the columns of a table
    before the table itself. *)
Definition first_error {A} (f : A → option ValueError) (l : list A)
  : option ValueError :=
  foldr (λ x acc, match f x with Some e => Some e | None => acc end) None l.

Definition validate_table (t : Table) : option ValueError :=
  match first_error validate_column (columns t) with
  | Some e => Some e
  | None =>
    if bool_decide (columns t = []) then Some NoColumns
    else if has_duplicates (col_name <$> columns t)
         then Some (DuplicateColumns (table_name t))
    else if negb (existsb primary_key (columns t))
         then Some (NoPrimaryKey (table_name t))
    else None
  end.

(** [table_by_name = {t.name: t for t in self.tables}]: a later table of the
    same name replaces an earlier one. *)
Definition table_by_name (ts : list Table) : gmap string Table :=
  foldl (λ m t, <[table_name t := t]> m) ∅ ts.

(** The check of one foreign-key column inside [Schema._validate_schema]. *)
Definition check_fk (by_name : gmap string Table) (t : Table) (col : Column)
  : option ValueError :=
  match foreign_key col with
  | None => None
  | Some fk =>
    match by_name !! ref_table fk with
    | None => Some (UnknownFkTable (table_name t) (col_name col) (ref_table fk))
    | Some rt =>
      if bool_decide (ref_column fk ∈ col_name <$> columns rt) then None
      else Some (UnknownFkColumn (table_name t) (col_name col)
                                 (ref_table fk) (ref_column fk))
    end
  end.

(** [Schema._validate_schema], after the validation of every table. *)
Definition validate_schema (s : Schema) : option ValueError :=
  match first_error validate_table (tables s) with
  | Some e => Some e
  | None =>
    if bool_decide (tables s = []) then Some NoTables
    else if has_duplicates (table_name <$> tables s) then Some DuplicateTables
    else
      first_error
        (λ t, first_error (check_fk (table_by_name (tables s)) t) (columns t))
        (tables s)
  end.

(** [Table.foreign_keys] *)
Definition foreign_keys (t : Table) : list Column :=
  filter (λ c, foreign_key c ≠ None) (columns t).

(** [Table.primary_keys] *)
Definition primary_keys (t : Table) : list Column :=
  filter (λ c, primary_key c = true) (columns t).

(** [Schema.dependency_edges]: one [(child, parent)] pair per foreign-key
    column, in declaration order, duplicates kept. *)
Definition table_edges (t : Table) : list (string * string) :=
  omap (λ col, (λ fk, (table_name t, ref_table fk)) <$> foreign_key col)
       (foreign_keys t).

Definition dependency_edges (s : Schema) : list (string * string) :=
  tables s ≫= table_edges.

(** ** codegen.py: the dependency resolver *)

(** A Python [set] of strings is a [gset string]; the order in which a [for]
    loop visits its elements is not fixed by the language (it follows the
    string hashes, which change from one interpreter process to the next), so
    the resolver takes it as a parameter [set_iter], any function that lists
    the elements of the set once each. *)
Definition set_order := gset string → list string.

Definition lists_elements (set_iter : set_order) : Prop :=
  ∀ s, set_iter s ≡ₚ elements s.

(** [indeg] and [out] after the loop over the dependency edges.  A key that
    is looked up by subscript is known to be present at that point; the
    total lookup [!!!] stands for the subscript. *)
Definition Graph : Type := gmap string Z * gmap string (gset string).

Definition init_graph (names : list string) : Graph :=
  (foldl (λ m t, <[t := 0]> m) ∅ names,
   foldl (λ m t, <[t := (∅ : gset string)]> m) ∅ names).

Definition add_edge (g : Graph) (e : string * string) : ValueError + Graph :=
  let '(indeg, out) := g in
  let '(child, parent) := e in
  if bool_decide (child = parent) then inl (SelfReferentialFk child)
  else if bool_decide (parent ∉ dom indeg) || bool_decide (child ∉ dom indeg)
  then inr g
  else if bool_decide (parent ∉ out !!! parent)
  then inr (<[child := indeg !!! child + 1]> indeg,
            <[parent := {[child]} ∪ out !!! parent]> out)
  else inr g.

Fixpoint add_edges (g : Graph) (es : list (string * string))
  : ValueError + Graph :=
  match es with
  | [] => inr g
  | e :: es' =>
    match add_edge g e with
    | inl err => inl err
    | inr g' => add_edges g' es'
    end
  end.

(** The body of [for child in out[t]]: decrement, and enqueue at zero. *)
Definition release (st : gmap string Z * list string) (child : string)
  : gmap string Z * list string :=
  let '(indeg, q) := st in
  let indeg' := <[child := indeg !!! child - 1]> indeg in
  if bool_decide (indeg' !!! child = 0) then (indeg', q ++ [child])
  else (indeg', q).

(** The [while q] loop.  [fuel] bounds the number of iterations; [None]
    means that the bound was reached with a non-empty queue. *)
Fixpoint kahn_loop (set_iter : set_order) (out : gmap string (gset string))
    (fuel : nat) (indeg : gmap string Z) (q ordered : list string)
  : option (list string) :=
  match q with
  | [] => Some ordered
  | t :: q' =>
    match fuel with
    | O => None
    | S fuel' =>
      let '(indeg', q'') := foldl release (indeg, q') (set_iter (out !!! t)) in
      kahn_loop set_iter out fuel' indeg' q'' (ordered ++ [t])
    end
  end.

(** The test [len(ordered) != len(tables)] after the loop. *)
Definition finish_order (names ordered : list string)
  : ValueError + list string :=
  if bool_decide (length ordered ≠ length names)
  then inl (CyclicFk (filter (λ t, t ∉ ordered) names))
  else inr ordered.

(** [_toposort_tables].  Every iteration of the loop appends one table to
    [ordered]; the loop is given one iteration per declared table, which
    [toposort_total] shows to be enough for a validated schema. *)
Definition _toposort_tables (set_iter : set_order) (schema : Schema)
  : option (ValueError + list string) :=
  let names := table_name <$> tables schema in
  match add_edges (init_graph names) (dependency_edges schema) with
  | inl err => Some (inl err)
  | inr (indeg, out) =>
    let q := filter (λ t, indeg !!! t = 0) names in
    finish_order names <$> kahn_loop set_iter out (length names) indeg q []
  end.

(** ** codegen.py: the emitted script *)

(** The constants that [generate_faker_python_script] writes into the
    script text, as the functions of the script read them.  [SCHEMA] stands
    for the dictionary that the JSON dump of the schema denotes, so it
    carries the same tables and columns.

    The text itself is not modelled, and it differs from this record in one
    respect that matters: the source writes the output of [json.dumps] after
    [SCHEMA =] as if it were Python source, and pastes [schema.name] into
    the module docstring as it is.  The dump spells its constants [true],
    [false] and [null], which are undefined names in Python, and every
    column is dumped with its boolean flags; so the module as emitted does
    not load: it stops with [NameError] while it binds [SCHEMA] (if the
    pasted name has not broken the docstring before), and [generate] is
    never reached.  Every statement below about a run of [generate] is
    therefore a statement about the function [generate] of the script with
    [SCHEMA] and [TABLE_ORDER] bound to the values of this record, which is
    what the text gives once the three names are defined or the dump is read
    with [json.loads]. *)
Record Script := {
  SCHEMA : Schema;
  TABLE_ORDER : list string;
  ROWS_PER_TABLE : Z;
  SEED : Z
}.

(** [generate_faker_python_script] up to the rendering of the text: the
    test of [rows_per_table], the call of the resolver, and the four values
    that the text is built from. *)
Definition generate_faker_python_script (set_iter : set_order)
    (schema : Schema) (rows_per_table seed : Z)
  : option (ValueError + Script) :=
  if bool_decide (rows_per_table ≤ 0) then Some (inl RowsNotPositive)
  else
    match _toposort_tables set_iter schema with
    | None => None
    | Some (inl err) => Some (inl err)
    | Some (inr order) =>
      Some (inr {| SCHEMA := schema; TABLE_ORDER := order;
                   ROWS_PER_TABLE := rows_per_table; SEED := seed |})
    end.

(** *** Strings *)

Definition lower_char (a : ascii) : ascii :=
  let n := nat_of_ascii a in
  if (65 <=? n)%nat && (n <=? 90)%nat then ascii_of_nat (n + 32) else a.

(** [str.lower] on the ASCII range. *)
Fixpoint lower (s : string) : string :=
  match s with
  | EmptyString => EmptyString
  | String a s' => String (lower_char a) (lower s')
  end.

Fixpoint startswith (s pre : string) : bool :=
  match pre, s with
  | EmptyString, _ => true
  | String _ _, EmptyString => false
  | String a pre', String b s' => bool_decide (a = b) && startswith s' pre'
  end.

(** [sub in s] *)
Fixpoint contains (sub s : string) : bool :=
  startswith s sub
  || match s with
     | EmptyString => false
     | String _ s' => contains sub s'
     end.

(** [s.endswith(suf)] *)
Definition endswith (s suf : string) : bool :=
  startswith (String.rev s) (String.rev suf).

(** [_infer_provider] *)
Definition _infer_provider (col_name : string) : option string :=
  let n := lower col_name in
  if bool_decide (n = "id") || endswith n "_id" then Some "uuid4"
  else if contains "email" n then Some "email"
  else if bool_decide (n = "first_name") || bool_decide (n = "firstname")
       then Some "first_name"
  else if bool_decide (n = "last_name") || bool_decide (n = "lastname")
          || bool_decide (n = "surname")
       then Some "last_name"
  else if contains "name" n then Some "name"
  else if contains "company" n || contains "employer" n then Some "company"
  else if contains "phone" n || contains "mobile" n then Some "phone_number"
  else if contains "address" n then Some "street_address"
  else if contains "city" n then Some "city"
  else if contains "state" n || contains "province" n then Some "state"
  else if contains "country" n then Some "country"
  else if contains "zip" n || contains "postal" n then Some "postcode"
  else if endswith n "_at" || contains "timestamp" n || contains "datetime" n
       then Some "date_time"
  else if contains "date" n then Some "date_object"
  else None.

(** *** Values *)

(** The objects that end up in a row.  A float is kept as the rational it
    denotes. *)
Inductive Value :=
  | VInt (n : Z)
  | VFloat (q : Q)
  | VBool (b : bool)
  | VStr (s : string).

#[global] Instance Q_eq_dec : EqDecision Q.
Proof. solve_decision. Defined.

#[global] Instance Value_eq_dec : EqDecision Value.
Proof. solve_decision. Defined.

Definition numeric (v : Value) : option Q :=
  match v with
  | VInt n => Some (inject_Z n)
  | VFloat q => Some q
  | VBool b => Some (inject_Z (if b then 1 else 0))
  | VStr _ => None
  end.

(** Python's [==] on these objects: numbers compare by value across [int],
    [float] and [bool]; a string equals only the same string. *)
Definition py_eqb (v w : Value) : bool :=
  match numeric v, numeric w with
  | Some a, Some b => Qeq_bool a b
  | None, None => bool_decide (v = w)
  | _, _ => false
  end.

(** [v in seen] for a set of values. *)
Definition py_in (v : Value) (seen : list Value) : bool :=
  existsb (py_eqb v) seen.

(** *** uuid.uuid4 *)

Definition hex_digit (d : Z) : ascii :=
  ascii_of_nat (Z.to_nat (if d <? 10 then 48 + d else 87 + d)).

(** ['%0nx' % z], for [0 ≤ z < 16^n]. *)
Fixpoint hex (n : nat) (z : Z) : string :=
  match n with
  | O => EmptyString
  | S n' => hex n' (z / 16) +:+ String (hex_digit (z mod 16)) EmptyString
  end.

(** [uuid.UUID(bytes=..., version=4)]: the version and variant bits are
    forced. *)
Definition uuid4_int (bytes : Z) : Z :=
  let i := bytes mod 2 ^ 128 in
  let i := Z.land i (Z.lnot (Z.shiftl 49152 48)) in
  let i := Z.lor i (Z.shiftl 32768 48) in
  let i := Z.land i (Z.lnot (Z.shiftl 61440 64)) in
  Z.lor i (Z.shiftl 4 76).

(** [str(uuid)]: 32 hex digits in groups of 8, 4, 4, 4 and 12. *)
Definition uuid_str (i : Z) : string :=
  let h := hex 32 i in
  substring 0 8 h +:+ "-" +:+ substring 8 4 h +:+ "-" +:+ substring 12 4 h
  +:+ "-" +:+ substring 16 4 h +:+ "-" +:+ substring 20 12 h.

(** *** The random sources *)

(** What a Faker provider hands back before [gen] normalises it. *)
Inductive FakerResult :=
  | RUuid (i : Z)
  | RTemporal (iso : string)
  | RPlain (v : Value).

(** The library side of the script: the generator behind the [random]
    module and the one behind Faker.  [rng_random] returns the numerator [k]
    of the float [k / 2^53]; [rng_below n] is [Random._randbelow(n)], on which
    [randint] and [choice] rest; [round_scaled k] is the float
    [round(k / 2^53 * 10_000, 2)].

    [fake_call p] is [getattr(fake, p)()] for a provider: a call without
    arguments that returns a number, a boolean, a string, a UUID or a date.
    The source makes that call for any attribute of the Faker object that a
    hint names; an attribute that is no such provider (one that needs
    arguments, is not callable, or returns a list or a dictionary) makes the
    call or the membership test [v not in seen] raise inside the library.
    Those exceptions are outside this model: a run here is a run in which
    every library call returns. *)
Record Platform := {
  Rng : Type;
  rng_seed : Z → Rng;
  rng_random : Rng → Z * Rng;
  rng_below : Z → Rng → Z * Rng;
  rng_bit : Rng → bool * Rng;
  rng_below_range : ∀ n st, 0 < n → 0 ≤ (rng_below n st).1 < n;
  round_scaled : Z → Q;
  Fake : Type;
  fake_seed : Z → Fake;
  hasattr_fake : string → bool;
  fake_call : string → Fake → FakerResult * Fake;
  fake_date_object : Fake → string * Fake;
  fake_date_time : Fake → string * Fake;
  fake_word : Fake → string * Fake
}.

Inductive ScriptError :=
  | UnsupportedKey (table : string)
  | MissingParentRows (table column parent : string)
  | UniquenessExhausted (key : string)
  | KeyError (key : string)
  | IndexError.

(** The double nearest to [0.05] is [3602879701896397 / 2^56], so
    [k / 2^53 < 0.05] is [8 k < 3602879701896397]. *)
Definition below_5_percent (k : Z) : bool := 8 * k <? 3602879701896397.

(** [for x in l: body], stopping at the first exception. *)
Fixpoint for_each {A S : Type} (body : A → S → ScriptError + S) (l : list A)
    (s : S) : ScriptError + S :=
  match l with
  | [] => inr s
  | x :: l' =>
    match body x s with
    | inl e => inl e
    | inr s' => for_each body l' s'
    end
  end.

(** One CSV file: the header and the rows written so far, each row being the
    cells in header order.  The files of a run are kept in a dictionary
    under the name of their table.  The source opens
    [os.path.join(out_dir, table_name + ".csv")]; that [open] succeeds, and
    that two table names give two paths, is taken for granted here, as it
    is for table names that are plain file names.  A name with a path
    separator in it can make [open] raise, or make two tables share one
    file; such runs are outside this model. *)
Record File := {
  fieldnames : list string;
  rows : list (list Value)
}.

Section script.
Context (P : Platform).

(** The state of one run of [generate]: the two seeded generators, the
    number of calls made to the operating system's random bytes, and the
    three dictionaries of the function. *)
Record Run := {
  rng : Rng P;
  fake : Fake P;
  urandom_calls : nat;
  pk_values : gmap string (list Value);
  unique_tracker_by_table : gmap string (gmap string (list Value));
  files : gmap string File
}.

Definition with_rng (g : Rng P) (st : Run) : Run :=
  {| rng := g; fake := fake st; urandom_calls := urandom_calls st;
     pk_values := pk_values st;
     unique_tracker_by_table := unique_tracker_by_table st;
     files := files st |}.

Definition with_fake (f : Fake P) (st : Run) : Run :=
  {| rng := rng st; fake := f; urandom_calls := urandom_calls st;
     pk_values := pk_values st;
     unique_tracker_by_table := unique_tracker_by_table st;
     files := files st |}.

Definition with_urandom_calls (n : nat) (st : Run) : Run :=
  {| rng := rng st; fake := fake st; urandom_calls := n;
     pk_values := pk_values st;
     unique_tracker_by_table := unique_tracker_by_table st;
     files := files st |}.

Definition with_pk_values (m : gmap string (list Value)) (st : Run) : Run :=
  {| rng := rng st; fake := fake st; urandom_calls := urandom_calls st;
     pk_values := m;
     unique_tracker_by_table := unique_tracker_by_table st;
     files := files st |}.

Definition with_trackers (m : gmap string (gmap string (list Value)))
    (st : Run) : Run :=
  {| rng := rng st; fake := fake st; urandom_calls := urandom_calls st;
     pk_values := pk_values st;
     unique_tracker_by_table := m;
     files := files st |}.

Definition with_files (m : gmap string File) (st : Run) : Run :=
  {| rng := rng st; fake := fake st; urandom_calls := urandom_calls st;
     pk_values := pk_values st;
     unique_tracker_by_table := unique_tracker_by_table st;
     files := m |}.

(** [Faker.seed(seed); random.seed(seed)] and the empty dictionaries. *)
Definition init_run (seed : Z) : Run :=
  {| rng := rng_seed P seed; fake := fake_seed P seed; urandom_calls := O;
     pk_values := ∅; unique_tracker_by_table := ∅; files := ∅ |}.

(** [provider = col.get("faker") or _infer_provider(col["name"])] *)
Definition provider_of (col : Column) : option string :=
  match faker col with
  | Some hint =>
    if bool_decide (hint = "") then _infer_provider (col_name col)
    else Some hint
  | None => _infer_provider (col_name col)
  end.

(** The test [provider and hasattr(fake, provider)] of [gen]: the provider
    that is called, or [None] for the type-based branch. *)
Definition called_provider (col : Column) : option string :=
  match provider_of col with
  | Some p =>
    if negb (bool_decide (p = "")) && hasattr_fake P p then Some p else None
  | None => None
  end.

Definition normalize (r : FakerResult) : Value :=
  match r with
  | RUuid i => VStr (uuid_str i)
  | RTemporal iso => VStr iso
  | RPlain v => v
  end.

(** The type-based branch of [gen]. *)
Definition by_type (typ : ScalarType) (st : Run) : Value * Run :=
  match typ with
  | TInt =>
    let '(r, g) := rng_below P 10000000 (rng st) in (VInt (1 + r), with_rng g st)
  | TFloat =>
    let '(k, g) := rng_random P (rng st) in
    (VFloat (round_scaled P k), with_rng g st)
  | TBool =>
    let '(b, g) := rng_bit P (rng st) in (VBool b, with_rng g st)
  | TDate =>
    let '(iso, f) := fake_date_object P (fake st) in (VStr iso, with_fake f st)
  | TDatetime =>
    let '(iso, f) := fake_date_time P (fake st) in (VStr iso, with_fake f st)
  | TStr =>
    let '(w, f) := fake_word P (fake st) in (VStr w, with_fake f st)
  end.

(** The inner function [gen] of [_generate_scalar]. *)
Definition gen (col : Column) (st : Run) : Value * Run :=
  match called_provider col with
  | Some p =>
    let '(r, f) := fake_call P p (fake st) in (normalize r, with_fake f st)
  | None => by_type (col_type col) st
  end.

(** The set [seen] of a column: [unique_tracker] is the dictionary stored
    under the table's name in [unique_tracker_by_table]. *)
Definition seen_values (table key : string) (st : Run) : list Value :=
  default [] (default ∅ (unique_tracker_by_table st !! table) !! key).

Definition set_seen (table key : string) (seen : list Value) (st : Run) : Run :=
  with_trackers
    (<[table := <[key := seen]> (default ∅ (unique_tracker_by_table st !! table))]>
       (unique_tracker_by_table st))
    st.

(** [for _ in range(1000)] of [_generate_scalar]. *)
Fixpoint unique_attempts (attempts : nat) (table : string) (col : Column)
    (st : Run) : ScriptError + (Value * Run) :=
  match attempts with
  | O => inl (UniquenessExhausted (col_name col))
  | S attempts' =>
    let '(v, st') := gen col st in
    let seen := seen_values table (col_name col) st' in
    if py_in v seen then unique_attempts attempts' table col st'
    else inr (v, set_seen table (col_name col) (v :: seen) st')
  end.

(** [_generate_scalar] *)
Definition _generate_scalar (table : string) (col : Column) (st : Run)
  : ScriptError + (Value * Run) :=
  if unique col then
    let key := col_name col in
    unique_attempts 1000 table col
      (set_seen table key (seen_values table key st) st)
  else inr (gen col st).

(** [_pk_generator]; [urandom n] is the integer read from the sixteen bytes
    that the [n]-th call of [uuid.uuid4] gets from the operating system. *)
Definition _pk_generator (urandom : nat → Z) (col : Column) (row_idx : nat)
    (st : Run) : Value * Run :=
  if decide (col_type col = TInt) then (VInt (Z.of_nat row_idx + 1), st)
  else (VStr (uuid_str (uuid4_int (urandom (urandom_calls st)))),
        with_urandom_calls (S (urandom_calls st)) st).

(** [random.choice(candidates)] *)
Definition choice (candidates : list Value) (st : Run)
  : ScriptError + (Value * Run) :=
  let '(r, g) := rng_below P (Z.of_nat (length candidates)) (rng st) in
  match candidates !! Z.to_nat r with
  | Some v => inr (v, with_rng g st)
  | None => inl IndexError
  end.

(** The body of [for c in cols], up to the assignment to [row[cname]]. *)
Definition gen_cell (urandom : nat → Z) (table_name : string) (i : nat)
    (c : Column) (st : Run) : ScriptError + (Value * Run) :=
  if primary_key c then inr (_pk_generator urandom c i st)
  else
    match foreign_key c with
    | Some fk =>
      let parent_table := ref_table fk in
      let candidates := default [] (pk_values st !! parent_table) in
      if bool_decide (candidates = [])
      then inl (MissingParentRows table_name (col_name c) parent_table)
      else choice candidates st
    | None =>
      if nullable c then
        let '(k, g) := rng_random P (rng st) in
        if below_5_percent k then inr (VStr "", with_rng g st)
        else _generate_scalar table_name c (with_rng g st)
      else _generate_scalar table_name c st
    end.

(** [for c in cols] *)
Fixpoint gen_row (urandom : nat → Z) (table_name : string) (i : nat)
    (cols : list Column) (row : gmap string Value) (st : Run)
  : ScriptError + (gmap string Value * Run) :=
  match cols with
  | [] => inr (row, st)
  | c :: cols' =>
    match gen_cell urandom table_name i c st with
    | inl e => inl e
    | inr (v, st') =>
      gen_row urandom table_name i cols' (<[col_name c := v]> row) st'
    end
  end.

(** [writer.writerow(row)]: the cells in header order. *)
Definition writerow (table_name : string) (row : gmap string Value)
    (st : Run) : Run :=
  match files st !! table_name with
  | Some f =>
    let cells := (λ n, default (VStr "") (row !! n)) <$> fieldnames f in
    with_files
      (<[table_name := {| fieldnames := fieldnames f;
                          rows := rows f ++ [cells] |}]> (files st)) st
  | None => st
  end.

(** The body of [for i in range(rows_per_table)]. *)
Definition write_row (urandom : nat → Z) (table_name : string)
    (cols : list Column) (pk_col : Column) (i : nat) (st : Run)
  : ScriptError + Run :=
  match gen_row urandom table_name i cols ∅ st with
  | inl e => inl e
  | inr (row, st') =>
    let st'' := writerow table_name row st' in
    match row !! col_name pk_col with
    | Some v =>
      inr (with_pk_values
             (<[table_name := default [] (pk_values st'' !! table_name) ++ [v]]>
                (pk_values st'')) st'')
    | None => inl (KeyError (col_name pk_col))
    end
  end.

(** [d.setdefault(k, v)] *)
Definition setdefault {V} (k : string) (v : V) (d : gmap string V)
  : gmap string V :=
  match d !! k with
  | Some _ => d
  | None => <[k := v]> d
  end.

(** The body of [for table_name in TABLE_ORDER]. *)
Definition gen_table (urandom : nat → Z) (script : Script)
    (table_name : string) (st : Run) : ScriptError + Run :=
  match table_by_name (tables (SCHEMA script)) !! table_name with
  | None => inl (KeyError table_name)
  | Some table =>
    let cols := columns table in
    match filter (λ c, primary_key c = true) cols with
    | [pk_col] =>
      let st := with_trackers
                  (setdefault table_name ∅ (unique_tracker_by_table st)) st in
      let st := with_files
                  (<[table_name := {| fieldnames := col_name <$> cols;
                                      rows := [] |}]> (files st)) st in
      let st := with_pk_values (setdefault table_name [] (pk_values st)) st in
      for_each (write_row urandom table_name cols pk_col)
               (seq 0 (Z.to_nat (ROWS_PER_TABLE script))) st
    | _ => inl (UnsupportedKey table_name)
    end
  end.

(** [generate] *)
Definition generate (urandom : nat → Z) (script : Script)
  : ScriptError + Run :=
  for_each (gen_table urandom script) (TABLE_ORDER script)
           (init_run (SEED script)).

End script.

(** ** models.py: lookup of a table by name *)

(** [Schema.table]: the first declared table of that name; [None] stands
    for [raise KeyError(name)]. *)
Fixpoint first_table (ts : list Table) (name : string) : option Table :=
  match ts with
  | [] => None
  | t :: ts' =>
    if bool_decide (table_name t = name) then Some t else first_table ts' name
  end.

Definition table (s : Schema) (name : string) : option Table :=
  first_table (tables s) name.

(** ** Inputs for the examples *)

(** Two iteration orders used in the examples: the order of [elements], and
    its reverse. *)
Definition iter_fwd : set_order := elements.
Definition iter_rev : set_order := λ s, reverse (elements s).

(** Shorthands: a column with the default flags, a table and a schema
    without descriptions. *)
Definition mk_col (n : string) (ty : ScalarType) (pk : bool)
    (fk : option (string * string)) : Column :=
  {| col_name := n; col_type := ty; col_description := None;
     primary_key := pk;
     foreign_key := (λ r, {| ref_table := r.1; ref_column := r.2;
                             on_delete := None |}) <$> fk;
     nullable := false; unique := false; faker := None |}.

Definition mk_table (n : string) (cols : list Column) : Table :=
  {| table_name := n; table_description := None; columns := cols |}.

Definition mk_schema (ts : list Table) : Schema :=
  {| schema_name := "synthetic_dataset"; schema_description := None;
     tables := ts |}.

(** Two tables [a] and [b] that both reference [p]. *)
Definition ex_fan : Schema :=
  mk_schema [ mk_table "p" [mk_col "id" TInt true None];
              mk_table "a" [mk_col "id" TInt true None;
                            mk_col "p_id" TInt false (Some ("p", "id"))];
              mk_table "b" [mk_col "id" TInt true None;
                            mk_col "p_id" TInt false (Some ("p", "id"))] ].

(** The example of the specification: [orders.user_id] references
    [users.user_id]. *)
Definition ex_users_orders : Schema :=
  mk_schema
    [ mk_table "users"
        [ mk_col "user_id" TInt true None;
          {| col_name := "email"; col_type := TStr; col_description := None;
             primary_key := false; foreign_key := None; nullable := false;
             unique := true; faker := None |} ];
      mk_table "orders"
        [ mk_col "order_id" TInt true None;
          mk_col "user_id" TInt false (Some ("users", "user_id")) ] ].

(** Two foreign keys from [x] into the same parent [y]. *)
Definition ex_double_fk : Schema :=
  mk_schema
    [ mk_table "y" [ mk_col "id" TInt true None ];
      mk_table "x" [ mk_col "id" TInt true None;
                     mk_col "first_y" TInt false (Some ("y", "id"));
                     mk_col "second_y" TInt false (Some ("y", "id")) ] ].

(** [A] references [B], [B] references [C], [C] references [A]. *)
Definition ex_cycle : Schema :=
  mk_schema
    [ mk_table "A" [ mk_col "id" TInt true None;
                     mk_col "b_id" TInt false (Some ("B", "id")) ];
      mk_table "B" [ mk_col "id" TInt true None;
                     mk_col "c_id" TInt false (Some ("C", "id")) ];
      mk_table "C" [ mk_col "id" TInt true None;
                     mk_col "a_id" TInt false (Some ("A", "id")) ] ].

(** A table with a foreign key to itself. *)
Definition ex_self : Schema :=
  mk_schema
    [ mk_table "node" [ mk_col "id" TInt true None;
                        mk_col "parent_id" TInt false (Some ("node", "id")) ] ].

(** The script emitted for the example schema, five rows per table, seed 1,
    and a source of operating-system bytes for the examples. *)
Definition ex_script : Script :=
  {| SCHEMA := ex_users_orders; TABLE_ORDER := ["users"; "orders"];
     ROWS_PER_TABLE := 5; SEED := 1 |}.

Definition ex_urandom : nat → Z := λ n, Z.of_nat n.

(** [orders.user_id] is a nullable foreign key. *)
Definition ex_nullable_fk : Schema :=
  mk_schema
    [ mk_table "users" [ mk_col "user_id" TInt true None ];
      mk_table "orders"
        [ mk_col "order_id" TInt true None;
          {| col_name := "user_id"; col_type := TInt; col_description := None;
             primary_key := false;
             foreign_key := Some {| ref_table := "users";
                                    ref_column := "user_id";
                                    on_delete := Some SetNull |};
             nullable := true; unique := false; faker := None |} ] ].

Definition ex_nullable_fk_script : Script :=
  {| SCHEMA := ex_nullable_fk; TABLE_ORDER := ["users"; "orders"];
     ROWS_PER_TABLE := 40; SEED := 0 |}.

(** A table whose column [code] is unique and nullable. *)
Definition ex_unique_nullable : Schema :=
  mk_schema
    [ mk_table "t"
        [ mk_col "id" TInt true None;
          {| col_name := "code"; col_type := TStr; col_description := None;
             primary_key := false; foreign_key := None;
             nullable := true; unique := true; faker := None |} ] ].

Definition ex_unique_nullable_script : Script :=
  {| SCHEMA := ex_unique_nullable; TABLE_ORDER := ["t"];
     ROWS_PER_TABLE := 2; SEED := 0 |}.

(** An [int] column named [email] with a hint that Faker does not have. *)
Definition ex_bad_hint : Column :=
  {| col_name := "email"; col_type := TInt; col_description := None;
     primary_key := false; foreign_key := None; nullable := false;
     unique := false; faker := Some "no_such_provider" |}.

(** One table whose primary key is a string. *)
Definition ex_uuid_pk : Schema :=
  mk_schema [ mk_table "t" [ mk_col "id" TStr true None ] ].

Definition ex_uuid_pk_script : Script :=
  {| SCHEMA := ex_uuid_pk; TABLE_ORDER := ["t"];
     ROWS_PER_TABLE := 1; SEED := 1 |}.

(** A small platform for the examples: both generators are counters, every
    draw returns the counter reduced to the requested range, and Faker knows
    a handful of providers. *)
Definition toy_providers : list string :=
  ["uuid4"; "email"; "first_name"; "last_name"; "name"; "company";
   "phone_number"; "street_address"; "city"; "state"; "country"; "postcode";
   "date_time"; "date_object"; "word"].

Definition print_digit (d : Z) : string :=
  String (ascii_of_nat (Z.to_nat (48 + d))) EmptyString.

Fixpoint print_nat_fuel (fuel : nat) (z : Z) : string :=
  match fuel with
  | O => ""
  | S fuel' =>
    if z <? 10 then print_digit z
    else print_nat_fuel fuel' (z / 10) +:+ print_digit (z mod 10)
  end.

Definition print_Z (z : Z) : string := print_nat_fuel 20 (Z.abs z).

Lemma toy_below_range (n st : Z) : 0 < n → 0 ≤ (st mod n, st + 1).1 < n.
Proof. intros Hn. simpl. by apply Z.mod_pos_bound. Qed.

Definition toy_platform : Platform :=
  {| Rng := Z;
     rng_seed := λ seed, seed;
     rng_random := λ st, (st mod 2 ^ 53, st + 1);
     rng_below := λ n st, (st mod n, st + 1);
     rng_bit := λ st, (Z.odd st, st + 1);
     rng_below_range := toy_below_range;
     round_scaled := λ k, inject_Z (k mod 10000);
     Fake := Z;
     fake_seed := λ seed, seed;
     hasattr_fake := λ p, bool_decide (p ∈ toy_providers);
     fake_call := λ p st,
       (if bool_decide (p = "uuid4") then RUuid st
        else RPlain (VStr (p +:+ "-" +:+ print_Z st)), st + 1);
     fake_date_object := λ st, ("2020-01-01", st + 1);
     fake_date_time := λ st, ("2020-01-01T00:00:00", st + 1);
     fake_word := λ st, ("word" +:+ print_Z st, st + 1) |}.



(** The example schema with descriptions, a delete rule, and the foreign
    key of [orders] pointed at the column [email] of [users]. *)
Definition ex_users_orders_by_email : Schema :=
  {| schema_name := "shop"; schema_description := Some "users and orders";
     tables :=
       [ {| table_name := "users"; table_description := Some "customers";
            columns :=
              [ mk_col "user_id" TInt true None;
                {| col_name := "email"; col_type := TStr;
                   col_description := Some "login";
                   primary_key := false; foreign_key := None;
                   nullable := false; unique := true; faker := None |} ] |};
         mk_table "orders"
           [ mk_col "order_id" TInt true None;
             {| col_name := "user_id"; col_type := TInt;
                col_description := None; primary_key := false;
                foreign_key := Some {| ref_table := "users";
                                       ref_column := "email";
                                       on_delete := Some Cascade |};
                nullable := false; unique := false; faker := None |} ] ] |}.

(** ** Vocabulary of the statements and invariants *)

(** Declared tables without a foreign-key column, in declaration order. *)
Definition roots (s : Schema) : list string :=
  table_name <$> filter (λ t, foreign_keys t = []) (tables s).

(** Number of distinct parents recorded for [c]. *)
Definition npar (out : gmap string (gset string)) (names : list string)
    (c : string) : nat :=
  length (filter (λ p, c ∈ out !!! p) names).

Record graph_ok (names : list string) (g : Graph) : Prop := {
  g_dom : ∀ c, c ∈ dom g.1 ↔ c ∈ names;
  g_out : ∀ p c, c ∈ g.2 !!! p → c ∈ names ∧ p ∈ names ∧ c ≠ p;
  g_indeg : ∀ c, (Z.of_nat (npar g.2 names c) ≤ g.1 !!! c)%Z
}.

Definition decrement (indeg : gmap string Z) (child : string) : gmap string Z :=
  <[child := indeg !!! child - 1]> indeg.

Section loop_invariant.
Context (names : list string) (out : gmap string (gset string)).

(** Parents of [c] that are not yet in [ordered]. *)
Definition unprocessed (ordered : list string) (c : string) : nat :=
  length (filter (λ p, c ∈ out !!! p ∧ p ∉ ordered) names).

(** Every table of [ordered] comes after all its parents. *)
Definition parents_first (ordered : list string) : Prop :=
  ∀ l1 c l2 p, ordered = l1 ++ c :: l2 → c ∈ out !!! p → p ∈ l1.

Record loop_inv (indeg : gmap string Z) (q ordered : list string) : Prop := {
  inv_nodup : NoDup (ordered ++ q);
  inv_names : ∀ c, c ∈ ordered ++ q → c ∈ names;
  inv_pos : ∀ c, (0 < indeg !!! c)%Z → c ∉ ordered ++ q;
  inv_count : ∀ c, c ∈ names →
                   (Z.of_nat (unprocessed ordered c) ≤ indeg !!! c)%Z;
  inv_topo : parents_first ordered
}.

End loop_invariant.

(** The value of a primary-key cell: the row number, or a rendered UUID. *)
Definition pk_like (v : Value) : Prop :=
  (∃ n, v = VInt n) ∨ (∃ i, v = VStr (uuid_str i)).

(** What [gen_cell] leaves in a cell of column [c], given the pools [pkv]. *)
Definition cell_ok (pkv : gmap string (list Value)) (c : Column) (v : Value)
  : Prop :=
  if primary_key c then pk_like v
  else match foreign_key c with
       | Some fk => v ∈ default [] (pkv !! ref_table fk)
       | None => True
       end.

(** The errors of a cell: the retry budget of a unique column, or a
    foreign key whose parent pool is empty. *)
Definition cell_error_ok (pkv : gmap string (list Value)) (c : Column)
    (e : ScriptError) : Prop :=
  (∃ key, e = UniquenessExhausted key)
  ∨ (∃ fk table, primary_key c = false ∧ foreign_key c = Some fk
       ∧ default [] (pkv !! ref_table fk) = []
       ∧ e = MissingParentRows table (col_name c) (ref_table fk)).

(** Pools only grow: values are appended, never removed. *)
Definition pools_grow (pkv pkv' : gmap string (list Value)) : Prop :=
  ∀ n l, pkv !! n = Some l → ∃ l', pkv' !! n = Some (l ++ l').

(** A written row: every cell is what [gen_cell] may leave for its column. *)
Definition row_ok (pkv : gmap string (list Value)) (cols : list Column)
    (cells : list Value) : Prop :=
  ∀ j c, cols !! j = Some c → ∃ w, cells !! j = Some w ∧ cell_ok pkv c w.

(** [v] is the cell of [cells] under the column [pk_col]. *)
Definition pk_of (cols : list Column) (pk_col : Column) (cells : list Value)
    (v : Value) : Prop :=
  ∃ j, cols !! j = Some pk_col ∧ cells !! j = Some v.

(** The parent pool of every foreign-key column of [cols] holds a value. *)
Definition parents_ready (pkv : gmap string (list Value))
    (cols : list Column) : Prop :=
  ∀ c fk, c ∈ cols → foreign_key c = Some fk →
          default [] (pkv !! ref_table fk) ≠ [].

Section run_invariants.
Context (P : Platform).

(** The state of the row loop of one table after [k] rows, [st0] being the
    state in which the loop started. *)
Record table_inv (table : string) (cols : list Column) (pk_col : Column)
    (st0 st : Run P) (k : nat) : Prop := {
  ti_table : ∃ rs pool,
    files P st !! table
    = Some {| fieldnames := col_name <$> cols; rows := rs |}
    ∧ pk_values P st !! table = Some pool
    ∧ length rs = k
    ∧ Forall2 (pk_of cols pk_col) rs pool
    ∧ Forall (row_ok (pk_values P st) cols) rs;
  ti_files : ∀ n, n ≠ table → files P st !! n = files P st0 !! n;
  ti_pools : ∀ n, n ≠ table → pk_values P st !! n = pk_values P st0 !! n
}.

(** The state between two tables: nothing exists yet for the tables still
    to come; a finished table has its file of [ROWS_PER_TABLE] rows, its pool
    is the primary-key column of that file, and every cell of the file is
    what [gen_cell] may leave. *)
Record run_inv (script : Script) (finished : list string) (st : Run P) : Prop := {
  ri_fresh : ∀ n, n ∉ finished →
    pk_values P st !! n = None ∧ files P st !! n = None;
  ri_done : ∀ n, n ∈ finished →
    ∃ t pk_col rs pool,
      t ∈ tables (SCHEMA script) ∧ table_name t = n
      ∧ pk_col ∈ columns t ∧ primary_key pk_col = true
      ∧ files P st !! n
        = Some {| fieldnames := col_name <$> columns t; rows := rs |}
      ∧ pk_values P st !! n = Some pool
      ∧ length rs = Z.to_nat (ROWS_PER_TABLE script)
      ∧ Forall2 (pk_of (columns t) pk_col) rs pool
      ∧ Forall (row_ok (pk_values P st) (columns t)) rs
}.

End run_invariants.

(** In a finished run, a foreign-key cell holds a value that stands in the
    primary-key column of a row of the parent's file, and that value is
    what [_pk_generator] makes. *)
Definition in_parent_pk (s : Schema) (fs : gmap string File)
    (parent : string) (v : Value) : Prop :=
  ∃ pt pf pj pc pcells,
    pt ∈ tables s ∧ table_name pt = parent ∧ fs !! parent = Some pf
    ∧ columns pt !! pj = Some pc ∧ primary_key pc = true
    ∧ pcells ∈ rows pf ∧ pcells !! pj = Some v.

(** Every foreign-key cell of every file holds a value of the primary-key
    column of the parent's file. *)
Definition referential_integrity (s : Schema) (fs : gmap string File) : Prop :=
  ∀ t f cells j c fk,
    t ∈ tables s → fs !! table_name t = Some f → cells ∈ rows f →
    columns t !! j = Some c → foreign_key c = Some fk →
    ∃ v, cells !! j = Some v ∧ in_parent_pk s fs (ref_table fk) v.

(** The rows of a table's file at the end of a run, when the run returned. *)
Definition written_rows (P : Platform) (r : ScriptError + Run P)
    (table : string) : option (list (list Value)) :=
  match r with
  | inr st => rows <$> files P st !! table
  | inl _ => None
  end.

Definition returned {P : Platform} (r : ScriptError + Run P) : bool :=
  match r with inr _ => true | inl _ => false end.

Section provider_priority.
Context (P : Platform).

(** The name-based table, kept when Faker has the provider. *)
Definition inferred_provider (col : Column) : option string :=
  match _infer_provider (col_name col) with
  | Some p => if hasattr_fake P p then Some p else None
  | None => None
  end.

(** The priority as the specification words it: the hint when it is present
    and recognized, otherwise the name-based table, otherwise ([None]) the
    type-based fallback. *)
Definition spec_provider (col : Column) : option string :=
  match faker col with
  | Some hint =>
    if negb (bool_decide (hint = "")) && hasattr_fake P hint then Some hint
    else inferred_provider col
  | None => inferred_provider col
  end.

(** The hint is present and Faker does not have it. *)
Definition hint_unrecognized (col : Column) : bool :=
  match faker col with
  | Some hint => negb (bool_decide (hint = "")) && negb (hasattr_fake P hint)
  | None => false
  end.

End provider_priority.

(** The conditions that the three validators of [models.py] test. *)
Record schema_invariants (s : Schema) : Prop := {
  si_tables : tables s ≠ [];
  si_table_names : NoDup (table_name <$> tables s);
  si_columns : ∀ t, t ∈ tables s →
    columns t ≠ [] ∧ NoDup (col_name <$> columns t)
    ∧ ∃ c, c ∈ columns t ∧ primary_key c = true;
  si_primary : ∀ t c, t ∈ tables s → c ∈ columns t → primary_key c = true →
    foreign_key c = None ∧ nullable c = false;
  si_foreign : ∀ t c fk, t ∈ tables s → c ∈ columns t →
    foreign_key c = Some fk →
    ∃ rt rc, rt ∈ tables s ∧ table_name rt = ref_table fk
             ∧ rc ∈ columns rt ∧ col_name rc = ref_column fk
}.

(** An order of the declared tables in which every table comes after the
    tables it references. *)
Definition parents_first_order (s : Schema) (order : list string) : Prop :=
  order ≡ₚ table_name <$> tables s
  ∧ ∀ l1 c l2 p, order = l1 ++ c :: l2 →
                 (c, p) ∈ dependency_edges s → p ∈ l1.

(** The graph after the edges [es], when no edge occurs twice: the child
    sets hold the edges, and the indegree of a table is the number of its
    parents. *)
Record graph_exact (names : list string) (es : list (string * string))
    (g : Graph) : Prop := {
  ge_out : ∀ c p, c ∈ g.2 !!! p ↔ (c, p) ∈ es;
  ge_indeg : ∀ c, c ∈ names → Z.of_nat (npar g.2 names c) = g.1 !!! c
}.

(** The queue loop, when no edge occurs twice: the indegree of a table is
    the number of its parents still to be ordered, and a table whose
    indegree is zero is ordered or queued. *)
Record loop_exact (names : list string) (out : gmap string (gset string))
    (indeg : gmap string Z) (q ordered : list string) : Prop := {
  le_count : ∀ c, c ∈ names →
    Z.of_nat (unprocessed names out ordered c) = indeg !!! c;
  le_zero : ∀ c, c ∈ names → indeg !!! c = 0 → c ∈ ordered ++ q
}.



(** Every row of every file has one cell per header field. *)
Definition files_rect (fs : gmap string File) : Prop :=
  ∀ n f cells, fs !! n = Some f → cells ∈ rows f →
               length cells = length (fieldnames f).

(** Column [j] of the rows [rs]: two cells in different rows are different
    under Python's [==], unless the column is nullable and both are the
    empty string. *)
Definition distinct_unless_empty (nb : bool) (j : nat)
    (rs : list (list Value)) : Prop :=
  ∀ i1 i2 r1 r2 v1 v2,
    i1 ≠ i2 → rs !! i1 = Some r1 → rs !! i2 = Some r2 →
    r1 !! j = Some v1 → r2 !! j = Some v2 → py_eqb v1 v2 = true →
    nb = true ∧ v1 = VStr "" ∧ v2 = VStr "".

(** How one cell of a unique column relates to the tracker: the empty value
    of a nullable column leaves the tracker alone, any other value was not in
    the tracker and is added to it. *)
Definition tracked_cell (nb : bool) (w : Value) (seen seen' : list Value)
  : Prop :=
  (nb = true ∧ w = VStr "" ∧ seen' = seen)
  ∨ (py_in w seen = false ∧ seen' = w :: seen).

(** The rows written so far and the tracker of column [j]. *)
Definition column_inv (nb : bool) (j : nat) (rs : list (list Value))
    (seen : list Value) : Prop :=
  (∀ r v, r ∈ rs → r !! j = Some v → (nb = true ∧ v = VStr "") ∨ v ∈ seen)
  ∧ distinct_unless_empty nb j rs.

(** What [_toposort_tables] and the emitted script read of a schema: the
    names, types and flags of the columns and the [ref_table] of a foreign
    key.  [read_schema] blanks the rest: the descriptions, the name of the
    schema, and [ref_column] and [on_delete] of every foreign key. *)
Definition read_fk (fk : ForeignKey) : ForeignKey :=
  {| ref_table := ref_table fk; ref_column := ""; on_delete := None |}.

Definition read_column (c : Column) : Column :=
  {| col_name := col_name c; col_type := col_type c; col_description := None;
     primary_key := primary_key c; foreign_key := read_fk <$> foreign_key c;
     nullable := nullable c; unique := unique c; faker := faker c |}.

Definition read_table (t : Table) : Table :=
  {| table_name := table_name t; table_description := None;
     columns := read_column <$> columns t |}.

Definition read_schema (s : Schema) : Schema :=
  {| schema_name := ""; schema_description := None;
     tables := read_table <$> tables s |}.

(** * Proofs *)

(** ** Counting with [filter] *)

Section filter_count.
Context {A : Type} `{!EqDecision A} (P Q : A → Prop)
        `{!∀ x, Decision (P x)} `{!∀ x, Decision (Q x)}.

Lemma filter_ext_in (l : list A) :
  (∀ y, y ∈ l → (P y ↔ Q y)) → filter P l = filter Q l.
Proof.
  induction l as [|y l IH]; intros HPQ; [done|].
  rewrite !filter_cons.
  assert (HPy : P y ↔ Q y) by (apply HPQ; left).
  rewrite IH by (intros z Hz; apply HPQ; by right).
  destruct (decide (P y)), (decide (Q y)); tauto.
Qed.

Lemma filter_length_ext (l : list A) :
  (∀ y, y ∈ l → (P y ↔ Q y)) →
  length (filter P l) = length (filter Q l).
Proof.
  induction l as [|y l IH]; intros HPQ; [done|].
  rewrite !filter_cons.
  assert (HPy : P y ↔ Q y) by (apply HPQ; left).
  assert (IH' : length (filter P l) = length (filter Q l))
    by (apply IH; intros z Hz; apply HPQ; by right).
  destruct (decide (P y)), (decide (Q y)); simpl; tauto || lia.
Qed.

Lemma filter_length_grow (x : A) (l : list A) :
  NoDup l → (∀ y, y ≠ x → (P y ↔ Q y)) →
  (length (filter Q l) ≤ S (length (filter P l)))%nat.
Proof.
  intros Hnd HPQ. induction Hnd as [|y l Hy Hnd IH]; [simpl; lia|].
  rewrite !filter_cons.
  destruct (decide (y = x)) as [->|Hne].
  - assert (length (filter P l) = length (filter Q l)).
    { apply filter_length_ext. intros z Hz. apply HPQ. by intros ->. }
    destruct (decide (P x)), (decide (Q x)); simpl; lia.
  - specialize (HPQ y Hne).
    destruct (decide (P y)), (decide (Q y)); simpl; tauto || lia.
Qed.

Lemma filter_length_drop (x : A) (l : list A) :
  NoDup l → x ∈ l → P x → ¬ Q x → (∀ y, y ≠ x → (P y ↔ Q y)) →
  length (filter P l) = S (length (filter Q l)).
Proof.
  intros Hnd Hx HP HQ HPQ. induction Hnd as [|y l Hy Hnd IH]; [inversion Hx|].
  rewrite !filter_cons.
  destruct (decide (y = x)) as [->|Hne].
  - assert (length (filter P l) = length (filter Q l)).
    { apply filter_length_ext. intros z Hz. apply HPQ. by intros ->. }
    destruct (decide (P x)), (decide (Q x)); simpl; tauto || lia.
  - assert (Hxl : x ∈ l) by (inversion Hx; by subst).
    specialize (HPQ y Hne). specialize (IH Hxl).
    destruct (decide (P y)), (decide (Q y)); simpl; tauto || lia.
Qed.

Lemma filter_length_zero (x : A) (l : list A) :
  length (filter P l) = O → x ∈ l → ¬ P x.
Proof.
  intros Hlen Hx HP.
  assert (Hin : x ∈ filter P l) by (apply list_elem_of_filter; done).
  destruct (filter P l); [inversion Hin | done].
Qed.
End filter_count.

Lemma remove_dups_length_le (l : list string) :
  (length (remove_dups l) ≤ length l)%nat.
Proof.
  induction l as [|x l IH]; simpl; [lia|].
  destruct (decide_rel elem_of x l); simpl; lia.
Qed.

Lemma has_duplicates_false (l : list string) :
  has_duplicates l = false → NoDup l.
Proof.
  unfold has_duplicates. intros H.
  apply negb_false_iff, Nat.eqb_eq in H.
  induction l as [|x l IH]; [constructor|].
  simpl in H. pose proof (remove_dups_length_le l).
  destruct (decide_rel elem_of x l); simpl in H; [lia|].
  constructor; [done|]. apply IH. lia.
Qed.

(** ** The graph built from the dependency edges *)

Lemma foldl_insert_const_lookup {V} (v : V) (names : list string)
    (m : gmap string V) (c : string) :
  foldl (λ m t, <[t := v]> m) m names !! c
  = if decide (c ∈ names) then Some v else m !! c.
Proof.
  revert m. induction names as [|x names IH]; intros m; simpl.
  - destruct (decide (c ∈ [])) as [Hc|]; [inversion Hc | done].
  - rewrite IH. destruct (decide (c ∈ names)) as [Hin|Hin].
    + destruct (decide (c ∈ x :: names)) as [|Hn]; [done|].
      destruct Hn. by right.
    + destruct (decide (c ∈ x :: names)) as [Hc|Hc].
      * apply elem_of_cons in Hc as [->|?]; [|done].
        by rewrite lookup_insert_eq.
      * rewrite lookup_insert_ne; [done|]. intros ->. apply Hc. left.
Qed.

Lemma init_graph_ok (names : list string) : graph_ok names (init_graph names).
Proof.
  assert (Hout : ∀ p, (init_graph names).2 !!! p = (∅ : gset string)).
  { intros p. unfold init_graph; simpl. rewrite lookup_total_alt.
    rewrite foldl_insert_const_lookup, lookup_empty. by case_decide. }
  split.
  - intros c. unfold init_graph; simpl. rewrite elem_of_dom.
    rewrite foldl_insert_const_lookup, lookup_empty.
    destruct (decide (c ∈ names)) as [Hc|Hc].
    + split; [done | intros _; by eexists].
    + split; [intros [? ?]; done | done].
  - intros p c. rewrite Hout. set_solver.
  - intros c. unfold npar.
    replace (length _) with O.
    + unfold init_graph; simpl. rewrite lookup_total_alt.
      rewrite foldl_insert_const_lookup, lookup_empty. by case_decide.
    + symmetry. rewrite (filter_length_ext _ (λ _, False)).
      * clear Hout. induction names as [|x l IH]; [done|].
        rewrite filter_cons. by destruct (decide False).
      * intros y _. rewrite Hout. set_solver.
Qed.

Lemma add_edge_ok (names : list string) (g g' : Graph) (e : string * string) :
  NoDup names → graph_ok names g → add_edge g e = inr g' → graph_ok names g'.
Proof.
  intros Hnd [Hdom Hout Hin]. destruct g as [indeg out], e as [child parent].
  simpl in *. unfold add_edge.
  case_bool_decide as Hself; [done|].
  destruct (bool_decide (parent ∉ dom indeg)) eqn:Hp; simpl;
    [intros [= <-]; by split|].
  destruct (bool_decide (child ∉ dom indeg)) eqn:Hc; simpl;
    [intros [= <-]; by split|].
  apply bool_decide_eq_false in Hp, Hc.
  assert (Hpn : parent ∈ names) by (apply Hdom; by destruct (decide (parent ∈ dom indeg))).
  assert (Hcn : child ∈ names) by (apply Hdom; by destruct (decide (child ∈ dom indeg))).
  case_bool_decide as Hnew; [|intros [= <-]; by split].
  intros [= <-]. split; simpl.
  - intros c. rewrite dom_insert, elem_of_union, elem_of_singleton.
    rewrite <- Hdom. split; [intros [->|?]; [|done] | by right].
    by destruct (decide (child ∈ dom indeg)).
  - intros p c. destruct (decide (p = parent)) as [->|Hne].
    + rewrite lookup_total_insert_eq.
      rewrite elem_of_union, elem_of_singleton. intros [->|Hc']; [done|].
      by apply Hout.
    + rewrite lookup_total_insert_ne by done. apply Hout.
  - intros c. unfold npar in *. destruct (decide (c = child)) as [->|Hne].
    + rewrite lookup_total_insert_eq.
      pose proof (filter_length_grow (λ p, child ∈ out !!! p)
        (λ p, child ∈ <[parent:={[child]} ∪ out !!! parent]> out !!! p)
        parent names Hnd) as Hgrow.
      specialize (Hin child).
      assert ((length (filter (λ p, child ∈ <[parent:={[child]} ∪ out !!! parent]> out !!! p) names)
               ≤ S (length (filter (λ p, child ∈ out !!! p) names)))%nat); [|lia].
      apply Hgrow. intros y Hy. by rewrite lookup_total_insert_ne.
    + rewrite lookup_total_insert_ne by done.
      specialize (Hin c).
      rewrite (filter_length_ext _ (λ p, c ∈ out !!! p)); [done|].
      intros y _. destruct (decide (y = parent)) as [->|Hy].
      * rewrite lookup_total_insert_eq.
        rewrite elem_of_union, elem_of_singleton. tauto.
      * by rewrite lookup_total_insert_ne.
Qed.

Lemma add_edges_ok (names : list string) (es : list (string * string))
    (g g' : Graph) :
  NoDup names → graph_ok names g → add_edges g es = inr g' → graph_ok names g'.
Proof.
  intros Hnd. revert g. induction es as [|e es IH]; intros g Hg; simpl.
  - by intros [= <-].
  - destruct (add_edge g e) as [err|g1] eqn:He; [done|].
    apply IH. by eapply add_edge_ok.
Qed.

(** Once a child is recorded under a parent it stays recorded. *)
Lemma add_edge_mono (g g' : Graph) (e : string * string) (c p : string) :
  add_edge g e = inr g' → c ∈ g.2 !!! p → c ∈ g'.2 !!! p.
Proof.
  destruct g as [indeg out], e as [child parent]. unfold add_edge; simpl.
  case_bool_decide; [done|].
  destruct (_ || _); [by intros [= <-]|].
  case_bool_decide; [|by intros [= <-]].
  intros [= <-] Hc; simpl. destruct (decide (p = parent)) as [->|Hne].
  - rewrite lookup_total_insert_eq. by apply elem_of_union_r.
  - by rewrite lookup_total_insert_ne.
Qed.

Lemma add_edges_mono (es : list (string * string)) (g g' : Graph)
    (c p : string) :
  add_edges g es = inr g' → c ∈ g.2 !!! p → c ∈ g'.2 !!! p.
Proof.
  revert g. induction es as [|e es IH]; intros g; simpl.
  - by intros [= <-].
  - destruct (add_edge g e) as [err|g1] eqn:He; [done|].
    intros Hes Hc. eapply IH; [done|]. by eapply add_edge_mono.
Qed.

(** Every edge between declared tables is recorded. *)
Lemma add_edges_records (names : list string) (es : list (string * string))
    (g g' : Graph) (c p : string) :
  NoDup names → graph_ok names g → add_edges g es = inr g' →
  (c, p) ∈ es → c ∈ names → p ∈ names → c ∈ g'.2 !!! p.
Proof.
  intros Hnd. revert g. induction es as [|e es IH]; intros g Hg; simpl.
  - intros _ Hin. inversion Hin.
  - destruct (add_edge g e) as [err|g1] eqn:He; [done|].
    intros Hes Hin Hc Hp. apply elem_of_cons in Hin as [<-|Hin].
    + eapply add_edges_mono; [done|].
      destruct g as [indeg out]. unfold add_edge in He.
      case_bool_decide as Hself; [done|].
      pose proof (proj2 (g_dom _ _ Hg c) Hc) as Hcd.
      pose proof (proj2 (g_dom _ _ Hg p) Hp) as Hpd. simpl in Hcd, Hpd.
      rewrite (bool_decide_eq_false_2 (p ∉ dom indeg)) in He by tauto.
      rewrite (bool_decide_eq_false_2 (c ∉ dom indeg)) in He by tauto.
      simpl in He. destruct (bool_decide (p ∉ out !!! p)) eqn:Hnew.
      * injection He as <-. simpl. rewrite lookup_total_insert_eq.
        apply elem_of_union_l. by apply elem_of_singleton.
      * exfalso. apply bool_decide_eq_false in Hnew. apply Hnew. intros Hpp.
        by destruct (g_out _ _ Hg p p Hpp) as (_ & _ & ?).
    + eapply IH; [by eapply add_edge_ok| done..].
Qed.

(** A self-referential foreign key stops the loop over the edges. *)
Lemma add_edges_self (es : list (string * string)) (g : Graph) (t : string) :
  (t, t) ∈ es → ∃ t', add_edges g es = inl (SelfReferentialFk t').
Proof.
  revert g. induction es as [|e es IH]; intros g Hin; [inversion Hin|].
  simpl. apply elem_of_cons in Hin as [<-|Hin].
  - destruct g as [indeg out]. unfold add_edge.
    rewrite bool_decide_eq_true_2 by done. by eexists.
  - destruct (add_edge g e) as [err|g1] eqn:He; [|by apply IH].
    destruct g as [indeg out], e as [child parent]. unfold add_edge in He.
    case_bool_decide; [injection He as <-; by eexists|].
    destruct (_ || _); [done|]. by case_bool_decide.
Qed.

Lemma add_edges_error (es : list (string * string)) (g : Graph)
    (err : ValueError) :
  add_edges g es = inl err → ∃ t, err = SelfReferentialFk t ∧ (t, t) ∈ es.
Proof.
  revert g. induction es as [|e es IH]; intros g; simpl; [done|].
  destruct (add_edge g e) as [err'|g1] eqn:He.
  - intros [= <-]. destruct g as [indeg out], e as [child parent].
    unfold add_edge in He. case_bool_decide as Hs.
    + injection He as <-. subst. eexists; split; [done | left].
    + destruct (_ || _); [done|]. by case_bool_decide.
  - intros Hes. destruct (IH _ Hes) as (t & -> & Hin).
    exists t; split; [done | by right].
Qed.

(** ** The queue loop *)

Lemma decrement_lookup (children : list string) (indeg : gmap string Z)
    (c : string) :
  NoDup children →
  foldl decrement indeg children !!! c
  = indeg !!! c - (if decide (c ∈ children) then 1 else 0).
Proof.
  intros Hnd. revert indeg.
  induction Hnd as [|x l Hx Hnd IH]; intros indeg; simpl.
  - destruct (decide (c ∈ [])) as [Hc|]; [inversion Hc | lia].
  - rewrite IH. unfold decrement.
    destruct (decide (c = x)) as [->|Hne].
    + rewrite lookup_total_insert_eq.
      destruct (decide (x ∈ l)); [done|].
      destruct (decide (x ∈ x :: l)) as [|Hn]; [lia|]. destruct Hn; left.
    + rewrite lookup_total_insert_ne by done.
      destruct (decide (c ∈ l)) as [Hc|Hc];
        destruct (decide (c ∈ x :: l)) as [Hc'|Hc']; try lia.
      * destruct Hc'. by right.
      * apply elem_of_cons in Hc' as [?|?]; done.
Qed.

Lemma foldl_release (children : list string) (indeg : gmap string Z)
    (q : list string) :
  NoDup children →
  foldl release (indeg, q) children
  = (foldl decrement indeg children,
     q ++ filter (λ c, indeg !!! c = 1) children).
Proof.
  intros Hnd. revert indeg q.
  induction Hnd as [|x l Hx Hnd IH]; intros indeg q; simpl.
  - by rewrite app_nil_r.
  - rewrite filter_cons. fold (decrement indeg x).
    assert (Hrest : filter (λ c, decrement indeg x !!! c = 1) l
                    = filter (λ c, indeg !!! c = 1) l).
    { apply filter_ext_in. intros y Hy. unfold decrement.
      rewrite lookup_total_insert_ne; [done|]. by intros ->. }
    assert (Hx1 : decrement indeg x !!! x = indeg !!! x - 1)
      by (unfold decrement; by rewrite lookup_total_insert_eq).
    rewrite Hx1. case_bool_decide as H0; rewrite IH, Hrest.
    + rewrite decide_True by lia. by rewrite <- app_assoc.
    + rewrite decide_False by lia. done.
Qed.

Section kahn.
Context (set_iter : set_order) (Hiter : lists_elements set_iter).
Context (names : list string) (Hnames : NoDup names).
Context (out : gmap string (gset string)).
Context (Hout : ∀ p c, c ∈ out !!! p → c ∈ names ∧ p ∈ names ∧ c ≠ p).

Lemma set_iter_NoDup (s : gset string) : NoDup (set_iter s).
Proof. rewrite (Hiter s). apply NoDup_elements. Qed.

Lemma set_iter_elem (s : gset string) (x : string) : x ∈ set_iter s ↔ x ∈ s.
Proof. rewrite (Hiter s). apply elem_of_elements. Qed.

Lemma loop_inv_ready indeg q ordered t p :
  loop_inv names out indeg q ordered → t ∈ q → t ∈ out !!! p → p ∈ ordered.
Proof.
  intros [Hnd Hn Hpos Hcnt Htopo] Ht Htp.
  assert (Htq : t ∈ ordered ++ q) by (apply elem_of_app; by right).
  assert (Hz : ¬ (0 < indeg !!! t)%Z) by (intros H0; by apply (Hpos t H0)).
  specialize (Hcnt t (Hn t Htq)).
  assert (Hlen : unprocessed names out ordered t = O) by lia.
  destruct (decide (p ∈ ordered)) as [|Hp]; [done|]. exfalso.
  eapply (filter_length_zero _ p _ Hlen); [by apply (Hout p t)|done].
Qed.

Lemma loop_inv_step indeg t q ordered :
  loop_inv names out indeg (t :: q) ordered →
  loop_inv names out (foldl decrement indeg (set_iter (out !!! t)))
           (q ++ filter (λ c, indeg !!! c = 1) (set_iter (out !!! t)))
           (ordered ++ [t]).
Proof.
  intros Hinv. pose proof Hinv as [Hnd Hn Hpos Hcnt Htopo].
  pose proof (set_iter_NoDup (out !!! t)) as Hch.
  assert (Hdec : ∀ c, foldl decrement indeg (set_iter (out !!! t)) !!! c
             = indeg !!! c - (if decide (c ∈ out !!! t) then 1 else 0)).
  { intros c. rewrite decrement_lookup by done.
    destruct (decide (c ∈ set_iter (out !!! t))) as [Hc|Hc];
      destruct (decide (c ∈ out !!! t)) as [Hc'|Hc']; try done;
      rewrite set_iter_elem in Hc; done. }
  assert (Ht_new : (t ∉ ordered) ∧ (t ∉ q) ∧ (t ∈ names)).
  { apply NoDup_app in Hnd as (_ & Hd & Hq).
    apply NoDup_cons in Hq as [? _]. repeat split; [|done|].
    - intros Hto. apply (Hd t Hto). left.
    - apply Hn, elem_of_app. right; left. }
  destruct Ht_new as (Hto & Htq & Htn).
  split.
  - (* no table is ordered or queued twice *)
    rewrite <- app_assoc. simpl.
    apply NoDup_app in Hnd as (Ho & Hd & Hq).
    apply NoDup_app. split; [done|]. split.
    + intros x Hx Hx'. apply elem_of_cons in Hx' as [->|Hx']; [done|].
      apply elem_of_app in Hx' as [Hx'|Hx'].
      * apply (Hd x Hx). by right.
      * apply list_elem_of_filter in Hx' as [H1 _].
        apply (Hpos x); [lia|]. apply elem_of_app; by left.
    + apply NoDup_cons. split.
      * intros Ht. apply elem_of_app in Ht as [|Ht]; [done|].
        apply list_elem_of_filter in Ht as [H1 _].
        apply (Hpos t); [lia|]. apply elem_of_app; right; left.
      * apply NoDup_cons in Hq as [_ Hq].
        apply NoDup_app. split; [done|]. split; [|by apply NoDup_filter].
        intros x Hx Hx'. apply list_elem_of_filter in Hx' as [H1 _].
        apply (Hpos x); [lia|]. apply elem_of_app; right; by right.
  - intros c Hc. rewrite <- app_assoc in Hc. simpl in Hc.
    apply elem_of_app in Hc as [Hc|Hc]; [apply Hn, elem_of_app; by left|].
    apply elem_of_cons in Hc as [->|Hc]; [done|].
    apply elem_of_app in Hc as [Hc|Hc].
    + apply Hn, elem_of_app. right; by right.
    + apply list_elem_of_filter in Hc as [_ Hc].
      apply set_iter_elem in Hc. by apply (Hout t c).
  - intros c Hc Hin. rewrite Hdec in Hc.
    rewrite <- app_assoc in Hin. simpl in Hin.
    assert (Hold : c ∉ ordered ++ t :: q)
      by (apply Hpos; destruct (decide (c ∈ out !!! t)); lia).
    apply elem_of_app in Hin as [Hin|Hin];
      [apply Hold, elem_of_app; by left|].
    apply elem_of_cons in Hin as [->|Hin];
      [apply Hold, elem_of_app; right; left|].
    apply elem_of_app in Hin as [Hin|Hin];
      [apply Hold, elem_of_app; right; by right|].
    apply list_elem_of_filter in Hin as [H1 Hin].
    apply set_iter_elem in Hin. rewrite decide_True in Hc by done. lia.
  - intros c Hc. rewrite Hdec. specialize (Hcnt c Hc). unfold unprocessed in *.
    destruct (decide (c ∈ out !!! t)) as [Hct|Hct].
    + rewrite (filter_length_drop
                 (λ p, c ∈ out !!! p ∧ p ∉ ordered)
                 (λ p, c ∈ out !!! p ∧ p ∉ ordered ++ [t]) t names) in Hcnt;
        [lia|done|done|done| |].
      * intros [_ Hnt]. apply Hnt, elem_of_app. right; left.
      * intros y Hy. rewrite elem_of_app, list_elem_of_singleton. tauto.
    + rewrite (filter_length_ext
                 (λ p, c ∈ out !!! p ∧ p ∉ ordered ++ [t])
                 (λ p, c ∈ out !!! p ∧ p ∉ ordered)); [lia|].
      intros y Hy. rewrite elem_of_app, list_elem_of_singleton.
      split; [tauto|]. intros [Hcy Hyo]. split; [done|].
      intros [Hyo' | ->]; done.
  - intros l1 c l2 p Heq Hcp.
    induction l2 as [|z l2 _] using rev_ind.
    + apply app_inj_tail in Heq as [-> ->].
      eapply loop_inv_ready; [done| left |done].
    + rewrite app_comm_cons, app_assoc in Heq.
      apply app_inj_tail in Heq as [-> _]. by eapply Htopo.
Qed.

(** The loop ends within one iteration per table still to be ordered, and
    it ends in a state that satisfies the invariant with an empty queue. *)
Lemma kahn_loop_inv fuel indeg q ordered :
  loop_inv names out indeg q ordered →
  (length names ≤ fuel + length ordered)%nat →
  ∃ indeg' ordered',
    kahn_loop set_iter out fuel indeg q ordered = Some ordered'
    ∧ loop_inv names out indeg' [] ordered'.
Proof.
  revert indeg q ordered.
  induction fuel as [|fuel IH]; intros indeg q ordered Hinv Hfuel.
  - destruct q as [|t q]; [by exists indeg, ordered|]. exfalso.
    destruct Hinv as [Hnd Hn _ _ _].
    assert (Hsub : ordered ++ t :: q ⊆+ names) by by apply NoDup_submseteq.
    apply submseteq_length in Hsub. rewrite length_app in Hsub.
    simpl in *. lia.
  - destruct q as [|t q]; [by exists indeg, ordered|]. simpl.
    rewrite foldl_release by apply set_iter_NoDup.
    apply IH; [by apply loop_inv_step|].
    rewrite length_app. simpl. lia.
Qed.
End kahn.

Lemma toposort_nodup_names (s : Schema) :
  validate_schema s = None → NoDup (table_name <$> tables s).
Proof.
  unfold validate_schema. destruct (first_error _ _); [done|].
  case_bool_decide; [done|].
  destruct (has_duplicates _) eqn:Hd; [done|]. intros _.
  by apply has_duplicates_false.
Qed.

(** ** Facts about validated schemas *)

Lemma first_error_None {A} (f : A → option ValueError) (l : list A) (x : A) :
  first_error f l = None → x ∈ l → f x = None.
Proof.
  induction l as [|y l IH]; simpl; intros Hf Hx; [inversion Hx|].
  destruct (f y) eqn:Hy; [done|].
  apply elem_of_cons in Hx as [->|Hx]; [done | by apply IH].
Qed.

Lemma table_by_name_lookup (ts : list Table) (m : gmap string Table)
    (n : string) (t : Table) :
  foldl (λ m t, <[table_name t := t]> m) m ts !! n = Some t →
  (t ∈ ts ∧ table_name t = n) ∨ m !! n = Some t.
Proof.
  revert m. induction ts as [|t' ts IH]; intros m; simpl; [by right|].
  intros H. apply IH in H as [[Hin Hn]|H].
  - left. split; [by right | done].
  - destruct (decide (table_name t' = n)) as [<-|Hne].
    + rewrite lookup_insert_eq in H. injection H as ->. left. split; [left|done].
    + rewrite lookup_insert_ne in H by done. by right.
Qed.

Lemma edges_elem (s : Schema) (child parent : string) :
  (child, parent) ∈ dependency_edges s ↔
  ∃ t col fk, t ∈ tables s ∧ col ∈ columns t ∧ foreign_key col = Some fk
              ∧ child = table_name t ∧ parent = ref_table fk.
Proof.
  unfold dependency_edges. rewrite list_elem_of_bind. split.
  - intros (t & Hin & Ht).
    unfold table_edges in Hin. apply list_elem_of_omap in Hin as (col & Hc & Hfk).
    unfold foreign_keys in Hc. apply list_elem_of_filter in Hc as [_ Hc].
    destruct (foreign_key col) as [fk|] eqn:Hf; [|done].
    injection Hfk as <- <-. by exists t, col, fk.
  - intros (t & col & fk & Ht & Hc & Hfk & -> & ->).
    exists t. split; [|done].
    unfold table_edges. apply list_elem_of_omap. exists col. split.
    + unfold foreign_keys. apply list_elem_of_filter. split; [|done].
      by rewrite Hfk.
    + by rewrite Hfk.
Qed.

Lemma valid_fk_target (s : Schema) (t : Table) (col : Column) (fk : ForeignKey) :
  validate_schema s = None → t ∈ tables s → col ∈ columns t →
  foreign_key col = Some fk →
  ∃ rt, rt ∈ tables s ∧ table_name rt = ref_table fk.
Proof.
  unfold validate_schema. destruct (first_error validate_table _); [done|].
  case_bool_decide; [done|]. destruct (has_duplicates _); [done|].
  intros Hfk Ht Hc Hcol.
  pose proof (first_error_None _ _ t Hfk Ht) as Hcols. simpl in Hcols.
  pose proof (first_error_None _ _ col Hcols Hc) as Hchk.
  unfold check_fk in Hchk. rewrite Hcol in Hchk.
  destruct (table_by_name (tables s) !! ref_table fk) as [rt|] eqn:Hrt; [|done].
  unfold table_by_name in Hrt.
  apply table_by_name_lookup in Hrt as [[? ?]|Hrt]; [by exists rt|].
  by rewrite lookup_empty in Hrt.
Qed.

Lemma valid_edge_names (s : Schema) (child parent : string) :
  validate_schema s = None → (child, parent) ∈ dependency_edges s →
  child ∈ table_name <$> tables s ∧ parent ∈ table_name <$> tables s.
Proof.
  intros Hv He. apply edges_elem in He as (t & col & fk & Ht & Hc & Hfk & -> & ->).
  split; [apply list_elem_of_fmap; by exists t|].
  destruct (valid_fk_target s t col fk Hv Ht Hc Hfk) as (rt & Hrt & <-).
  apply list_elem_of_fmap. by exists rt.
Qed.

(** ** The resolver as a whole *)

Section resolver.
Context (set_iter : set_order) (Hiter : lists_elements set_iter).
Context (s : Schema) (Hvalid : validate_schema s = None).

Let names := table_name <$> tables s.

(** The two ways [_toposort_tables] can go: a self-referential edge stops
    it, or the graph is built, the queue loop ends, and the length test
    decides between the order and the cycle error. *)
Lemma toposort_cases :
  (∃ t, (t, t) ∈ dependency_edges s
        ∧ _toposort_tables set_iter s = Some (inl (SelfReferentialFk t)))
  ∨ (∃ indeg out indeg' ordered,
        add_edges (init_graph names) (dependency_edges s) = inr (indeg, out)
        ∧ graph_ok names (indeg, out)
        ∧ kahn_loop set_iter out (length names) indeg
                    (filter (λ t, indeg !!! t = 0) names) [] = Some ordered
        ∧ loop_inv names out indeg' [] ordered
        ∧ _toposort_tables set_iter s = Some (finish_order names ordered)).
Proof.
  pose proof (toposort_nodup_names s Hvalid) as Hnd. fold names in Hnd.
  unfold _toposort_tables. fold names.
  destruct (add_edges (init_graph names) (dependency_edges s))
    as [err|[indeg out]] eqn:Hes.
  - left. apply add_edges_error in Hes as (t & -> & Hin). by exists t.
  - right.
    assert (Hg : graph_ok names (indeg, out))
      by (eapply add_edges_ok; [done|apply init_graph_ok|done]).
    destruct (kahn_loop_inv set_iter Hiter names Hnd out (g_out _ _ Hg)
                (length names) indeg (filter (λ t, indeg !!! t = 0) names) [])
      as (indeg' & ordered & Hloop & Hinv).
    + split; simpl.
      * by apply NoDup_filter.
      * intros c Hc. by apply list_elem_of_filter in Hc as [_ ?].
      * intros c Hc Hin. apply list_elem_of_filter in Hin as [H0 _]. lia.
      * intros c Hc. pose proof (g_indeg _ _ Hg c) as Hle. simpl in Hle.
        unfold unprocessed, npar in *.
        rewrite (filter_length_ext _ (λ p, c ∈ out !!! p)); [done|].
        intros y _. split; [tauto|]. intros ?. split; [done|].
        intros Hy. inversion Hy.
      * intros l1 c l2 p Heq. by destruct l1.
    + simpl. lia.
    + exists indeg, out, indeg', ordered. rewrite Hloop. done.
Qed.

(** The resolver always comes back, with an order or with an error. *)
Lemma toposort_total : is_Some (_toposort_tables set_iter s).
Proof.
  destruct toposort_cases as [(t & _ & ->)|(? & ? & ? & ? & _ & _ & _ & _ & ->)];
    by eexists.
Qed.

Lemma ordered_sub_names indeg out ordered :
  loop_inv names out indeg [] ordered →
  NoDup ordered ∧ (∀ c, c ∈ ordered → c ∈ names)
  ∧ (length ordered ≤ length names)%nat.
Proof.
  intros [Hnd Hn _ _ _]. rewrite app_nil_r in Hnd.
  assert (Hsub : ∀ c, c ∈ ordered → c ∈ names)
    by (intros c Hc; apply Hn; by rewrite app_nil_r).
  repeat split; [done..|].
  apply submseteq_length. by apply NoDup_submseteq.
Qed.
End resolver.

(** ** The two iteration orders of the examples *)

Lemma iter_fwd_lists : lists_elements iter_fwd.
Proof. intros s. reflexivity. Qed.

Lemma iter_rev_lists : lists_elements iter_rev.
Proof. intros s. unfold iter_rev. apply reverse_Permutation. Qed.

(** ** Claims about the resolver *)

(** What the generation loop relies on: the order has no repetition, it
    lists the declared tables, and every table comes after the tables it
    references. *)
Lemma toposort_order_facts (set_iter : set_order) (s : Schema)
    (order : list string) :
  lists_elements set_iter →
  validate_schema s = None →
  _toposort_tables set_iter s = Some (inr order) →
  NoDup order
  ∧ order ≡ₚ table_name <$> tables s
  ∧ ∀ l1 c l2 p, order = l1 ++ c :: l2 → (c, p) ∈ dependency_edges s → p ∈ l1.
Proof.
  intros Hiter Hvalid Hrun.
  pose proof (toposort_nodup_names s Hvalid) as Hnd.
  destruct (toposort_cases set_iter Hiter s Hvalid)
    as [(t & _ & Ht)|(indeg & out & indeg' & ordered & Hes & Hg & _ & Hinv & Hres)];
    [congruence|].
  rewrite Hres in Hrun. unfold finish_order in Hrun.
  case_bool_decide as Hlen; [done|]. injection Hrun as ->.
  assert (Hlen' : length order = length (table_name <$> tables s))
    by (destruct (decide (length order = length (table_name <$> tables s))); tauto).
  destruct (ordered_sub_names s _ _ _ Hinv) as (Hond & Hsub & _).
  split; [done|]. split.
  { apply submseteq_length_Permutation; [by apply NoDup_submseteq | lia]. }
  intros l1 c l2 p -> Hedge.
  destruct (valid_edge_names s c p Hvalid Hedge) as [Hc Hp].
  apply (inv_topo _ _ _ _ _ Hinv l1 c l2 p eq_refl).
  apply (add_edges_records _ _ _ _ c p Hnd (init_graph_ok _) Hes Hedge Hc Hp).
Qed.

(** C4.  For a validated schema on which [_toposort_tables] returns an
    order, the order is a permutation of the declared table names, and for
    every dependency edge (child, parent) the parent stands at a strictly
    smaller index than the child. *)
Theorem toposort_permutation_topological (set_iter : set_order) (s : Schema)
    (order : list string) :
  lists_elements set_iter →
  validate_schema s = None →
  _toposort_tables set_iter s = Some (inr order) →
  order ≡ₚ table_name <$> tables s
  ∧ ∀ child parent, (child, parent) ∈ dependency_edges s →
      ∃ i j, order !! i = Some parent ∧ order !! j = Some child ∧ (i < j)%nat.
Proof.
  intros Hiter Hvalid Hrun.
  destruct (toposort_order_facts set_iter s order Hiter Hvalid Hrun)
    as (_ & Hperm & Htopo).
  split; [done|]. intros child parent Hedge.
  assert (Hco : child ∈ order).
  { rewrite Hperm. by apply (valid_edge_names s child parent). }
  apply list_elem_of_split in Hco as (l1 & l2 & ->).
  pose proof (Htopo l1 child l2 parent eq_refl Hedge) as Hpl.
  apply list_elem_of_lookup in Hpl as [i Hi].
  exists i, (length l1). split; [|split].
  - by apply lookup_app_l_Some.
  - by rewrite list_lookup_middle.
  - by apply lookup_lt_Some in Hi.
Qed.

Lemma toposort_permutation_topological_witness :
  ["users"; "orders"] ≡ₚ table_name <$> tables ex_users_orders
  ∧ ∀ child parent, (child, parent) ∈ dependency_edges ex_users_orders →
      ∃ i j, ["users"; "orders"] !! i = Some parent
             ∧ ["users"; "orders"] !! j = Some child ∧ (i < j)%nat.
Proof.
  apply (toposort_permutation_topological iter_fwd ex_users_orders).
  - intros s. reflexivity.
  - reflexivity.
  - reflexivity.
Defined.

(** C2.  Two foreign keys from [x] into [y] raise the indegree of [x] to 2
    while the child set of [y] holds [x] once: the guard of the edge loop
    tests [parent not in out[parent]], which holds for every edge that gets
    that far, instead of [child not in out[parent]].  The queue loop then
    decrements once, [x] is never enqueued, and the resolver reports a cycle
    for a schema that has none. *)
Theorem double_fk_counts_twice :
  validate_schema ex_double_fk = None
  ∧ (∃ indeg out,
       add_edges (init_graph ["y"; "x"]) (dependency_edges ex_double_fk)
       = inr (indeg, out)
       ∧ indeg !!! "x" = 2 ∧ out !!! "y" = ({[ "x" ]} : gset string))
  ∧ _toposort_tables iter_fwd ex_double_fk = Some (inl (CyclicFk ["x"])).
Proof.
  split; [reflexivity|]. split; [|reflexivity].
  eexists _, _. split; [reflexivity|]. split; reflexivity.
Qed.

(** C5.  For a validated schema: when the queue loop ends with fewer tables
    ordered than declared, [_toposort_tables] raises the cycle error, and
    the tables it names are exactly the declared tables that are not in the
    ordered part, at least one.  The three-table cycle A, B, C raises the
    cycle error naming A, B and C.  A schema with a self-referential foreign
    key raises an error and returns no order. *)
Theorem toposort_cycle_errors (set_iter : set_order) (s : Schema) :
  lists_elements set_iter →
  validate_schema s = None →
  (∀ indeg out ordered,
     add_edges (init_graph (table_name <$> tables s)) (dependency_edges s)
     = inr (indeg, out) →
     kahn_loop set_iter out (length (table_name <$> tables s)) indeg
               (filter (λ t, indeg !!! t = 0) (table_name <$> tables s)) []
     = Some ordered →
     (length ordered < length (tables s))%nat →
     ∃ remaining,
       _toposort_tables set_iter s = Some (inl (CyclicFk remaining))
       ∧ remaining ≠ []
       ∧ ∀ t, t ∈ remaining ↔ t ∈ table_name <$> tables s ∧ t ∉ ordered)
  ∧ _toposort_tables set_iter ex_cycle = Some (inl (CyclicFk ["A"; "B"; "C"]))
  ∧ (∀ t, (t, t) ∈ dependency_edges s →
       ∃ t', _toposort_tables set_iter s = Some (inl (SelfReferentialFk t'))
             ∧ ∀ order, _toposort_tables set_iter s ≠ Some (inr order)).
Proof.
  intros Hiter Hvalid. split; [|split].
  - intros indeg out ordered Hes Hloop Hlen.
    exists (filter (λ t, t ∉ ordered) (table_name <$> tables s)).
    unfold _toposort_tables. rewrite Hes, Hloop. simpl. unfold finish_order.
    rewrite length_fmap. rewrite bool_decide_eq_true_2 by lia.
    split; [done|]. split.
    + intros Hnil.
      pose proof (toposort_nodup_names s Hvalid) as Hnd.
      assert (Hsub : table_name <$> tables s ⊆+ ordered).
      { apply NoDup_submseteq; [done|]. intros t Ht.
        destruct (decide (t ∈ ordered)) as [|Hn]; [done|].
        assert (Hin : t ∈ filter (λ t, t ∉ ordered) (table_name <$> tables s))
          by (by apply list_elem_of_filter).
        rewrite Hnil in Hin. inversion Hin. }
      apply submseteq_length in Hsub. rewrite length_fmap in Hsub. lia.
    + intros t. rewrite list_elem_of_filter. tauto.
  - reflexivity.
  - intros t Ht.
    destruct (add_edges_self (dependency_edges s)
                (init_graph (table_name <$> tables s)) t Ht) as [t' Herr].
    exists t'. unfold _toposort_tables. rewrite Herr. split; [done|].
    intros order. discriminate.
Qed.

Lemma toposort_cycle_errors_witness :
  ∃ remaining,
    _toposort_tables iter_fwd ex_cycle = Some (inl (CyclicFk remaining))
    ∧ remaining ≠ []
    ∧ ∀ t, t ∈ remaining ↔ t ∈ table_name <$> tables ex_cycle ∧ t ∉ [].
Proof.
  eapply (proj1 (toposort_cycle_errors iter_fwd ex_cycle
                   (λ s, reflexivity _) eq_refl)).
  - reflexivity.
  - reflexivity.
  - simpl. lia.
Defined.

Example toposort_self_reference :
  _toposort_tables iter_fwd ex_self = Some (inl (SelfReferentialFk "node")).
Proof. reflexivity. Qed.

(** ** The tie-break of the resolver *)

Lemma add_edge_indeg (names : list string) (g g' : Graph)
    (e : string * string) (c : string) :
  graph_ok names g → add_edge g e = inr g' →
  g'.1 !!! c
  = g.1 !!! c + (if bool_decide (e.1 = c ∧ e.1 ∈ names ∧ e.2 ∈ names)
                 then 1 else 0).
Proof.
  intros Hg. destruct g as [indeg out], e as [child parent].
  unfold add_edge; simpl.
  case_bool_decide as Hself; [done|].
  destruct (bool_decide (parent ∉ dom indeg)) eqn:Hp; simpl.
  { intros [= <-]; simpl. apply bool_decide_eq_true in Hp.
    rewrite bool_decide_eq_false_2; [lia|]. intros (_ & _ & Hpn).
    by apply Hp, (g_dom _ _ Hg). }
  destruct (bool_decide (child ∉ dom indeg)) eqn:Hc; simpl.
  { intros [= <-]; simpl. apply bool_decide_eq_true in Hc.
    rewrite bool_decide_eq_false_2; [lia|]. intros (_ & Hcn & _).
    by apply Hc, (g_dom _ _ Hg). }
  apply bool_decide_eq_false in Hp, Hc.
  assert (Hpn : parent ∈ names)
    by (apply (g_dom _ _ Hg); simpl; by destruct (decide (parent ∈ dom indeg))).
  assert (Hcn : child ∈ names)
    by (apply (g_dom _ _ Hg); simpl; by destruct (decide (child ∈ dom indeg))).
  rewrite bool_decide_eq_true_2.
  2:{ intros Hpp. by destruct (g_out _ _ Hg parent parent Hpp) as (_ & _ & ?). }
  intros [= <-]; simpl. destruct (decide (child = c)) as [->|Hne].
  - rewrite lookup_total_insert_eq. by rewrite bool_decide_eq_true_2.
  - rewrite lookup_total_insert_ne by done.
    rewrite bool_decide_eq_false_2; [lia | tauto].
Qed.

Lemma add_edges_indeg_zero (names : list string) (es : list (string * string))
    (g g' : Graph) (c : string) :
  NoDup names → graph_ok names g → add_edges g es = inr g' →
  (∀ e, e ∈ es → e.1 ∈ names ∧ e.2 ∈ names) → 0 ≤ g.1 !!! c →
  (g'.1 !!! c = 0 ↔ g.1 !!! c = 0 ∧ ∀ p, (c, p) ∉ es).
Proof.
  intros Hnd. revert g. induction es as [|e es IH]; intros g Hg; simpl.
  - intros [= <-] _ _. split; [|tauto]. intros ?. split; [done|].
    intros p Hp. inversion Hp.
  - destruct (add_edge g e) as [err|g1] eqn:He; [done|].
    intros Hes Hends Hnn.
    pose proof (add_edge_indeg names g g1 e c Hg He) as Hstep.
    pose proof (add_edge_ok names g g1 e Hnd Hg He) as Hg1.
    destruct (Hends e) as [He1 He2]; [left|].
    rewrite (IH g1 Hg1 Hes); [|intros e' He'; apply Hends; by right|].
    + rewrite Hstep. case_bool_decide as Hb.
      * split; [lia|]. intros [_ Hno]. exfalso. apply (Hno e.2).
        destruct Hb as [<- _]. destruct e; left.
      * split.
        -- intros [H0 Hno]. split; [lia|]. intros p Hp.
           apply elem_of_cons in Hp as [<-|Hp]; [simpl in Hb; tauto|].
           by apply (Hno p).
        -- intros [H0 Hno]. split; [lia|]. intros p Hp. apply (Hno p). by right.
    + rewrite Hstep. case_bool_decide; lia.
Qed.

Lemma NoDup_fmap_inj {A B} (f : A → B) (l : list A) (x y : A) :
  NoDup (f <$> l) → x ∈ l → y ∈ l → f x = f y → x = y.
Proof.
  induction l as [|z l IH]; simpl; intros Hnd Hx Hy Hf; [inversion Hx|].
  apply NoDup_cons in Hnd as [Hz Hnd].
  apply elem_of_cons in Hx as [->|Hx], Hy as [->|Hy]; [done| | |by apply IH].
  - destruct Hz. rewrite Hf. apply list_elem_of_fmap. by exists y.
  - destruct Hz. rewrite <- Hf. apply list_elem_of_fmap. by exists x.
Qed.

Lemma filter_fmap_comm {A B} (f : A → B) (P : B → Prop)
    `{!∀ y, Decision (P y)} (l : list A) :
  filter P (f <$> l) = f <$> filter (λ x, P (f x)) l.
Proof.
  induction l as [|x l IH]; [done|]. rewrite fmap_cons, !filter_cons, IH.
  by destruct (decide (P (f x))).
Qed.

Lemma initial_queue_roots (s : Schema) (indeg : gmap string Z)
    (out : gmap string (gset string)) :
  validate_schema s = None →
  add_edges (init_graph (table_name <$> tables s)) (dependency_edges s)
  = inr (indeg, out) →
  filter (λ t, indeg !!! t = 0) (table_name <$> tables s) = roots s.
Proof.
  intros Hvalid Hes. pose proof (toposort_nodup_names s Hvalid) as Hnd.
  unfold roots. rewrite filter_fmap_comm. f_equal.
  apply filter_ext_in. intros t Ht.
  pose proof (add_edges_indeg_zero _ _ _ _ (table_name t) Hnd
                (init_graph_ok _) Hes) as Hz. simpl in Hz.
  rewrite Hz; clear Hz.
  - split.
    + intros [_ Hno]. unfold foreign_keys.
      destruct (filter _ (columns t)) as [|col l] eqn:Hf; [done|]. exfalso.
      assert (Hcol : col ∈ filter (λ c, foreign_key c ≠ None) (columns t))
        by (rewrite Hf; left).
      apply list_elem_of_filter in Hcol as [Hfk Hcol].
      destruct (foreign_key col) as [fk|] eqn:Hfk'; [|done].
      apply (Hno (ref_table fk)). apply edges_elem. by exists t, col, fk.
    + intros Hnofk. split.
      * rewrite lookup_total_alt, foldl_insert_const_lookup, lookup_empty.
        rewrite decide_True; [done|]. apply list_elem_of_fmap. by exists t.
      * intros p Hp.
        apply edges_elem in Hp as (t' & col & fk & Ht' & Hcol & Hfk & Hn & _).
        assert (t = t') as <- by (by eapply (NoDup_fmap_inj table_name)).
        assert (Hin : col ∈ foreign_keys t).
        { unfold foreign_keys. apply list_elem_of_filter. by rewrite Hfk. }
        rewrite Hnofk in Hin. inversion Hin.
  - intros [c p] He. by apply valid_edge_names.
  - rewrite lookup_total_alt, foldl_insert_const_lookup, lookup_empty.
    case_decide; simpl; lia.
Qed.

(** First in, first out: whatever is queued leaves in queue order, ahead of
    every table that is enqueued later. *)
Lemma kahn_loop_fifo (set_iter : set_order) (out : gmap string (gset string))
    (fuel : nat) (indeg : gmap string Z) (q ordered res : list string) :
  kahn_loop set_iter out fuel indeg q ordered = Some res →
  ∃ rest, res = ordered ++ q ++ rest.
Proof.
  revert indeg q ordered. induction fuel as [|fuel IH]; intros indeg q ordered.
  - destruct q; [|done]. intros [= <-]. exists []. by rewrite !app_nil_r.
  - destruct q as [|t q]; simpl.
    + intros [= <-]. exists []. by rewrite !app_nil_r.
    + destruct (foldl release (indeg, q) (set_iter (out !!! t)))
        as [indeg' q'] eqn:Hfold.
      intros Hres. apply IH in Hres as [rest ->].
      assert (Hq : ∃ new, q' = q ++ new).
      { clear -Hfold. revert indeg q Hfold.
        induction (set_iter (out !!! t)) as [|c l IHl]; intros indeg q; simpl.
        - intros [= _ <-]. exists []. by rewrite app_nil_r.
        - case_bool_decide.
          + intros Hf. apply IHl in Hf as [new ->]. exists (c :: new).
            by rewrite <- app_assoc.
          + apply IHl. }
      destruct Hq as [new ->]. exists (new ++ rest).
      by rewrite <- !app_assoc.
Qed.

(** C6, the part that holds of the code.  For a validated schema the
    initial queue holds the tables without foreign keys in declaration
    order, the queue is first in, first out, and so every order the
    resolver returns begins with those tables in declaration order.  The
    tables released by one parent enter the queue in the iteration order of
    that parent's child set. *)
Theorem toposort_tie_break (set_iter : set_order) (s : Schema)
    (order : list string) :
  lists_elements set_iter →
  validate_schema s = None →
  _toposort_tables set_iter s = Some (inr order) →
  (∃ rest, order = roots s ++ rest)
  ∧ (∀ out fuel indeg t q ordered res,
       kahn_loop set_iter out (S fuel) indeg (t :: q) ordered = Some res →
       ∃ rest,
         res = ordered ++ [t] ++ q
               ++ filter (λ c, indeg !!! c = 1) (set_iter (out !!! t)) ++ rest).
Proof.
  intros Hiter Hvalid Hrun. split.
  - unfold _toposort_tables in Hrun.
    destruct (add_edges _ _) as [err|[indeg out]] eqn:Hes; [done|].
    rewrite (initial_queue_roots s indeg out Hvalid Hes) in Hrun.
    destruct (kahn_loop _ _ _ _ _ _) as [ordered|] eqn:Hloop; [|done].
    simpl in Hrun. unfold finish_order in Hrun.
    case_bool_decide; [done|]. injection Hrun as ->.
    apply kahn_loop_fifo in Hloop as [rest ->]. by exists rest.
  - intros out fuel indeg t q ordered res. simpl.
    rewrite foldl_release by (by apply set_iter_NoDup).
    intros Hres. apply kahn_loop_fifo in Hres as [rest ->].
    exists rest. by rewrite <- !app_assoc.
Qed.

Lemma toposort_tie_break_witness :
  (∃ rest, ["p"; "a"; "b"] = roots ex_fan ++ rest)
  ∧ (∀ out fuel indeg t q ordered res,
       kahn_loop iter_fwd out (S fuel) indeg (t :: q) ordered = Some res →
       ∃ rest,
         res = ordered ++ [t] ++ q
               ++ filter (λ c, indeg !!! c = 1) (iter_fwd (out !!! t)) ++ rest).
Proof.
  apply (toposort_tie_break iter_fwd ex_fan ["p"; "a"; "b"]).
  - intros s. reflexivity.
  - reflexivity.
  - reflexivity.
Defined.

(** C6 fails on the code: the tables [a] and [b] both reference [p], and
    the order in which they follow [p] is the iteration order of the child
    set of [p], so the order is not a function of the schema alone. *)
Lemma toposort_order_follows_set_iteration :
  ¬ (∀ (it1 it2 : set_order) (s : Schema),
       lists_elements it1 → lists_elements it2 → validate_schema s = None →
       _toposort_tables it1 s = _toposort_tables it2 s).
Proof.
  intros H.
  specialize (H iter_fwd iter_rev ex_fan iter_fwd_lists iter_rev_lists eq_refl).
  vm_compute in H. discriminate H.
Qed.

(** C6.  The schema [ex_fan] declares [p], [a], [b], and [a] and [b] both
    reference [p].  [out["p"]] is the set [{"a", "b"}], a hash set of
    strings, and the loop [for child in out[t]] enqueues its elements in
    the order the set yields them: [a] before [b] gives the declaration
    order, [b] before [a] gives [p], [b], [a].  Python fixes neither, the
    hashes of strings change from one interpreter process to the next; so
    the same schema is resolved to different orders, where the claim (and
    the seed that the tool documents as giving deterministic output) has
    the order depend on the schema alone. *)
Example toposort_fan_orders :
  validate_schema ex_fan = None
  ∧ table_name <$> tables ex_fan = ["p"; "a"; "b"]
  ∧ lists_elements iter_fwd ∧ lists_elements iter_rev
  ∧ _toposort_tables iter_fwd ex_fan = Some (inr ["p"; "a"; "b"])
  ∧ _toposort_tables iter_rev ex_fan = Some (inr ["p"; "b"; "a"]).
Proof.
  split_and!; try reflexivity.
  - apply iter_fwd_lists.
  - apply iter_rev_lists.
Qed.

(** ** The generation loop: what a cell can be *)

Lemma uuid_str_nonempty (i : Z) : uuid_str i ≠ "".
Proof.
  unfold uuid_str. destruct (substring 0 8 (hex 32 i)); simpl; discriminate.
Qed.

Lemma pk_like_nonempty (v : Value) : pk_like v → v ≠ VStr "".
Proof.
  intros [[n ->]|[i ->]]; [done|]. intros H.
  apply (uuid_str_nonempty i). congruence.
Qed.

Section cells.
Context (P : Platform) (urandom : nat → Z).

Lemma gen_frame (col : Column) (st : Run P) :
  pk_values P (gen P col st).2 = pk_values P st
  ∧ files P (gen P col st).2 = files P st
  ∧ unique_tracker_by_table P (gen P col st).2 = unique_tracker_by_table P st.
Proof.
  unfold gen. destruct (called_provider P col).
  - by destruct (fake_call P s (fake P st)).
  - unfold by_type. destruct (col_type col).
    + by destruct (rng_below P 10000000 (rng P st)).
    + by destruct (fake_word P (fake P st)).
    + by destruct (rng_random P (rng P st)).
    + by destruct (rng_bit P (rng P st)).
    + by destruct (fake_date_object P (fake P st)).
    + by destruct (fake_date_time P (fake P st)).
Qed.

Lemma unique_attempts_frame (n : nat) (table : string) (col : Column)
    (st st' : Run P) (v : Value) :
  unique_attempts P n table col st = inr (v, st') →
  pk_values P st' = pk_values P st ∧ files P st' = files P st.
Proof.
  revert st. induction n as [|n IH]; intros st; simpl; [done|].
  pose proof (gen_frame col st) as (Hpk & Hf & _).
  destruct (gen P col st) as [w st1]; simpl in *.
  destruct (py_in w _).
  - intros H. apply IH in H as [-> ->]. done.
  - intros [= <- <-]. done.
Qed.

Lemma generate_scalar_frame (table : string) (col : Column) (st st' : Run P)
    (v : Value) :
  _generate_scalar P table col st = inr (v, st') →
  pk_values P st' = pk_values P st ∧ files P st' = files P st.
Proof.
  unfold _generate_scalar. destruct (unique col).
  - intros H. by apply unique_attempts_frame in H as [-> ->].
  - pose proof (gen_frame col st) as (Hpk & Hf & _).
    destruct (gen P col st) as [w st1]. by intros [= <- <-].
Qed.

Lemma choice_elem (candidates : list Value) (st st' : Run P) (v : Value) :
  choice P candidates st = inr (v, st') →
  v ∈ candidates ∧ pk_values P st' = pk_values P st
  ∧ files P st' = files P st.
Proof.
  unfold choice. destruct (rng_below P _ _) as [r g].
  destruct (candidates !! Z.to_nat r) as [w|] eqn:Hw; [|done].
  intros [= <- <-]. split; [|done]. apply list_elem_of_lookup. by eexists.
Qed.

(** With a non-empty pool [random.choice] returns: the index drawn is
    within the pool. *)
Lemma choice_returns (candidates : list Value) (st : Run P) :
  candidates ≠ [] → ∃ v st', choice P candidates st = inr (v, st').
Proof.
  intros Hne. unfold choice.
  pose proof (rng_below_range P (Z.of_nat (length candidates)) (rng P st)) as Hr.
  destruct (rng_below P _ _) as [r g]. simpl in Hr.
  assert (Hlen : (0 < length candidates)%nat)
    by (destruct candidates; [done | simpl; lia]).
  destruct (lookup_lt_is_Some_2 candidates (Z.to_nat r)) as [w Hw]; [lia|].
  rewrite Hw. by eexists _, _.
Qed.

Lemma pk_generator_like (col : Column) (i : nat) (st : Run P) :
  pk_like (_pk_generator P urandom col i st).1
  ∧ pk_values P (_pk_generator P urandom col i st).2 = pk_values P st
  ∧ files P (_pk_generator P urandom col i st).2 = files P st.
Proof.
  unfold _pk_generator. destruct (decide (col_type col = TInt)); simpl.
  - split; [left; by eexists | done].
  - split; [right; by eexists | done].
Qed.

Lemma gen_cell_ok (table : string) (i : nat) (c : Column) (st st' : Run P)
    (v : Value) :
  gen_cell P urandom table i c st = inr (v, st') →
  cell_ok (pk_values P st) c v
  ∧ pk_values P st' = pk_values P st ∧ files P st' = files P st.
Proof.
  unfold gen_cell, cell_ok. destruct (primary_key c).
  - pose proof (pk_generator_like c i st) as Hpk.
    destruct (_pk_generator P urandom c i st) as [w st1]. by intros [= <- <-].
  - destruct (foreign_key c) as [fk|].
    + case_bool_decide; [done|]. apply choice_elem.
    + destruct (nullable c).
      * destruct (rng_random P (rng P st)) as [k g].
        destruct (below_5_percent k); [by intros [= <- <-]|].
        intros H. by apply generate_scalar_frame in H as [-> ->].
      * intros H. by apply generate_scalar_frame in H as [-> ->].
Qed.

Lemma unique_attempts_error (n : nat) (table : string) (col : Column)
    (st : Run P) (e : ScriptError) :
  unique_attempts P n table col st = inl e →
  e = UniquenessExhausted (col_name col).
Proof.
  revert st. induction n as [|n IH]; intros st; simpl; [by intros [= <-]|].
  destruct (gen P col st) as [w st1]. destruct (py_in w _); [apply IH | done].
Qed.

Lemma gen_cell_error (table : string) (i : nat) (c : Column) (st : Run P)
    (e : ScriptError) :
  gen_cell P urandom table i c st = inl e → cell_error_ok (pk_values P st) c e.
Proof.
  unfold gen_cell, cell_error_ok. destruct (primary_key c); [done|].
  destruct (foreign_key c) as [fk|].
  - case_bool_decide as Hc.
    + intros [= <-]. right. by exists fk, table.
    + intros H. destruct (choice_returns _ st Hc) as (v & st' & Hv). congruence.
  - assert (Hs : ∀ st1, _generate_scalar P table c st1 = inl e →
                 e = UniquenessExhausted (col_name c)).
    { intros st1. unfold _generate_scalar. destruct (unique c); [|done].
      apply unique_attempts_error. }
    destruct (nullable c).
    + destruct (rng_random P (rng P st)) as [k g].
      destruct (below_5_percent k); [done|].
      intros H. left. eexists. by eapply Hs.
    + intros H. left. eexists. by eapply Hs.
Qed.

End cells.

(** ** The generation loop: rows and tables *)

Lemma pools_grow_refl (pkv : gmap string (list Value)) : pools_grow pkv pkv.
Proof. intros n l Hl. exists []. by rewrite app_nil_r. Qed.

Lemma pools_grow_trans (a b c : gmap string (list Value)) :
  pools_grow a b → pools_grow b c → pools_grow a c.
Proof.
  intros Hab Hbc n l Hl. destruct (Hab n l Hl) as [l1 H1].
  destruct (Hbc n _ H1) as [l2 H2]. exists (l1 ++ l2). by rewrite app_assoc.
Qed.

Lemma pools_grow_append (pkv : gmap string (list Value)) (n : string)
    (v : Value) :
  pools_grow pkv (<[n := default [] (pkv !! n) ++ [v]]> pkv).
Proof.
  intros m l Hl. destruct (decide (n = m)) as [->|Hne].
  - rewrite lookup_insert_eq, Hl. simpl. by eexists.
  - rewrite lookup_insert_ne by done. exists []. by rewrite app_nil_r.
Qed.

Lemma pools_grow_elem (pkv pkv' : gmap string (list Value)) (n : string)
    (v : Value) :
  pools_grow pkv pkv' → v ∈ default [] (pkv !! n) → v ∈ default [] (pkv' !! n).
Proof.
  intros Hg. destruct (pkv !! n) as [l|] eqn:Hl; simpl; [|by inversion 1].
  destruct (Hg n l Hl) as [l' ->]. simpl. intros ?. apply elem_of_app. by left.
Qed.

Lemma cell_ok_grow (pkv pkv' : gmap string (list Value)) (c : Column)
    (v : Value) :
  pools_grow pkv pkv' → cell_ok pkv c v → cell_ok pkv' c v.
Proof.
  intros Hg. unfold cell_ok. destruct (primary_key c); [done|].
  destruct (foreign_key c); [|done]. by apply pools_grow_elem.
Qed.

Lemma row_ok_grow (pkv pkv' : gmap string (list Value)) (cols : list Column)
    (cells : list Value) :
  pools_grow pkv pkv' → row_ok pkv cols cells → row_ok pkv' cols cells.
Proof.
  intros Hg Hrow j c Hc. destruct (Hrow j c Hc) as (w & Hw & Hok).
  exists w. split; [done|]. by eapply cell_ok_grow.
Qed.

Section rows.
Context (P : Platform) (urandom : nat → Z).

Lemma gen_row_ok (table : string) (i : nat) (cols : list Column)
    (row row' : gmap string Value) (st st' : Run P) :
  NoDup (col_name <$> cols) →
  gen_row P urandom table i cols row st = inr (row', st') →
  pk_values P st' = pk_values P st ∧ files P st' = files P st
  ∧ (∀ c, c ∈ cols →
       ∃ v, row' !! col_name c = Some v ∧ cell_ok (pk_values P st) c v)
  ∧ (∀ n, n ∉ col_name <$> cols → row' !! n = row !! n).
Proof.
  revert row st. induction cols as [|c cols IH]; intros row st Hnd; simpl.
  - intros [= <- <-]. split_and!; [done..| |done]. intros c Hc. inversion Hc.
  - rewrite fmap_cons in Hnd. apply NoDup_cons in Hnd as [Hc Hnd].
    destruct (gen_cell P urandom table i c st) as [e|[v st1]] eqn:Hcell; [done|].
    apply gen_cell_ok in Hcell as (Hok & Hpk & Hf).
    intros Hrow. apply IH in Hrow as (Hpk' & Hf' & Hcells & Hrest); [|done].
    rewrite Hpk in Hpk'. rewrite Hf in Hf'. split_and!; [done..| |].
    + intros c' Hc'. apply elem_of_cons in Hc' as [->|Hc'].
      * exists v. rewrite Hrest by done. by rewrite lookup_insert_eq.
      * destruct (Hcells c' Hc') as (w & Hw & Hokw). exists w.
        split; [done|]. by rewrite <- Hpk.
    + intros n Hn. rewrite Hrest.
      * rewrite lookup_insert_ne; [done|]. intros Heq. apply Hn.
        rewrite <- Heq. left.
      * intros Hn'. apply Hn. by right.
Qed.

Lemma gen_row_error (table : string) (i : nat) (cols : list Column)
    (row : gmap string Value) (st : Run P) (e : ScriptError) :
  gen_row P urandom table i cols row st = inl e →
  ∃ c, c ∈ cols ∧ cell_error_ok (pk_values P st) c e.
Proof.
  revert row st. induction cols as [|c cols IH]; intros row st; simpl; [done|].
  destruct (gen_cell P urandom table i c st) as [e'|[v st1]] eqn:Hcell.
  - intros [= <-]. exists c. split; [left|]. by eapply gen_cell_error.
  - apply gen_cell_ok in Hcell as (_ & Hpk & _). intros Hrow.
    apply IH in Hrow as (c' & Hc' & Herr). exists c'. split; [by right|].
    by rewrite <- Hpk.
Qed.

(** One more row: the file gains the cells, the pool gains the primary
    key, nothing else changes. *)
Lemma write_row_ok (table : string) (cols : list Column) (pk_col : Column)
    (i : nat) (st st' : Run P) (rs : list (list Value)) :
  NoDup (col_name <$> cols) → pk_col ∈ cols →
  files P st !! table = Some {| fieldnames := col_name <$> cols; rows := rs |} →
  write_row P urandom table cols pk_col i st = inr st' →
  ∃ cells v,
    files P st'
    = <[table := {| fieldnames := col_name <$> cols; rows := rs ++ [cells] |}]>
        (files P st)
    ∧ pk_values P st'
      = <[table := default [] (pk_values P st !! table) ++ [v]]> (pk_values P st)
    ∧ row_ok (pk_values P st) cols cells
    ∧ pk_of cols pk_col cells v.
Proof.
  intros Hnd Hpk Hfile. unfold write_row.
  destruct (gen_row P urandom table i cols ∅ st) as [e|[row st1]] eqn:Hrow;
    [done|].
  apply gen_row_ok in Hrow as (Hpkv & Hf & Hcells & _); [|done].
  unfold writerow. rewrite Hf, Hfile. simpl.
  destruct (Hcells pk_col Hpk) as (v & Hv & _). rewrite Hv.
  intros [= <-]. simpl. rewrite Hpkv.
  exists ((λ n, default (VStr "") (row !! n)) <$> (col_name <$> cols)), v.
  assert (Hcell : ∀ j c, cols !! j = Some c →
            ∃ w, ((λ n, default (VStr "") (row !! n)) <$> (col_name <$> cols))
                   !! j = Some w
                 ∧ row !! col_name c = Some w ∧ cell_ok (pk_values P st) c w).
  { intros j c Hc. assert (Hin : c ∈ cols) by (apply list_elem_of_lookup; eauto).
    destruct (Hcells c Hin) as (w & Hw & Hok). exists w.
    rewrite !list_lookup_fmap, Hc. simpl. by rewrite Hw. }
  split_and!; [done..| |].
  - intros j c Hc. destruct (Hcell j c Hc) as (w & Hw & _ & Hok). by exists w.
  - apply list_elem_of_lookup in Hpk as [j Hj]. exists j. split; [done|].
    destruct (Hcell j pk_col Hj) as (w & Hw & Hw' & _). congruence.
Qed.

Lemma write_row_error (table : string) (cols : list Column) (pk_col : Column)
    (i : nat) (st : Run P) (e : ScriptError) :
  write_row P urandom table cols pk_col i st = inl e →
  (∃ c, c ∈ cols ∧ cell_error_ok (pk_values P st) c e)
  ∨ e = KeyError (col_name pk_col).
Proof.
  unfold write_row.
  destruct (gen_row P urandom table i cols ∅ st) as [e'|[row st1]] eqn:Hrow.
  - intros [= <-]. left. by eapply gen_row_error.
  - destruct (row !! col_name pk_col); [done|]. intros [= <-]. by right.
Qed.

End rows.

Section tables.
Context (P : Platform) (urandom : nat → Z).

Lemma write_row_grow (table : string) (cols : list Column) (pk_col : Column)
    (i : nat) (st st' : Run P) :
  write_row P urandom table cols pk_col i st = inr st' →
  pools_grow (pk_values P st) (pk_values P st').
Proof.
  unfold write_row.
  destruct (gen_row P urandom table i cols ∅ st) as [e|[row st1]] eqn:Hrow;
    [done|].
  assert (Hpk : pk_values P st1 = pk_values P st).
  { clear -Hrow. revert Hrow. generalize (∅ : gmap string Value).
    revert st. induction cols as [|c cols IH]; intros st row0; simpl.
    - by intros [= _ <-].
    - destruct (gen_cell P urandom table i c st) as [e|[v st2]] eqn:Hc; [done|].
      apply gen_cell_ok in Hc as (_ & Hpk & _). intros H.
      apply IH in H. congruence. }
  destruct (row !! col_name pk_col) as [v|]; [|done]. intros [= <-]. simpl.
  assert (Hw : pk_values P (writerow P table row st1) = pk_values P st).
  { unfold writerow. by destruct (files P st1 !! table). }
  rewrite Hw. apply pools_grow_append.
Qed.

Lemma rows_loop_ok (table : string) (cols : list Column) (pk_col : Column)
    (idxs : list nat) (st0 st st' : Run P) (k : nat) :
  NoDup (col_name <$> cols) → pk_col ∈ cols →
  table_inv P table cols pk_col st0 st k →
  for_each (write_row P urandom table cols pk_col) idxs st = inr st' →
  table_inv P table cols pk_col st0 st' (k + length idxs).
Proof.
  intros Hnd Hpk. revert st k.
  induction idxs as [|i idxs IH]; intros st k Hinv; simpl.
  - intros [= <-]. by rewrite Nat.add_0_r.
  - destruct (write_row P urandom table cols pk_col i st) as [e|st1] eqn:Hw;
      [done|].
    intros Hloop. replace (k + S (length idxs))%nat
      with (S k + length idxs)%nat by lia.
    apply (IH st1); [|done]. clear IH Hloop.
    destruct Hinv as [(rs & pool & Hfile & Hpool & Hlen & Hal & Hrows) Hf Hp].
    destruct (write_row_ok P urandom table cols pk_col i st st1 rs
                Hnd Hpk Hfile Hw) as (cells & v & Hf1 & Hp1 & Hrow & Hpkof).
    rewrite Hpool in Hp1. simpl in Hp1.
    assert (Hgrow : pools_grow (pk_values P st) (pk_values P st1)).
    { rewrite Hp1. pose proof (pools_grow_append (pk_values P st) table v) as Hg.
      by rewrite Hpool in Hg. }
    split.
    + exists (rs ++ [cells]), (pool ++ [v]). split_and!.
      * by rewrite Hf1, lookup_insert_eq.
      * by rewrite Hp1, lookup_insert_eq.
      * rewrite length_app. simpl. lia.
      * apply Forall2_app; [done|]. by constructor.
      * apply Forall_app. split.
        -- eapply Forall_impl; [done|]. intros r Hr. by eapply row_ok_grow.
        -- constructor; [|constructor]. by eapply row_ok_grow.
    + intros n Hn. rewrite Hf1, lookup_insert_ne by done. by apply Hf.
    + intros n Hn. rewrite Hp1, lookup_insert_ne by done. by apply Hp.
Qed.

Lemma parents_ready_grow (pkv pkv' : gmap string (list Value))
    (cols : list Column) :
  pools_grow pkv pkv' → parents_ready pkv cols → parents_ready pkv' cols.
Proof.
  intros Hg Hr c fk Hc Hfk. specialize (Hr c fk Hc Hfk).
  destruct (pkv !! ref_table fk) as [l|] eqn:Hl; [|done].
  destruct (Hg _ _ Hl) as [l' ->]. simpl in *. by destruct l.
Qed.

Lemma rows_loop_error (table : string) (cols : list Column) (pk_col : Column)
    (idxs : list nat) (st : Run P) (e : ScriptError) :
  parents_ready (pk_values P st) cols →
  for_each (write_row P urandom table cols pk_col) idxs st = inl e →
  ∀ t c p, e ≠ MissingParentRows t c p.
Proof.
  revert st. induction idxs as [|i idxs IH]; intros st Hready; simpl; [done|].
  destruct (write_row P urandom table cols pk_col i st) as [e'|st1] eqn:Hw.
  - intros [= <-] t c p ->.
    apply write_row_error in Hw as [(c' & Hc' & [[key ?]|Hmiss])|?]; [done| |done].
    destruct Hmiss as (fk & t' & _ & Hfk & Hempty & _).
    by apply (Hready c' fk).
  - apply IH. eapply parents_ready_grow; [|done]. by eapply write_row_grow.
Qed.

End tables.

(** ** Validated schemas, continued *)

Lemma valid_table (s : Schema) (t : Table) :
  validate_schema s = None → t ∈ tables s → validate_table t = None.
Proof.
  unfold validate_schema.
  destruct (first_error validate_table (tables s)) eqn:Hf; [done|].
  intros _ Ht. by eapply first_error_None.
Qed.

Lemma valid_columns_nodup (s : Schema) (t : Table) :
  validate_schema s = None → t ∈ tables s → NoDup (col_name <$> columns t).
Proof.
  intros Hv Ht. pose proof (valid_table s t Hv Ht) as Hvt.
  unfold validate_table in Hvt. destruct (first_error _ _); [done|].
  case_bool_decide; [done|].
  destruct (has_duplicates _) eqn:Hd; [done|]. by apply has_duplicates_false.
Qed.

Lemma table_by_name_keeps (ts : list Table) (m : gmap string Table)
    (n : string) :
  is_Some (m !! n) →
  is_Some (foldl (λ m t, <[table_name t := t]> m) m ts !! n).
Proof.
  revert m. induction ts as [|t ts IH]; intros m Hm; simpl; [done|].
  apply IH. destruct (decide (table_name t = n)) as [<-|Hne].
  - rewrite lookup_insert_eq. by eexists.
  - by rewrite lookup_insert_ne.
Qed.

Lemma table_by_name_Some (ts : list Table) (t : Table) :
  NoDup (table_name <$> ts) → t ∈ ts →
  table_by_name ts !! table_name t = Some t.
Proof.
  intros Hnd Ht.
  assert (Hsome : ∀ m : gmap string Table,
            is_Some (foldl (λ m t, <[table_name t := t]> m) m ts
                       !! table_name t)).
  { clear Hnd. induction ts as [|t' ts IH]; intros m; [inversion Ht|]. simpl.
    apply elem_of_cons in Ht as [->|Ht]; [|by apply IH].
    apply table_by_name_keeps. rewrite lookup_insert_eq. by eexists. }
  destruct (Hsome ∅) as [t' Ht']. unfold table_by_name. rewrite Ht'.
  apply table_by_name_lookup in Ht' as [[Hin Hn]|Hm]; [|by rewrite lookup_empty in Hm].
  f_equal. by eapply (NoDup_fmap_inj table_name).
Qed.

Lemma filter_singleton_elem {A} (P : A → Prop) `{!∀ x, Decision (P x)}
    (l : list A) (x : A) :
  filter P l = [x] → x ∈ l ∧ P x.
Proof.
  intros Hf. assert (Hx : x ∈ filter P l) by (rewrite Hf; left).
  apply list_elem_of_filter in Hx. tauto.
Qed.

(** ** The generation loop: the whole run *)

Section run.
Context (P : Platform) (urandom : nat → Z) (script : Script).
Context (Hcols : ∀ t, t ∈ tables (SCHEMA script) →
                      NoDup (col_name <$> columns t)).

Lemma run_inv_init : run_inv P script [] (init_run P (SEED script)).
Proof. split; [done|]. intros n Hn. inversion Hn. Qed.

Lemma gen_table_ok (finished : list string) (table : string) (st st' : Run P) :
  run_inv P script finished st → table ∉ finished →
  gen_table P urandom script table st = inr st' →
  run_inv P script (finished ++ [table]) st'.
Proof.
  intros [Hfresh Hdone] Hnew. unfold gen_table.
  destruct (table_by_name _ !! table) as [t|] eqn:Ht; [|done].
  apply table_by_name_lookup in Ht as [[Ht Hn]|Hm];
    [|by rewrite lookup_empty in Hm].
  destruct (filter _ (columns t)) as [|pk_col [|]] eqn:Hpk; [done| |done].
  apply filter_singleton_elem in Hpk as [Hpk_in Hpk_true].
  destruct (Hfresh table Hnew) as [Hp0 Hf0].
  set (st0 := with_pk_values P _ _). intros Hloop.
  assert (Hpool0 : pk_values P st0 = <[table := []]> (pk_values P st)).
  { unfold st0. simpl. unfold setdefault. by rewrite Hp0. }
  assert (Hfiles0 : files P st0
            = <[table := {| fieldnames := col_name <$> columns t; rows := [] |}]>
                (files P st)) by done.
  assert (Hinv0 : table_inv P table (columns t) pk_col st0 st0 0).
  { split; [|done..]. exists [], []. split_and!; [..|done|constructor|constructor].
    - by rewrite Hfiles0, lookup_insert_eq.
    - by rewrite Hpool0, lookup_insert_eq. }
  pose proof (rows_loop_ok P urandom table (columns t) pk_col _ st0 st0 st' 0
                (Hcols t Ht) Hpk_in Hinv0 Hloop) as [Htab Hf Hp].
  rewrite length_seq in Htab. simpl in Htab.
  assert (Hgrow : pools_grow (pk_values P st) (pk_values P st')).
  { intros n l Hl. exists []. rewrite app_nil_r.
    assert (n ≠ table) by (intros ->; congruence).
    rewrite Hp, Hpool0, lookup_insert_ne by done. done. }
  split.
  - intros n Hnn.
    assert (n ≠ table) by (intros ->; apply Hnn, elem_of_app; right; left).
    assert (n ∉ finished) by (intros ?; apply Hnn, elem_of_app; by left).
    rewrite Hp, Hf, Hpool0, Hfiles0, !lookup_insert_ne by done.
    by apply Hfresh.
  - intros n Hnn. apply elem_of_app in Hnn as [Hnn|Hnn].
    + assert (n ≠ table) by (intros ->; done).
      destruct (Hdone n Hnn)
        as (t' & pk' & rs & pool & ? & ? & ? & ? & Hfl & Hpl & ? & ? & Hrows).
      exists t', pk', rs, pool. split_and!; try done.
      * by rewrite Hf, Hfiles0, lookup_insert_ne.
      * by rewrite Hp, Hpool0, lookup_insert_ne.
      * eapply Forall_impl; [done|]. intros r Hr. by eapply row_ok_grow.
    + apply list_elem_of_singleton in Hnn as ->.
      destruct Htab as (rs & pool & ? & ? & ? & ? & ?).
      exists t, pk_col, rs, pool. split_and!; done.
Qed.

Lemma generate_inv (rest finished : list string) (st st' : Run P) :
  NoDup (finished ++ rest) → run_inv P script finished st →
  for_each (gen_table P urandom script) rest st = inr st' →
  run_inv P script (finished ++ rest) st'.
Proof.
  revert finished st. induction rest as [|table rest IH]; intros finished st.
  - simpl. intros _ Hinv [= <-]. by rewrite app_nil_r.
  - simpl. intros Hnd Hinv.
    destruct (gen_table P urandom script table st) as [e|st1] eqn:Ht; [done|].
    intros Hloop. replace (finished ++ table :: rest)
      with ((finished ++ [table]) ++ rest) in * by (by rewrite <- app_assoc).
    apply (IH _ st1); [done| |done].
    apply gen_table_ok with (st := st); [done| |done].
    apply NoDup_app in Hnd as (Hnd & _ & _).
    apply NoDup_app in Hnd as (_ & Hd & _). intros Hin. apply (Hd _ Hin). left.
Qed.

(** A foreign key is never sampled from an empty pool when every table
    comes after the tables it references and a table has at least one row. *)
Lemma gen_table_error (finished : list string) (table : string) (st : Run P)
    (e : ScriptError) :
  (0 < ROWS_PER_TABLE script) →
  run_inv P script finished st → table ∉ finished →
  (∀ p, (table, p) ∈ dependency_edges (SCHEMA script) → p ∈ finished) →
  gen_table P urandom script table st = inl e →
  ∀ t c p, e ≠ MissingParentRows t c p.
Proof.
  intros Hrows [Hfresh Hdone] Hnew Hparents. unfold gen_table.
  destruct (table_by_name _ !! table) as [t|] eqn:Ht; [|by intros [= <-]].
  apply table_by_name_lookup in Ht as [[Ht Hn]|Hm];
    [|by rewrite lookup_empty in Hm].
  destruct (filter _ (columns t)) as [|pk_col [|]] eqn:Hpk;
    [by intros [= <-]| |by intros [= <-]].
  destruct (Hfresh table Hnew) as [Hp0 Hf0].
  apply rows_loop_error. simpl. unfold setdefault. rewrite Hp0.
  intros c fk Hc Hfk.
  assert (Hp : ref_table fk ∈ finished).
  { apply Hparents. apply edges_elem. by exists t, c, fk. }
  destruct (Hdone _ Hp) as (t' & pk' & rs & pool & _ & _ & _ & _ & _ & Hpl & Hlen & Hal & _).
  assert (ref_table fk ≠ table) by (intros Heq; rewrite Heq in Hp; done).
  rewrite lookup_insert_ne, Hpl by done. simpl.
  apply Forall2_length in Hal. destruct pool; [simpl in Hal; lia | done].
Qed.

Lemma generate_error (rest finished : list string) (st : Run P)
    (e : ScriptError) :
  (0 < ROWS_PER_TABLE script) →
  NoDup (finished ++ rest) → run_inv P script finished st →
  (∀ l1 c l2 p, finished ++ rest = l1 ++ c :: l2 →
                (c, p) ∈ dependency_edges (SCHEMA script) → p ∈ l1) →
  for_each (gen_table P urandom script) rest st = inl e →
  ∀ t c p, e ≠ MissingParentRows t c p.
Proof.
  intros Hrows. revert finished st.
  induction rest as [|table rest IH]; intros finished st; [done|].
  simpl. intros Hnd Hinv Htopo.
  assert (Hnew : table ∉ finished).
  { apply NoDup_app in Hnd as (_ & Hd & _). intros Hin. apply (Hd _ Hin). left. }
  destruct (gen_table P urandom script table st) as [e'|st1] eqn:Ht.
  - intros [= <-]. eapply gen_table_error; [done..| |done].
    intros p Hp. by apply (Htopo finished table rest p).
  - replace (finished ++ table :: rest)
      with ((finished ++ [table]) ++ rest) in * by (by rewrite <- app_assoc).
    apply (IH (finished ++ [table]) st1); [done| |done].
    by apply gen_table_ok with (st := st).
Qed.

End run.

(** ** The emitted script *)

Lemma valid_fk_not_pk (s : Schema) (t : Table) (c : Column) (fk : ForeignKey) :
  validate_schema s = None → t ∈ tables s → c ∈ columns t →
  foreign_key c = Some fk → primary_key c = false.
Proof.
  intros Hv Ht Hc Hfk. pose proof (valid_table s t Hv Ht) as Hvt.
  unfold validate_table in Hvt.
  destruct (first_error validate_column (columns t)) eqn:Hf; [done|].
  pose proof (first_error_None _ _ c Hf Hc) as Hvc.
  unfold validate_column in Hvc. rewrite Hfk in Hvc.
  destruct (primary_key c); [|done]. simpl in Hvc. done.
Qed.

Lemma emitted_script_facts (set_iter : set_order) (s : Schema)
    (rows_per_table seed : Z) (script : Script) :
  lists_elements set_iter →
  validate_schema s = None →
  generate_faker_python_script set_iter s rows_per_table seed
  = Some (inr script) →
  SCHEMA script = s ∧ ROWS_PER_TABLE script = rows_per_table
  ∧ SEED script = seed ∧ 0 < rows_per_table
  ∧ NoDup (TABLE_ORDER script)
  ∧ TABLE_ORDER script ≡ₚ table_name <$> tables s
  ∧ ∀ l1 c l2 p, TABLE_ORDER script = l1 ++ c :: l2 →
                 (c, p) ∈ dependency_edges s → p ∈ l1.
Proof.
  intros Hiter Hvalid. unfold generate_faker_python_script.
  case_bool_decide as Hrows; [done|].
  destruct (_toposort_tables set_iter s) as [[err|order]|] eqn:Hsort; [done| |done].
  intros [= <-]. simpl.
  destruct (toposort_order_facts set_iter s order Hiter Hvalid Hsort)
    as (Hnd & Hperm & Htopo).
  split_and!; [done..|lia|done|done|done].
Qed.

Lemma run_inv_fk_cell (P : Platform) (s : Schema) (script : Script)
    (st : Run P) (t : Table) (f : File) (cells : list Value) (j : nat)
    (c : Column) (fk : ForeignKey) :
  validate_schema s = None → SCHEMA script = s →
  run_inv P script (TABLE_ORDER script) st →
  t ∈ tables s → files P st !! table_name t = Some f → cells ∈ rows f →
  columns t !! j = Some c → foreign_key c = Some fk →
  ∃ v, cells !! j = Some v
       ∧ v ∈ default [] (pk_values P st !! ref_table fk)
       ∧ in_parent_pk s (files P st) (ref_table fk) v
       ∧ pk_like v.
Proof.
  intros Hvalid <- [Hfresh Hdone] Ht Hf Hcells Hc Hfk.
  pose proof (toposort_nodup_names _ Hvalid) as Hnd.
  assert (Hin : table_name t ∈ TABLE_ORDER script).
  { destruct (decide (table_name t ∈ TABLE_ORDER script)) as [|Hn]; [done|].
    destruct (Hfresh _ Hn) as [_ Hnone]. congruence. }
  destruct (Hdone _ Hin)
    as (t' & pk' & rs & pool & Ht' & Hn' & _ & _ & Hfl & _ & _ & _ & Hrows).
  assert (t' = t) as -> by (by eapply (NoDup_fmap_inj table_name)).
  rewrite Hf in Hfl. injection Hfl as ->. simpl in Hcells.
  rewrite Forall_forall in Hrows.
  destruct (Hrows cells Hcells j c Hc) as (v & Hv & Hok).
  exists v. split; [done|]. unfold cell_ok in Hok.
  assert (Hcin : c ∈ columns t) by (apply list_elem_of_lookup; eauto).
  rewrite (valid_fk_not_pk _ t c fk Hvalid Ht Hcin Hfk), Hfk in Hok.
  split; [done|].
  destruct (pk_values P st !! ref_table fk) as [ppool|] eqn:Hpp;
    [|by inversion Hok].
  simpl in Hok.
  assert (Hpin : ref_table fk ∈ TABLE_ORDER script).
  { destruct (decide (ref_table fk ∈ TABLE_ORDER script)) as [|Hn]; [done|].
    destruct (Hfresh _ Hn) as [Hnone _]. congruence. }
  destruct (Hdone _ Hpin)
    as (pt & pc & prs & ppool' & Hpt & Hpn & Hpc & Hpk & Hpf & Hpl & _ & Hal & Hprows).
  rewrite Hpp in Hpl. injection Hpl as <-.
  apply list_elem_of_lookup in Hok as [k Hk].
  destruct (Forall2_lookup_r _ _ _ _ _ Hal Hk) as (pcells & Hpcells & (pj & Hpj & Hpv)).
  assert (Hpcin : pcells ∈ prs) by (apply list_elem_of_lookup; eauto).
  split.
  - exists pt, {| fieldnames := col_name <$> columns pt; rows := prs |},
           pj, pc, pcells. split_and!; done.
  - rewrite Forall_forall in Hprows.
    destruct (Hprows pcells Hpcin pj pc Hpj) as (w & Hw & Hokw).
    unfold cell_ok in Hokw. rewrite Hpk in Hokw. congruence.
Qed.

Lemma generate_run_inv (P : Platform) (urandom : nat → Z)
    (set_iter : set_order) (s : Schema) (rows_per_table seed : Z)
    (script : Script) (finished rest : list string) (st : Run P) :
  lists_elements set_iter →
  validate_schema s = None →
  generate_faker_python_script set_iter s rows_per_table seed
  = Some (inr script) →
  TABLE_ORDER script = finished ++ rest →
  for_each (gen_table P urandom script) finished (init_run P (SEED script))
  = inr st →
  run_inv P script finished st.
Proof.
  intros Hiter Hvalid Hemit Horder Hrun.
  destruct (emitted_script_facts _ _ _ _ _ Hiter Hvalid Hemit)
    as (Hs & _ & _ & _ & Hnd & _ & _).
  rewrite Horder in Hnd. apply NoDup_app in Hnd as (Hnd & _ & _).
  assert (Hcols : ∀ t, t ∈ tables (SCHEMA script) →
                       NoDup (col_name <$> columns t)).
  { rewrite Hs. intros t Ht. by eapply valid_columns_nodup. }
  exact (generate_inv P urandom script Hcols finished [] _ st Hnd
           (run_inv_init P script) Hrun).
Qed.

(** ** Claims about the generated rows *)

(** C1.  For a validated schema and [rows_per_table >= 1] (the emission
    succeeds), when the run of the emitted [generate] produces its files,
    every value written to a foreign-key column of a table is an element of
    the primary-key column written for the referenced parent table. *)
Theorem generate_referential_integrity (P : Platform) (urandom : nat → Z)
    (set_iter : set_order) (s : Schema) (rows_per_table seed : Z)
    (script : Script) (st : Run P) :
  lists_elements set_iter →
  validate_schema s = None →
  1 ≤ rows_per_table →
  generate_faker_python_script set_iter s rows_per_table seed
  = Some (inr script) →
  generate P urandom script = inr st →
  referential_integrity s (files P st).
Proof.
  intros Hiter Hvalid _ Hemit Hrun t f cells j c fk Ht Hf Hcells Hc Hfk.
  destruct (emitted_script_facts _ _ _ _ _ Hiter Hvalid Hemit) as (Hs & _).
  assert (Hinv : run_inv P script (TABLE_ORDER script) st).
  { eapply generate_run_inv with (rest := []); [done..| |done].
    by rewrite app_nil_r. }
  destruct (run_inv_fk_cell P s script st t f cells j c fk
              Hvalid Hs Hinv Ht Hf Hcells Hc Hfk) as (v & Hv & _ & Hpar & _).
  by exists v.
Qed.

Lemma ex_script_returns :
  returned (generate toy_platform ex_urandom ex_script) = true.
Proof. vm_compute. reflexivity. Qed.

Lemma generate_referential_integrity_witness :
  match generate toy_platform ex_urandom ex_script with
  | inr st => referential_integrity ex_users_orders (files toy_platform st)
  | inl _ => False
  end.
Proof.
  pose proof ex_script_returns as Hret.
  destruct (generate toy_platform ex_urandom ex_script) as [e|st] eqn:Hrun;
    [discriminate Hret|].
  apply (generate_referential_integrity toy_platform ex_urandom iter_fwd
           ex_users_orders 5 1 ex_script).
  - intros s. reflexivity.
  - reflexivity.
  - lia.
  - reflexivity.
  - exact Hrun.
Defined.

(** C8.  For a validated schema for which the resolver returns an order and
    [rows_per_table >= 1], the run of the emitted [generate] never raises
    the missing-parent-rows error; when the loop reaches a table, every
    table referenced by one of its foreign keys stands earlier in the order
    and its pool holds [rows_per_table] values. *)
Theorem missing_parent_rows_unreachable (P : Platform) (urandom : nat → Z)
    (set_iter : set_order) (s : Schema) (rows_per_table seed : Z)
    (script : Script) :
  lists_elements set_iter →
  validate_schema s = None →
  1 ≤ rows_per_table →
  generate_faker_python_script set_iter s rows_per_table seed
  = Some (inr script) →
  (∀ t c p, generate P urandom script ≠ inl (MissingParentRows t c p))
  ∧ (∀ finished table rest st t c fk,
       TABLE_ORDER script = finished ++ table :: rest →
       for_each (gen_table P urandom script) finished (init_run P seed)
       = inr st →
       t ∈ tables s → table_name t = table → c ∈ columns t →
       foreign_key c = Some fk →
       ref_table fk ∈ finished
       ∧ length (default [] (pk_values P st !! ref_table fk))
         = Z.to_nat rows_per_table).
Proof.
  intros Hiter Hvalid _ Hemit.
  destruct (emitted_script_facts _ _ _ _ _ Hiter Hvalid Hemit)
    as (Hs & Hr & Hseed & Hrows & Hnd & Hperm & Htopo).
  assert (Hcols : ∀ t, t ∈ tables (SCHEMA script) →
                       NoDup (col_name <$> columns t)).
  { rewrite Hs. intros t Ht. by eapply valid_columns_nodup. }
  split.
  - intros t c p Herr. unfold generate in Herr.
    eapply (generate_error P urandom script Hcols (TABLE_ORDER script) []);
      [lia|done|apply run_inv_init| |done|done].
    rewrite Hs. apply Htopo.
  - intros finished table rest st t c fk Horder Hrun Ht Hn Hc Hfk.
    rewrite <- Hseed in Hrun.
    pose proof (generate_run_inv P urandom set_iter s rows_per_table seed
                  script finished (table :: rest) st Hiter Hvalid Hemit
                  Horder Hrun) as [_ Hdone].
    assert (Hp : ref_table fk ∈ finished).
    { apply (Htopo finished table rest); [done|].
      apply edges_elem. by exists t, c, fk. }
    split; [done|].
    destruct (Hdone _ Hp)
      as (pt & pc & rs & pool & _ & _ & _ & _ & _ & Hpl & Hlen & Hal & _).
    rewrite Hpl. simpl. apply Forall2_length in Hal. rewrite <- Hal, Hlen.
    by rewrite Hr.
Qed.

Lemma missing_parent_rows_unreachable_witness :
  (∀ t c p, generate toy_platform ex_urandom ex_script
            ≠ inl (MissingParentRows t c p))
  ∧ (∀ finished table rest st t c fk,
       TABLE_ORDER ex_script = finished ++ table :: rest →
       for_each (gen_table toy_platform ex_urandom ex_script) finished
                (init_run toy_platform 1) = inr st →
       t ∈ tables ex_users_orders → table_name t = table → c ∈ columns t →
       foreign_key c = Some fk →
       ref_table fk ∈ finished
       ∧ length (default [] (pk_values toy_platform st !! ref_table fk))
         = Z.to_nat 5).
Proof.
  apply (missing_parent_rows_unreachable toy_platform ex_urandom iter_fwd
           ex_users_orders 5 1 ex_script).
  - intros s. reflexivity.
  - reflexivity.
  - lia.
  - reflexivity.
Defined.

(** C9.  A cell of a foreign-key column is drawn from the parent's pool by
    one call of [random.choice], whatever the column's [nullable] flag says:
    no draw is made for the 5% test.  In a finished run every foreign-key
    cell, of a nullable column too, holds a value of the parent's pool, and
    that value is not the empty string. *)
Theorem nullable_fk_never_empty (P : Platform) (urandom : nat → Z)
    (set_iter : set_order) (s : Schema) (rows_per_table seed : Z)
    (script : Script) (st : Run P) :
  lists_elements set_iter →
  validate_schema s = None →
  generate_faker_python_script set_iter s rows_per_table seed
  = Some (inr script) →
  generate P urandom script = inr st →
  (∀ table i c fk st1 v st2,
     primary_key c = false → foreign_key c = Some fk →
     gen_cell P urandom table i c st1 = inr (v, st2) →
     v ∈ default [] (pk_values P st1 !! ref_table fk)
     ∧ st2 = with_rng P
               (rng_below P
                  (Z.of_nat (length (default [] (pk_values P st1 !! ref_table fk))))
                  (rng P st1)).2 st1)
  ∧ (∀ t f cells j c fk,
       t ∈ tables s → files P st !! table_name t = Some f → cells ∈ rows f →
       columns t !! j = Some c → foreign_key c = Some fk → nullable c = true →
       ∃ v, cells !! j = Some v ∧ v ≠ VStr ""
            ∧ v ∈ default [] (pk_values P st !! ref_table fk)).
Proof.
  intros Hiter Hvalid Hemit Hrun. split.
  - intros table i c fk st1 v st2 Hpk Hfk. unfold gen_cell.
    rewrite Hpk, Hfk. case_bool_decide; [done|]. unfold choice.
    destruct (rng_below P _ _) as [r g]. simpl.
    destruct (_ !! Z.to_nat r) as [w|] eqn:Hw; [|done].
    intros [= <- <-]. split; [|done]. apply list_elem_of_lookup. by eexists.
  - intros t f cells j c fk Ht Hf Hcells Hc Hfk _.
    destruct (emitted_script_facts _ _ _ _ _ Hiter Hvalid Hemit) as (Hs & _).
    assert (Hinv : run_inv P script (TABLE_ORDER script) st).
    { eapply generate_run_inv with (rest := []); [done..| |done].
      by rewrite app_nil_r. }
    destruct (run_inv_fk_cell P s script st t f cells j c fk
                Hvalid Hs Hinv Ht Hf Hcells Hc Hfk) as (v & Hv & Hin & _ & Hlike).
    exists v. split_and!; [done| |done]. by apply pk_like_nonempty.
Qed.

Lemma ex_nullable_fk_script_returns :
  returned (generate toy_platform ex_urandom ex_nullable_fk_script) = true.
Proof. vm_compute. reflexivity. Qed.

Lemma nullable_fk_never_empty_witness :
  match generate toy_platform ex_urandom ex_nullable_fk_script with
  | inr st =>
    ∀ t f cells j c fk,
      t ∈ tables ex_nullable_fk →
      files toy_platform st !! table_name t = Some f → cells ∈ rows f →
      columns t !! j = Some c → foreign_key c = Some fk →
      nullable c = true →
      ∃ v, cells !! j = Some v ∧ v ≠ VStr ""
           ∧ v ∈ default [] (pk_values toy_platform st !! ref_table fk)
  | inl _ => False
  end.
Proof.
  pose proof ex_nullable_fk_script_returns as Hret.
  destruct (generate toy_platform ex_urandom ex_nullable_fk_script)
    as [e|st] eqn:Hrun; [discriminate Hret|].
  apply (nullable_fk_never_empty toy_platform ex_urandom iter_fwd
           ex_nullable_fk 40 0 ex_nullable_fk_script).
  - intros s. reflexivity.
  - reflexivity.
  - reflexivity.
  - exact Hrun.
Defined.

(** ** Uniqueness and the empty value *)

Section uniqueness.
Context (P : Platform).

Lemma seen_values_set_seen (table key : string) (seen : list Value)
    (st : Run P) :
  seen_values P table key (set_seen P table key seen st) = seen.
Proof.
  unfold seen_values, set_seen. simpl.
  rewrite lookup_insert_eq. simpl. by rewrite lookup_insert_eq.
Qed.

Lemma seen_values_gen (table key : string) (col : Column) (st : Run P) :
  seen_values P table key (gen P col st).2 = seen_values P table key st.
Proof.
  unfold seen_values. by destruct (gen_frame P col st) as (_ & _ & ->).
Qed.

Lemma unique_attempts_fresh (n : nat) (table : string) (col : Column)
    (st st' : Run P) (v : Value) :
  unique_attempts P n table col st = inr (v, st') →
  py_in v (seen_values P table (col_name col) st) = false
  ∧ seen_values P table (col_name col) st'
    = v :: seen_values P table (col_name col) st.
Proof.
  revert st. induction n as [|n IH]; intros st; simpl; [done|].
  pose proof (seen_values_gen table (col_name col) col st) as Hseen.
  destruct (gen P col st) as [w st1]. simpl in Hseen.
  destruct (py_in w _) eqn:Hin.
  - intros H. apply IH in H. by rewrite Hseen in H.
  - intros [= <- <-]. rewrite seen_values_set_seen. by rewrite <- Hseen.
Qed.

Lemma generate_scalar_fresh (table : string) (col : Column)
    (st st' : Run P) (v : Value) :
  unique col = true →
  _generate_scalar P table col st = inr (v, st') →
  py_in v (seen_values P table (col_name col) st) = false
  ∧ seen_values P table (col_name col) st'
    = v :: seen_values P table (col_name col) st.
Proof.
  intros Hu. unfold _generate_scalar. rewrite Hu. intros H.
  apply unique_attempts_fresh in H. by rewrite seen_values_set_seen in H.
Qed.

End uniqueness.

(** C10.  For a nullable column that is neither primary nor foreign key,
    when the draw of [random.random()] is below 0.05 the cell is the empty
    string and only the generator of [random] has moved: the uniqueness
    tracker is neither read nor written, whether or not the column is unique
    and whether or not the empty string was emitted before.  A value that
    [_generate_scalar] returns for a unique column was not in the tracker and
    is added to it.  In the example both rows of the unique column [code]
    are empty. *)
Theorem nullable_unique_empty_untracked (P : Platform) (urandom : nat → Z)
    (table : string) (i : nat) (c : Column) (st : Run P) (k : Z) (g : Rng P) :
  primary_key c = false → foreign_key c = None → nullable c = true →
  rng_random P (rng P st) = (k, g) → below_5_percent k = true →
  gen_cell P urandom table i c st = inr (VStr "", with_rng P g st)
  ∧ unique_tracker_by_table P (with_rng P g st) = unique_tracker_by_table P st
  ∧ (∀ st1 v st2,
       unique c = true →
       _generate_scalar P table c st1 = inr (v, st2) →
       py_in v (seen_values P table (col_name c) st1) = false
       ∧ seen_values P table (col_name c) st2
         = v :: seen_values P table (col_name c) st1)
  ∧ written_rows toy_platform
      (generate toy_platform ex_urandom ex_unique_nullable_script) "t"
    = Some [[VInt 1; VStr ""]; [VInt 2; VStr ""]].
Proof.
  intros Hpk Hfk Hnull Hdraw Hlow. split_and!.
  - unfold gen_cell. by rewrite Hpk, Hfk, Hnull, Hdraw, Hlow.
  - done.
  - intros st1 v st2 Hu. by apply generate_scalar_fresh.
  - vm_compute. reflexivity.
Qed.

Example ex_unique_nullable_emitted :
  validate_schema ex_unique_nullable = None
  ∧ generate_faker_python_script iter_fwd ex_unique_nullable 2 0
    = Some (inr ex_unique_nullable_script).
Proof. split; reflexivity. Qed.

Lemma nullable_unique_empty_untracked_witness :
  gen_cell toy_platform ex_urandom "t" 0
    {| col_name := "code"; col_type := TStr; col_description := None;
       primary_key := false; foreign_key := None;
       nullable := true; unique := true; faker := None |}
    (init_run toy_platform 0)
  = inr (VStr "", with_rng toy_platform 1 (init_run toy_platform 0)).
Proof.
  apply (nullable_unique_empty_untracked toy_platform ex_urandom "t" 0 _
           (init_run toy_platform 0) 0 1); reflexivity.
Defined.

(** ** The provider of a scalar cell *)

Lemma infer_provider_nonempty (n p : string) :
  _infer_provider n = Some p → p ≠ "".
Proof.
  unfold _infer_provider.
  repeat (match goal with
          | |- context [if ?b then _ else _] => destruct b
          end; [by intros [= <-]|]).
  done.
Qed.

(** C7, as the code has it.  The provider name is the hint when a non-empty
    hint is present, and otherwise the one inferred from the column name;
    that one name is used when Faker has it, and the type-based fallback is
    used when not.  So the code agrees with the stated priority unless a
    hint is present and not recognized; then the type-based fallback is
    used and the column name is not consulted. *)
Theorem provider_priority (P : Platform) (col : Column) :
  (hint_unrecognized P col = false →
   called_provider P col = spec_provider P col)
  ∧ (hint_unrecognized P col = true →
     called_provider P col = None
     ∧ ∀ st, gen P col st = by_type P (col_type col) st)
  ∧ (∀ st, gen P col st
           = match called_provider P col with
             | Some p =>
               ((normalize (fake_call P p (fake P st)).1),
                with_fake P (fake_call P p (fake P st)).2 st)
             | None => by_type P (col_type col) st
             end).
Proof.
  assert (Hinf : called_provider P col
                 = match faker col with
                   | Some hint =>
                     if bool_decide (hint = "") then inferred_provider P col
                     else if hasattr_fake P hint then Some hint else None
                   | None => inferred_provider P col
                   end).
  { unfold called_provider, provider_of, inferred_provider.
    assert (Hi : match _infer_provider (col_name col) with
                 | Some p =>
                   if negb (bool_decide (p = "")) && hasattr_fake P p
                   then Some p else None
                 | None => None
                 end
                 = match _infer_provider (col_name col) with
                   | Some p => if hasattr_fake P p then Some p else None
                   | None => None
                   end).
    { destruct (_infer_provider (col_name col)) as [p|] eqn:Hp; [|done].
      apply infer_provider_nonempty in Hp.
      by rewrite bool_decide_eq_false_2. }
    destruct (faker col) as [hint|]; [|done].
    case_bool_decide as Hh; [done|]. simpl.
    by rewrite bool_decide_eq_false_2. }
  split_and!.
  - unfold hint_unrecognized, spec_provider. rewrite Hinf.
    destruct (faker col) as [hint|]; [|done].
    case_bool_decide; simpl; [done|]. by destruct (hasattr_fake P hint).
  - unfold hint_unrecognized. intros Hu.
    assert (Hnone : called_provider P col = None).
    { rewrite Hinf. destruct (faker col) as [hint|]; [|done].
      case_bool_decide; simpl in Hu; [done|].
      by destruct (hasattr_fake P hint). }
    split; [done|]. intros st. unfold gen. by rewrite Hnone.
  - intros st. unfold gen. destruct (called_provider P col); [|done].
    by destruct (fake_call P s (fake P st)).
Qed.

(** C7 as stated fails: with an unrecognized hint the stated priority goes
    on to the name-based table ([email]), the code goes to the type-based
    fallback and returns a random integer. *)
Lemma unrecognized_hint_skips_name_inference :
  called_provider toy_platform ex_bad_hint ≠ spec_provider toy_platform ex_bad_hint
  ∧ spec_provider toy_platform ex_bad_hint = Some "email"
  ∧ called_provider toy_platform ex_bad_hint = None
  ∧ gen toy_platform ex_bad_hint (init_run toy_platform 7)
    = (VInt 8, with_rng toy_platform 8 (init_run toy_platform 7)).
Proof. split; [vm_compute; discriminate|]. repeat split; reflexivity. Qed.

(** ** Seeds and primary keys *)

(** C3.  The primary key of a non-[int] column comes from [uuid.uuid4()],
    which reads the operating system's random bytes and not the generators
    that [generate] seeds.  Two calls of the function [generate], with
    [SCHEMA] bound to the dictionary of the one-table schema [ex_uuid_pk],
    [TABLE_ORDER] to its resolved order, one row per table and seed 1, write
    different keys as soon as those bytes differ. *)
Theorem uuid_primary_key_ignores_seed (P : Platform) :
  validate_schema ex_uuid_pk = None
  ∧ generate_faker_python_script iter_fwd ex_uuid_pk 1 1
    = Some (inr ex_uuid_pk_script)
  ∧ written_rows P (generate P (λ _, 0) ex_uuid_pk_script) "t"
    = Some [[VStr "00000000-0000-4000-8000-000000000000"]]
  ∧ written_rows P (generate P (λ _, 1) ex_uuid_pk_script) "t"
    = Some [[VStr "00000000-0000-4000-8000-000000000001"]].
Proof.
  split; [reflexivity|]. split; [reflexivity|].
  split; vm_compute; reflexivity.
Qed.

(** When every primary key is an [int] column the operating system's bytes
    are never read, and the run is a function of the script alone. *)
Lemma generate_int_pk_seeded (P : Platform) (u1 u2 : nat → Z)
    (script : Script) :
  (∀ t c, t ∈ tables (SCHEMA script) → c ∈ columns t →
          primary_key c = true → col_type c = TInt) →
  generate P u1 script = generate P u2 script.
Proof.
  intros Hint.
  assert (Hcell : ∀ table i c st,
            (primary_key c = true → col_type c = TInt) →
            gen_cell P u1 table i c st = gen_cell P u2 table i c st).
  { intros table i c st Hc. unfold gen_cell, _pk_generator.
    destruct (primary_key c); [|done].
    destruct (decide (col_type c = TInt)) as [|Hn]; [done|].
    destruct Hn. by apply Hc. }
  assert (Hrow : ∀ table i cols row st,
            (∀ c, c ∈ cols → primary_key c = true → col_type c = TInt) →
            gen_row P u1 table i cols row st = gen_row P u2 table i cols row st).
  { intros table i cols. induction cols as [|c cols IH]; intros row st Hc;
      simpl; [done|].
    rewrite Hcell by (apply Hc; left).
    destruct (gen_cell P u2 table i c st) as [e|[v st1]]; [done|].
    apply IH. intros c' Hc'. apply Hc. by right. }
  assert (Hrows : ∀ table cols pk_col idxs st,
            (∀ c, c ∈ cols → primary_key c = true → col_type c = TInt) →
            for_each (write_row P u1 table cols pk_col) idxs st
            = for_each (write_row P u2 table cols pk_col) idxs st).
  { intros table cols pk_col idxs. induction idxs as [|i idxs IH];
      intros st Hc; simpl; [done|].
    unfold write_row at 1 3. rewrite Hrow by done.
    destruct (gen_row P u2 table i cols ∅ st) as [e|[row st1]]; [done|].
    destruct (row !! col_name pk_col); [|done]. by apply IH. }
  unfold generate. generalize (init_run P (SEED script)).
  induction (TABLE_ORDER script) as [|table order IH]; intros st; simpl; [done|].
  assert (Htab : gen_table P u1 script table st = gen_table P u2 script table st).
  { unfold gen_table.
    destruct (table_by_name _ !! table) as [t|] eqn:Ht; [|done].
    apply table_by_name_lookup in Ht as [[Ht _]|Hm];
      [|by rewrite lookup_empty in Hm].
    destruct (filter _ (columns t)) as [|pk_col [|]]; [done| |done].
    apply Hrows. intros c Hc. by apply (Hint t). }
  rewrite Htab. destruct (gen_table P u2 script table st); [done|]. apply IH.
Qed.

(** * Further properties of the code *)

(** ** Validation *)

Lemma first_error_None_iff {A} (f : A → option ValueError) (l : list A) :
  first_error f l = None ↔ ∀ x, x ∈ l → f x = None.
Proof.
  split; [intros H x Hx; by eapply first_error_None|].
  induction l as [|y l IH]; intros H; simpl; [done|].
  rewrite (H y) by left. apply IH. intros x Hx. apply H. by right.
Qed.

Lemma NoDup_remove_dups_id (l : list string) : NoDup l → remove_dups l = l.
Proof.
  induction 1 as [|x l Hx Hnd IH]; simpl; [done|].
  destruct (decide_rel elem_of x l); [done|]. by rewrite IH.
Qed.

Lemma has_duplicates_iff (l : list string) : has_duplicates l = false ↔ NoDup l.
Proof.
  split; [apply has_duplicates_false|]. intros Hnd. unfold has_duplicates.
  rewrite NoDup_remove_dups_id by done. by rewrite Nat.eqb_refl.
Qed.

Lemma validate_column_iff (c : Column) :
  validate_column c = None
  ↔ (primary_key c = true → foreign_key c = None ∧ nullable c = false).
Proof.
  unfold validate_column.
  destruct (primary_key c), (foreign_key c) as [fk|], (nullable c); simpl;
    split; try done; intros H; try (by destruct H); by destruct (H eq_refl).
Qed.

Lemma validate_table_iff (t : Table) :
  validate_table t = None
  ↔ (∀ c, c ∈ columns t → validate_column c = None)
    ∧ columns t ≠ [] ∧ NoDup (col_name <$> columns t)
    ∧ ∃ c, c ∈ columns t ∧ primary_key c = true.
Proof.
  unfold validate_table. rewrite <- first_error_None_iff.
  destruct (first_error validate_column (columns t)); [split; [done|by intros [? _]]|].
  rewrite <- has_duplicates_iff.
  assert (Hex : existsb primary_key (columns t) = true
                ↔ ∃ c, c ∈ columns t ∧ primary_key c = true).
  { rewrite existsb_exists. split; intros (c & Hc & Hp); exists c;
      (split; [by apply list_elem_of_In | done]). }
  case_bool_decide as Hnil; [split; [done | by intros (_ & ? & _)]|].
  destruct (has_duplicates _); [split; [done | by intros (_ & _ & ? & _)]|].
  destruct (existsb primary_key (columns t)) eqn:Hpk; simpl.
  - split; [|done]. intros _. split_and!; [done..|]. by apply Hex.
  - split; [done|]. intros (_ & _ & _ & Hc). apply Hex in Hc. done.
Qed.

Lemma table_by_name_iff (ts : list Table) (n : string) (t : Table) :
  NoDup (table_name <$> ts) →
  table_by_name ts !! n = Some t ↔ t ∈ ts ∧ table_name t = n.
Proof.
  intros Hnd. split.
  - intros H. apply table_by_name_lookup in H as [?|H]; [done|].
    by rewrite lookup_empty in H.
  - intros [Ht <-]. by apply table_by_name_Some.
Qed.

Lemma check_fk_iff (ts : list Table) (t : Table) (col : Column) :
  NoDup (table_name <$> ts) →
  check_fk (table_by_name ts) t col = None
  ↔ ∀ fk, foreign_key col = Some fk →
          ∃ rt rc, rt ∈ ts ∧ table_name rt = ref_table fk
                   ∧ rc ∈ columns rt ∧ col_name rc = ref_column fk.
Proof.
  intros Hnd. unfold check_fk. destruct (foreign_key col) as [fk|]; [|done].
  destruct (table_by_name ts !! ref_table fk) as [rt|] eqn:Hrt.
  - apply table_by_name_iff in Hrt as [Hin Hn]; [|done].
    case_bool_decide as Hc.
    + split; [|done]. intros _ fk' [= <-].
      apply list_elem_of_fmap in Hc as (rc & Hrc & Hin'). by exists rt, rc.
    + split; [done|]. intros H. destruct (H fk eq_refl) as (rt' & rc & Hrt' & Hn' & Hrc & Hcn).
      assert (rt' = rt) as -> by (eapply (NoDup_fmap_inj table_name); [done..|congruence]).
      destruct Hc. apply list_elem_of_fmap. by exists rc.
  - split; [done|]. intros H.
    destruct (H fk eq_refl) as (rt & rc & Hin & Hn & _).
    assert (Hs : table_by_name ts !! ref_table fk = Some rt)
      by (by apply table_by_name_iff).
    congruence.
Qed.

(** X1.  [Schema.model_validate] accepts a schema exactly when: there is a
    table; table names are pairwise different; every table has a column,
    pairwise different column names and at least one primary-key column; no
    primary-key column is a foreign key or nullable; and every foreign key
    names a declared table and a column of that table. *)
Theorem validate_schema_iff (s : Schema) :
  validate_schema s = None ↔ schema_invariants s.
Proof.
  unfold validate_schema. split.
  - destruct (first_error validate_table (tables s)) eqn:Htabs; [done|].
    case_bool_decide as Hnil; [done|].
    destruct (has_duplicates _) eqn:Hdup; [done|].
    apply has_duplicates_iff in Hdup. intros Hfk.
    assert (Ht : ∀ t, t ∈ tables s → validate_table t = None)
      by (by apply first_error_None_iff).
    split; [done|done| | |].
    + intros t Hin. apply Ht, validate_table_iff in Hin. tauto.
    + intros t c Hin Hc. apply Ht, validate_table_iff in Hin as [Hcols _].
      by apply validate_column_iff, Hcols.
    + intros t c fk Hin Hc Hcfk.
      assert (Hchk : check_fk (table_by_name (tables s)) t c = None).
      { eapply (first_error_None _ (columns t)); [|done].
        by eapply (first_error_None _ (tables s) t Hfk). }
      by eapply (check_fk_iff (tables s) t c Hdup).
  - intros [Hne Hnd Hcols Hpk Hfk].
    assert (Htabs : first_error validate_table (tables s) = None).
    { apply first_error_None_iff. intros t Ht. apply validate_table_iff.
      destruct (Hcols t Ht) as (? & ? & ?). split_and!; [|done..].
      intros c Hc. apply validate_column_iff. by apply (Hpk t). }
    rewrite Htabs. rewrite bool_decide_eq_false_2 by done.
    rewrite (proj2 (has_duplicates_iff _) Hnd).
    apply first_error_None_iff. intros t Ht.
    apply first_error_None_iff. intros c Hc.
    apply check_fk_iff; [done|]. intros fk. by apply (Hfk t).
Qed.

Lemma first_table_Some (ts : list Table) (n : string) (t : Table) :
  first_table ts n = Some t → t ∈ ts ∧ table_name t = n.
Proof.
  induction ts as [|t' ts IH]; simpl; [done|].
  case_bool_decide as Hn.
  - intros [= <-]. split; [left | done].
  - intros H. apply IH in H as [? ?]. split; [by right | done].
Qed.

Lemma first_table_None (ts : list Table) (n : string) :
  first_table ts n = None ↔ n ∉ table_name <$> ts.
Proof.
  induction ts as [|t' ts IH]; simpl.
  - split; [|done]. intros _ H. inversion H.
  - rewrite not_elem_of_cons. case_bool_decide as Hn.
    + split; [done|]. intros [Hne _]. by destruct Hne.
    + rewrite IH. split; [intros ?; split; [congruence | done] | tauto].
Qed.

(** X2.  On a validated schema [Schema.table] returns the declared table of
    the requested name and raises [KeyError] exactly for a name that no
    table carries; it agrees with the dictionary [tables_by_name] that the
    validator and the emitted script build, although the method keeps the
    first table of a name and the dictionary the last. *)
Theorem table_lookup (s : Schema) :
  validate_schema s = None →
  (∀ n t, table s n = Some t ↔ t ∈ tables s ∧ table_name t = n)
  ∧ (∀ n, table s n = None ↔ n ∉ table_name <$> tables s)
  ∧ (∀ n, table_by_name (tables s) !! n = table s n).
Proof.
  intros Hvalid. pose proof (toposort_nodup_names s Hvalid) as Hnd.
  assert (Hsome : ∀ n t, table s n = Some t ↔ t ∈ tables s ∧ table_name t = n).
  { intros n t. split; [apply first_table_Some|]. intros [Ht Hn].
    unfold table. destruct (first_table (tables s) n) as [t'|] eqn:Hf.
    - apply first_table_Some in Hf as [Ht' Hn']. f_equal.
      eapply (NoDup_fmap_inj table_name); [done..|congruence].
    - apply first_table_None in Hf. destruct Hf.
      apply list_elem_of_fmap. by exists t. }
  split; [done|]. split; [intros n; apply first_table_None|].
  intros n. destruct (table s n) as [t|] eqn:Ht.
  - apply table_by_name_iff; [done|]. by apply Hsome.
  - destruct (table_by_name (tables s) !! n) as [t|] eqn:Hd; [|done].
    apply table_by_name_iff in Hd; [|done]. apply Hsome in Hd. congruence.
Qed.

Lemma table_lookup_witness :
  (∀ n t, table ex_users_orders n = Some t
          ↔ t ∈ tables ex_users_orders ∧ table_name t = n)
  ∧ (∀ n, table ex_users_orders n = None
          ↔ n ∉ table_name <$> tables ex_users_orders)
  ∧ (∀ n, table_by_name (tables ex_users_orders) !! n
          = table ex_users_orders n).
Proof. apply (table_lookup ex_users_orders). reflexivity. Defined.

(** ** The resolver on validated schemas *)

(** X3.  On a validated schema the edge loop of [_toposort_tables] never
    takes its [continue]: whenever an edge is reached, its child and its
    parent are keys of [indeg]. *)
Theorem edge_endpoints_known (s : Schema) (es1 es2 : list (string * string))
    (child parent : string) (indeg : gmap string Z)
    (out : gmap string (gset string)) :
  validate_schema s = None →
  dependency_edges s = es1 ++ (child, parent) :: es2 →
  add_edges (init_graph (table_name <$> tables s)) es1 = inr (indeg, out) →
  bool_decide (parent ∉ dom indeg) || bool_decide (child ∉ dom indeg) = false.
Proof.
  intros Hvalid Hes Hrun.
  pose proof (toposort_nodup_names s Hvalid) as Hnd.
  pose proof (add_edges_ok _ es1 _ _ Hnd (init_graph_ok _) Hrun) as Hg.
  destruct (valid_edge_names s child parent Hvalid) as [Hc Hp].
  { rewrite Hes. apply elem_of_app. right; left. }
  apply (g_dom _ _ Hg) in Hc, Hp. simpl in Hc, Hp.
  rewrite !bool_decide_eq_false_2; [done|tauto|tauto].
Qed.

Lemma edge_endpoints_known_witness :
  bool_decide ("users" ∉ dom (init_graph ["users"; "orders"]).1)
  || bool_decide ("orders" ∉ dom (init_graph ["users"; "orders"]).1) = false.
Proof.
  apply (edge_endpoints_known ex_users_orders [] [] "orders" "users"
           _ (init_graph ["users"; "orders"]).2); reflexivity.
Defined.

(** X4.  On a validated schema the queue loop of [_toposort_tables] ends
    within one iteration per declared table, and the function comes back
    with an order, with the self-reference error, or with the cycle error
    that names at least one table; it raises nothing else. *)
Theorem toposort_outcomes (set_iter : set_order) (s : Schema) :
  lists_elements set_iter →
  validate_schema s = None →
  (∃ order, _toposort_tables set_iter s = Some (inr order))
  ∨ (∃ t, (t, t) ∈ dependency_edges s
          ∧ _toposort_tables set_iter s = Some (inl (SelfReferentialFk t)))
  ∨ (∃ remaining, remaining ≠ []
          ∧ _toposort_tables set_iter s = Some (inl (CyclicFk remaining))).
Proof.
  intros Hiter Hvalid.
  destruct (toposort_cases set_iter Hiter s Hvalid)
    as [(t & Ht & Hr)|(indeg & out & indeg' & ordered & _ & _ & _ & Hinv & Hr)].
  - right; left. by exists t.
  - rewrite Hr. unfold finish_order. case_bool_decide as Hlen.
    + right; right. eexists. split; [|done]. intros Hnil.
      destruct (ordered_sub_names s _ _ _ Hinv) as (Hnd & Hsub & Hle).
      pose proof (toposort_nodup_names s Hvalid) as Hnames.
      assert (Hall : table_name <$> tables s ⊆+ ordered).
      { apply NoDup_submseteq; [done|]. intros t Ht.
        destruct (decide (t ∈ ordered)) as [|Hn]; [done|].
        assert (Hin : t ∈ filter (λ t, t ∉ ordered) (table_name <$> tables s))
          by (by apply list_elem_of_filter).
        rewrite Hnil in Hin. inversion Hin. }
      apply submseteq_length in Hall. lia.
    + left. by eexists.
Qed.

Lemma toposort_outcomes_witness :
  (∃ order, _toposort_tables iter_fwd ex_cycle = Some (inr order))
  ∨ (∃ t, (t, t) ∈ dependency_edges ex_cycle
          ∧ _toposort_tables iter_fwd ex_cycle
            = Some (inl (SelfReferentialFk t)))
  ∨ (∃ remaining, remaining ≠ []
          ∧ _toposort_tables iter_fwd ex_cycle
            = Some (inl (CyclicFk remaining))).
Proof.
  apply (toposort_outcomes iter_fwd ex_cycle); [intros s|]; reflexivity.
Defined.

(** ** The resolver when no foreign key is doubled *)

Lemma add_edges_exact (names : list string) (es seen : list (string * string))
    (g g' : Graph) :
  NoDup names → NoDup (seen ++ es) →
  (∀ e, e ∈ es → e.1 ∈ names ∧ e.2 ∈ names) →
  graph_ok names g → graph_exact names seen g →
  add_edges g es = inr g' →
  graph_exact names (seen ++ es) g'.
Proof.
  intros Hnd. revert seen g.
  induction es as [|[child parent] es IH]; intros seen g Hes Hends Hg Hex; simpl.
  - intros [= <-]. by rewrite app_nil_r.
  - destruct (add_edge g (child, parent)) as [err|g1] eqn:He; [done|].
    intros Hrun.
    replace (seen ++ (child, parent) :: es)
      with ((seen ++ [(child, parent)]) ++ es) in * by (by rewrite <- app_assoc).
    apply (IH _ g1); [done| |by eapply add_edge_ok| |done].
    { intros e He'. apply Hends. by right. }
    destruct (Hends (child, parent)) as [Hc Hp]; [left|]. simpl in Hc, Hp.
    assert (Hfresh : (child, parent) ∉ seen).
    { apply NoDup_app in Hes as (Hes & _ & _).
      apply NoDup_app in Hes as (_ & Hd & _). intros Hin.
      apply (Hd _ Hin). left. }
    destruct g as [indeg out], Hex as [Hout Hin]. simpl in *.
    unfold add_edge in He. case_bool_decide as Hself; [done|].
    rewrite (bool_decide_eq_false_2 (parent ∉ dom indeg)) in He
      by (intros Hn; apply Hn, (g_dom _ _ Hg); done).
    rewrite (bool_decide_eq_false_2 (child ∉ dom indeg)) in He
      by (intros Hn; apply Hn, (g_dom _ _ Hg); done).
    simpl in He. rewrite bool_decide_eq_true_2 in He.
    2:{ intros Hpp. by destruct (g_out _ _ Hg parent parent Hpp) as (_ & _ & ?). }
    injection He as <-. split; simpl.
    + intros c p. rewrite elem_of_app, list_elem_of_singleton.
      destruct (decide (p = parent)) as [->|Hne].
      * rewrite lookup_total_insert_eq, elem_of_union, elem_of_singleton, Hout.
        split; [intros [->|?]; [by right | by left]|].
        intros [?|Heq]; [by right | left; congruence].
      * rewrite lookup_total_insert_ne by done. rewrite Hout.
        split; [by left|]. intros [?|Heq]; [done | congruence].
    + intros c Hcn. unfold npar in *. destruct (decide (c = child)) as [->|Hne].
      * rewrite lookup_total_insert_eq, <- (Hin child Hc).
        rewrite (filter_length_drop
                   (λ p, child ∈ <[parent:={[child]} ∪ out !!! parent]> out !!! p)
                   (λ p, child ∈ out !!! p) parent names Hnd Hp); [lia| | |].
        -- rewrite lookup_total_insert_eq. apply elem_of_union_l.
           by apply elem_of_singleton.
        -- by rewrite Hout.
        -- intros y Hy. by rewrite lookup_total_insert_ne.
      * rewrite lookup_total_insert_ne by done. rewrite <- (Hin c Hcn).
        f_equal. apply filter_length_ext. intros y _.
        destruct (decide (y = parent)) as [->|Hy].
        -- rewrite lookup_total_insert_eq, elem_of_union, elem_of_singleton.
           tauto.
        -- by rewrite lookup_total_insert_ne.
Qed.

Lemma init_graph_exact (names : list string) :
  graph_exact names [] (init_graph names).
Proof.
  assert (Hout : ∀ p, (init_graph names).2 !!! p = (∅ : gset string)).
  { intros p. unfold init_graph; simpl. rewrite lookup_total_alt.
    rewrite foldl_insert_const_lookup, lookup_empty. by case_decide. }
  split.
  - intros c p. rewrite Hout. split; [by intros ?%not_elem_of_empty|].
    intros H. inversion H.
  - intros c Hc. unfold npar.
    rewrite (filter_length_ext _ (λ _, False)).
    + replace (length (filter (λ _ : string, False) names)) with O.
      * unfold init_graph; simpl.
        rewrite lookup_total_alt, foldl_insert_const_lookup, lookup_empty.
        by rewrite decide_True.
      * clear. induction names as [|x l IH]; [done|].
        rewrite filter_cons. by destruct (decide False).
    + intros y _. rewrite Hout. split; [by intros ?%not_elem_of_empty|done].
Qed.

Lemma filter_length_pos {A} (P : A → Prop) `{!∀ x, Decision (P x)}
    (l : list A) :
  length (filter P l) ≠ O → ∃ x, x ∈ l ∧ P x.
Proof.
  destruct (filter P l) as [|x k] eqn:Hf; [done|]. intros _.
  assert (Hx : x ∈ filter P l) by (rewrite Hf; left).
  apply list_elem_of_filter in Hx. exists x. tauto.
Qed.

Section kahn_exact.
Context (set_iter : set_order) (Hiter : lists_elements set_iter).
Context (names : list string) (Hnames : NoDup names).
Context (out : gmap string (gset string)).
Context (Hout : ∀ p c, c ∈ out !!! p → c ∈ names ∧ p ∈ names ∧ c ≠ p).

Lemma loop_exact_step indeg t q ordered :
  loop_inv names out indeg (t :: q) ordered →
  loop_exact names out indeg (t :: q) ordered →
  loop_exact names out
    (foldl decrement indeg (set_iter (out !!! t)))
    (q ++ filter (λ c, indeg !!! c = 1) (set_iter (out !!! t)))
    (ordered ++ [t]).
Proof.
  intros [Hnd Hn Hpos Hcnt Htopo] [Hcount Hzero].
  assert (Hdec : ∀ c, foldl decrement indeg (set_iter (out !!! t)) !!! c
             = indeg !!! c - (if decide (c ∈ out !!! t) then 1 else 0)).
  { intros c.
    rewrite decrement_lookup by (by apply set_iter_NoDup).
    destruct (decide (c ∈ set_iter (out !!! t))) as [Hc|Hc];
      destruct (decide (c ∈ out !!! t)) as [Hc'|Hc']; try done;
      rewrite (set_iter_elem set_iter Hiter) in Hc; done. }
  assert (Hto : t ∉ ordered).
  { apply NoDup_app in Hnd as (_ & Hd & _). intros Hin. apply (Hd t Hin). left. }
  assert (Htn : t ∈ names) by (apply Hn, elem_of_app; right; left).
  split.
  - intros c Hc. rewrite Hdec, <- (Hcount c Hc). unfold unprocessed.
    destruct (decide (c ∈ out !!! t)) as [Hct|Hct].
    + rewrite (filter_length_drop
                 (λ p, c ∈ out !!! p ∧ p ∉ ordered)
                 (λ p, c ∈ out !!! p ∧ p ∉ ordered ++ [t]) t names);
        [lia|done|done|done| |].
      * intros [_ Hnt]. apply Hnt, elem_of_app. right; left.
      * intros y Hy. rewrite elem_of_app, list_elem_of_singleton. tauto.
    + rewrite (filter_length_ext
                 (λ p, c ∈ out !!! p ∧ p ∉ ordered ++ [t])
                 (λ p, c ∈ out !!! p ∧ p ∉ ordered)); [lia|].
      intros y Hy. rewrite elem_of_app, list_elem_of_singleton.
      split; [tauto|]. intros [Hcy Hyo]. split; [done|].
      intros [Hyo' | ->]; done.
  - intros c Hc. rewrite Hdec. intros H0.
    rewrite <- app_assoc. simpl.
    destruct (decide (c ∈ out !!! t)) as [Hct|Hct].
    + apply elem_of_app; right; right. apply elem_of_app; right.
      apply list_elem_of_filter. split; [lia|].
      by apply (set_iter_elem set_iter Hiter).
    + assert (Hold : c ∈ ordered ++ t :: q) by (apply Hzero; [done|lia]).
      apply elem_of_app in Hold as [?|Hold]; [apply elem_of_app; by left|].
      apply elem_of_app; right.
      apply elem_of_cons in Hold as [->|?]; [left|right].
      apply elem_of_app; by left.
Qed.

Lemma kahn_loop_exact fuel indeg q ordered :
  loop_inv names out indeg q ordered →
  loop_exact names out indeg q ordered →
  (length names ≤ fuel + length ordered)%nat →
  ∃ indeg' ordered',
    kahn_loop set_iter out fuel indeg q ordered = Some ordered'
    ∧ loop_inv names out indeg' [] ordered'
    ∧ loop_exact names out indeg' [] ordered'.
Proof.
  revert indeg q ordered.
  induction fuel as [|fuel IH]; intros indeg q ordered Hinv Hex Hfuel.
  - destruct q as [|t q]; [by exists indeg, ordered|]. exfalso.
    destruct Hinv as [Hnd Hn _ _ _].
    assert (Hsub : ordered ++ t :: q ⊆+ names) by by apply NoDup_submseteq.
    apply submseteq_length in Hsub. rewrite length_app in Hsub.
    simpl in *. lia.
  - destruct q as [|t q]; [by exists indeg, ordered|]. simpl.
    rewrite foldl_release by (by apply set_iter_NoDup).
    apply IH.
    + by apply (loop_inv_step set_iter Hiter names Hnames out Hout).
    + by apply loop_exact_step.
    + rewrite length_app. simpl. lia.
Qed.

(** With an empty queue, a table that is not ordered has a parent that is
    not ordered. *)
Lemma loop_exact_stuck indeg ordered c :
  loop_exact names out indeg [] ordered →
  c ∈ names → c ∉ ordered →
  ∃ p, p ∈ names ∧ c ∈ out !!! p ∧ p ∉ ordered.
Proof.
  intros [Hcount Hzero] Hc Hno.
  assert (Hnz : indeg !!! c ≠ 0).
  { intros H0. apply Hno. specialize (Hzero c Hc H0).
    by rewrite app_nil_r in Hzero. }
  rewrite <- (Hcount c Hc) in Hnz.
  destruct (filter_length_pos (λ p, c ∈ out !!! p ∧ p ∉ ordered) names)
    as (p & Hp & Hcp & Hpo); [unfold unprocessed in Hnz; lia|].
  by exists p.
Qed.

End kahn_exact.

(** The run of [_toposort_tables] on a validated schema without a doubled
    foreign key and without a self-reference. *)
Lemma toposort_cases_exact (set_iter : set_order) (s : Schema) :
  lists_elements set_iter →
  validate_schema s = None →
  NoDup (dependency_edges s) →
  (∃ t, (t, t) ∈ dependency_edges s
        ∧ _toposort_tables set_iter s = Some (inl (SelfReferentialFk t)))
  ∨ (∃ indeg out ordered,
        _toposort_tables set_iter s
        = Some (finish_order (table_name <$> tables s) ordered)
        ∧ NoDup ordered
        ∧ (∀ c, c ∈ ordered → c ∈ table_name <$> tables s)
        ∧ (∀ c p, c ∈ out !!! p ↔ (c, p) ∈ dependency_edges s)
        ∧ loop_exact (table_name <$> tables s) out indeg [] ordered).
Proof.
  intros Hiter Hvalid Hedges.
  pose proof (toposort_nodup_names s Hvalid) as Hnd.
  unfold _toposort_tables.
  destruct (add_edges (init_graph (table_name <$> tables s)) (dependency_edges s))
    as [err|[indeg out]] eqn:Hes.
  - left. apply add_edges_error in Hes as (t & -> & Hin). by exists t.
  - right.
    assert (Hg : graph_ok (table_name <$> tables s) (indeg, out))
      by (eapply add_edges_ok; [done|apply init_graph_ok|done]).
    assert (Hex : graph_exact (table_name <$> tables s) (dependency_edges s)
                    (indeg, out)).
    { apply (add_edges_exact (table_name <$> tables s) (dependency_edges s)
               [] (init_graph (table_name <$> tables s))); try done.
      - intros [c p] He. by apply valid_edge_names.
      - apply init_graph_ok.
      - apply init_graph_exact. }
    destruct Hex as [Heo Hei]. simpl in Heo, Hei.
    destruct (kahn_loop_exact set_iter Hiter _ Hnd out (g_out _ _ Hg)
                (length (table_name <$> tables s)) indeg
                (filter (λ t, indeg !!! t = 0) (table_name <$> tables s)) [])
      as (indeg' & ordered & Hloop & Hinv & Hexact).
    + split; simpl.
      * by apply NoDup_filter.
      * intros c Hc. by apply list_elem_of_filter in Hc as [_ ?].
      * intros c Hc Hin. apply list_elem_of_filter in Hin as [H0 _]. lia.
      * intros c Hc. pose proof (g_indeg _ _ Hg c) as Hle. simpl in Hle.
        unfold unprocessed, npar in *.
        rewrite (filter_length_ext _ (λ p, c ∈ out !!! p)); [done|].
        intros y _. split; [tauto|]. intros ?. split; [done|].
        intros Hy. inversion Hy.
      * intros l1 c l2 p Heq. by destruct l1.
    + split; simpl.
      * intros c Hc. rewrite <- (Hei c Hc). unfold unprocessed, npar.
        f_equal. apply filter_length_ext.
        intros y _. split; [tauto|]. intros ?. split; [done|].
        intros Hy. inversion Hy.
      * intros c Hc H0. by apply list_elem_of_filter.
    + simpl. lia.
    + exists indeg', out, ordered. rewrite Hloop. simpl.
      destruct (ordered_sub_names s _ _ _ Hinv) as (Hond & Hsub & _).
      split_and!; done.
Qed.

(** X5.  Completeness of the resolver.  For a validated schema in which no
    table has two foreign keys into the same parent, [_toposort_tables]
    returns an order whenever the tables can be ordered parents first at
    all. *)
Theorem toposort_complete (set_iter : set_order) (s : Schema)
    (order0 : list string) :
  lists_elements set_iter →
  validate_schema s = None →
  NoDup (dependency_edges s) →
  parents_first_order s order0 →
  ∃ order, _toposort_tables set_iter s = Some (inr order).
Proof.
  intros Hiter Hvalid Hedges [Hperm Hfirst].
  pose proof (toposort_nodup_names s Hvalid) as Hnd.
  assert (Hnd0 : NoDup order0) by (by rewrite Hperm).
  destruct (toposort_cases_exact set_iter s Hiter Hvalid Hedges)
    as [(t & Ht & _)|(indeg & out & ordered & Hres & Hond & Hsub & Hout & Hex)].
  - exfalso. assert (Hin : t ∈ order0).
    { rewrite Hperm. by apply (valid_edge_names s t t). }
    apply list_elem_of_split in Hin as (l1 & l2 & ->).
    pose proof (Hfirst l1 t l2 t eq_refl Ht) as Hl1.
    apply NoDup_app in Hnd0 as (_ & Hd & _). apply (Hd t Hl1). left.
  - assert (Hstep : ∀ c, c ∈ table_name <$> tables s →
              (∀ p, (c, p) ∈ dependency_edges s → p ∈ ordered) → c ∈ ordered).
    { intros c Hc Hpar. destruct (decide (c ∈ ordered)) as [|Hno]; [done|].
      destruct (loop_exact_stuck _ out indeg ordered c Hex Hc Hno)
        as (p & _ & Hcp & Hpo).
      destruct Hpo. apply Hpar. by apply Hout. }
    assert (Hall : ∀ l l', order0 = l ++ l' → ∀ x, x ∈ l → x ∈ ordered).
    { induction l as [|c l IH] using rev_ind; intros l' Heq x Hx;
        [inversion Hx|].
      rewrite <- app_assoc in Heq. simpl in Heq.
      apply elem_of_app in Hx as [Hx|Hx]; [by eapply IH|].
      apply list_elem_of_singleton in Hx as ->. apply Hstep.
      - rewrite <- Hperm, Heq. apply elem_of_app. right; left.
      - intros p Hp. eapply IH; [done|]. by eapply Hfirst. }
    assert (Hlen : length ordered = length (table_name <$> tables s)).
    { apply Nat.le_antisymm.
      - apply submseteq_length. by apply NoDup_submseteq.
      - apply submseteq_length. apply NoDup_submseteq; [done|].
        intros x Hx. apply (Hall order0 []); [by rewrite app_nil_r|].
        by rewrite Hperm. }
    exists ordered. rewrite Hres. unfold finish_order.
    by rewrite bool_decide_eq_false_2 by (intros Hne; by apply Hne).
Qed.

Lemma toposort_complete_witness :
  ∃ order, _toposort_tables iter_fwd ex_fan = Some (inr order).
Proof.
  apply (toposort_complete iter_fwd ex_fan ["p"; "b"; "a"]).
  - intros s. reflexivity.
  - reflexivity.
  - vm_compute. repeat constructor; set_solver.
  - split; [vm_compute; apply perm_skip, perm_swap|].
    intros l1 c l2 p Heq Hedge. vm_compute in Hedge.
    destruct l1 as [|x1 [|x2 [|x3 l1]]]; simplify_eq/=; set_solver.
Defined.

(** X6.  For a validated schema in which no table has two foreign keys into
    the same parent, every table that the cycle error names holds a foreign
    key to a table that the error names too. *)
Theorem cycle_error_members (set_iter : set_order) (s : Schema)
    (remaining : list string) :
  lists_elements set_iter →
  validate_schema s = None →
  NoDup (dependency_edges s) →
  _toposort_tables set_iter s = Some (inl (CyclicFk remaining)) →
  ∀ c, c ∈ remaining →
       ∃ p, p ∈ remaining ∧ (c, p) ∈ dependency_edges s.
Proof.
  intros Hiter Hvalid Hedges Hrun c Hc.
  destruct (toposort_cases_exact set_iter s Hiter Hvalid Hedges)
    as [(t & _ & Ht)|(indeg & out & ordered & Hres & _ & _ & Hout & Hex)];
    [congruence|].
  rewrite Hres in Hrun. unfold finish_order in Hrun.
  case_bool_decide; [|done]. injection Hrun as <-.
  apply list_elem_of_filter in Hc as [Hno Hcn].
  destruct (loop_exact_stuck _ out indeg ordered c Hex Hcn Hno)
    as (p & Hp & Hcp & Hpo).
  exists p. split; [by apply list_elem_of_filter | by apply Hout].
Qed.

Lemma cycle_error_members_witness :
  _toposort_tables iter_fwd ex_cycle = Some (inl (CyclicFk ["A"; "B"; "C"]))
  ∧ ∀ c, c ∈ ["A"; "B"; "C"] →
         ∃ p, p ∈ ["A"; "B"; "C"] ∧ (c, p) ∈ dependency_edges ex_cycle.
Proof.
  split; [reflexivity|].
  apply (cycle_error_members iter_fwd ex_cycle).
  - intros s. reflexivity.
  - reflexivity.
  - vm_compute. repeat constructor; set_solver.
  - reflexivity.
Defined.

(** ** The run of an emitted script: how it can fail *)

Lemma for_each_app_inv {A S : Type} (body : A → S → ScriptError + S)
    (l1 l2 : list A) (s s' : S) :
  for_each body (l1 ++ l2) s = inr s' →
  ∃ s1, for_each body l1 s = inr s1 ∧ for_each body l2 s1 = inr s'.
Proof.
  revert s. induction l1 as [|x l1 IH]; intros s; simpl; [by exists s|].
  destruct (body x s) as [e|s0]; [done|]. apply IH.
Qed.

Section failures.
Context (P : Platform) (urandom : nat → Z).





End failures.






Lemma for_each_tables_single_pk (P : Platform) (urandom : nat → Z)
    (script : Script) (order : list string) (st st' : Run P) :
  for_each (gen_table P urandom script) order st = inr st' →
  ∀ n, n ∈ order →
       ∃ t pk, table_by_name (tables (SCHEMA script)) !! n = Some t
               ∧ primary_keys t = [pk].
Proof.
  revert st. induction order as [|table order IH]; intros st; simpl.
  - intros _ n Hn. inversion Hn.
  - destruct (gen_table P urandom script table st) as [e|st1] eqn:Ht; [done|].
    intros Hrest n Hn. apply elem_of_cons in Hn as [->|Hn]; [|by eapply IH].
    unfold gen_table in Ht.
    destruct (table_by_name _ !! table) as [t|]; [|done].
    destruct (filter _ (columns t)) as [|pk [|]] eqn:Hpk; [done| |done].
    by exists t, pk.
Qed.

(** X8.  The validators accept a table with several primary-key columns,
    [generate] does not: whenever a run of [generate] over a validated
    schema and its resolved order returns, every declared table has exactly
    one primary-key column. *)
Theorem generate_returns_single_pk (P : Platform) (urandom : nat → Z)
    (set_iter : set_order) (s : Schema) (rows_per_table seed : Z)
    (script : Script) (st : Run P) :
  lists_elements set_iter →
  validate_schema s = None →
  generate_faker_python_script set_iter s rows_per_table seed
  = Some (inr script) →
  generate P urandom script = inr st →
  ∀ t, t ∈ tables s → length (primary_keys t) = 1%nat.
Proof.
  intros Hiter Hvalid Hemit Hrun t Ht.
  destruct (emitted_script_facts _ _ _ _ _ Hiter Hvalid Hemit)
    as (Hs & _ & _ & _ & _ & Hperm & _).
  pose proof (toposort_nodup_names _ Hvalid) as Hnd.
  assert (Hin : table_name t ∈ TABLE_ORDER script).
  { rewrite Hperm. apply list_elem_of_fmap. by exists t. }
  destruct (for_each_tables_single_pk P urandom script _ _ _ Hrun _ Hin)
    as (t' & pk & Hlook & Hpk).
  rewrite Hs in Hlook. apply table_by_name_iff in Hlook as [Ht' Hn]; [|done].
  assert (t' = t) as -> by (by eapply (NoDup_fmap_inj table_name)).
  by rewrite Hpk.
Qed.

Lemma generate_returns_single_pk_witness :
  match generate toy_platform ex_urandom ex_script with
  | inr _ =>
    ∀ t, t ∈ tables ex_users_orders → length (primary_keys t) = 1%nat
  | inl _ => False
  end.
Proof.
  pose proof ex_script_returns as Hret.
  destruct (generate toy_platform ex_urandom ex_script) as [e|st] eqn:Hrun;
    [discriminate Hret|].
  apply (generate_returns_single_pk toy_platform ex_urandom iter_fwd
           ex_users_orders 5 1 ex_script st).
  - intros s. reflexivity.
  - reflexivity.
  - reflexivity.
  - exact Hrun.
Defined.

(** ** The run of an emitted script: what each table leaves *)

Section frames.
Context (P : Platform) (urandom : nat → Z).

Lemma gen_row_frame (table : string) (i : nat) (cols : list Column)
    (row row' : gmap string Value) (st st' : Run P) :
  gen_row P urandom table i cols row st = inr (row', st') →
  pk_values P st' = pk_values P st ∧ files P st' = files P st.
Proof.
  revert row st. induction cols as [|c cols IH]; intros row st; simpl.
  - by intros [= _ <-].
  - destruct (gen_cell P urandom table i c st) as [e|[v st1]] eqn:Hc; [done|].
    apply gen_cell_ok in Hc as (_ & Hpk & Hf). intros H.
    apply IH in H as [-> ->]. done.
Qed.

Lemma write_row_frame (table : string) (cols : list Column) (pk_col : Column)
    (i : nat) (st st' : Run P) (n : string) :
  write_row P urandom table cols pk_col i st = inr st' → n ≠ table →
  files P st' !! n = files P st !! n
  ∧ pk_values P st' !! n = pk_values P st !! n.
Proof.
  unfold write_row.
  destruct (gen_row P urandom table i cols ∅ st) as [e|[row st1]] eqn:Hrow;
    [done|].
  apply gen_row_frame in Hrow as [Hpk Hf].
  destruct (row !! col_name pk_col) as [v|]; [|done].
  intros [= <-] Hn. simpl. unfold writerow.
  destruct (files P st1 !! table) as [f|]; simpl;
    rewrite ?lookup_insert_ne by done; by rewrite Hpk, Hf.
Qed.

Lemma rows_loop_frame (table : string) (cols : list Column) (pk_col : Column)
    (idxs : list nat) (st st' : Run P) (n : string) :
  for_each (write_row P urandom table cols pk_col) idxs st = inr st' →
  n ≠ table →
  files P st' !! n = files P st !! n
  ∧ pk_values P st' !! n = pk_values P st !! n.
Proof.
  revert st. induction idxs as [|i idxs IH]; intros st; simpl.
  - by intros [= <-].
  - destruct (write_row P urandom table cols pk_col i st) as [e|st1] eqn:Hw;
      [done|].
    intros Hloop Hn. destruct (IH _ Hloop Hn) as [-> ->].
    by eapply write_row_frame.
Qed.

Lemma gen_table_frame (script : Script) (table : string) (st st' : Run P)
    (n : string) :
  gen_table P urandom script table st = inr st' → n ≠ table →
  files P st' !! n = files P st !! n
  ∧ pk_values P st' !! n = pk_values P st !! n.
Proof.
  unfold gen_table. destruct (table_by_name _ !! table) as [t|]; [|done].
  destruct (filter _ (columns t)) as [|pk_col [|]]; [done| |done].
  intros Hloop Hn. destruct (rows_loop_frame _ _ _ _ _ _ n Hloop Hn) as [-> ->].
  simpl. unfold setdefault. rewrite lookup_insert_ne by done.
  split; [done|]. destruct (pk_values P st !! table); [done|].
  by rewrite lookup_insert_ne.
Qed.

Lemma tables_loop_frame (script : Script) (order : list string)
    (st st' : Run P) (n : string) :
  for_each (gen_table P urandom script) order st = inr st' → n ∉ order →
  files P st' !! n = files P st !! n
  ∧ pk_values P st' !! n = pk_values P st !! n.
Proof.
  revert st. induction order as [|table order IH]; intros st; simpl.
  - by intros [= <-].
  - destruct (gen_table P urandom script table st) as [e|st1] eqn:Ht; [done|].
    intros Hloop Hn. apply not_elem_of_cons in Hn as [Hne Hn].
    destruct (IH _ Hloop Hn) as [-> ->]. by eapply gen_table_frame.
Qed.

(** Rows are written with one cell per field of the header. *)
Lemma writerow_rect (table : string) (row : gmap string Value) (st : Run P) :
  files_rect (files P st) → files_rect (files P (writerow P table row st)).
Proof.
  intros Hrect. unfold writerow.
  destruct (files P st !! table) as [f|] eqn:Hf; [|done]. simpl.
  intros n f' cells. destruct (decide (n = table)) as [->|Hne].
  - rewrite lookup_insert_eq. intros [= <-]. simpl.
    rewrite elem_of_app, list_elem_of_singleton. intros [Hc | ->].
    + by apply (Hrect table f).
    + by rewrite length_fmap.
  - rewrite lookup_insert_ne by done. apply Hrect.
Qed.

Lemma write_row_rect (table : string) (cols : list Column) (pk_col : Column)
    (i : nat) (st st' : Run P) :
  write_row P urandom table cols pk_col i st = inr st' →
  files_rect (files P st) → files_rect (files P st').
Proof.
  unfold write_row.
  destruct (gen_row P urandom table i cols ∅ st) as [e|[row st1]] eqn:Hrow;
    [done|].
  apply gen_row_frame in Hrow as [_ Hf].
  destruct (row !! col_name pk_col) as [v|]; [|done].
  intros [= <-] Hrect. simpl. apply writerow_rect. by rewrite Hf.
Qed.

Lemma rows_loop_rect (table : string) (cols : list Column) (pk_col : Column)
    (idxs : list nat) (st st' : Run P) :
  for_each (write_row P urandom table cols pk_col) idxs st = inr st' →
  files_rect (files P st) → files_rect (files P st').
Proof.
  revert st. induction idxs as [|i idxs IH]; intros st; simpl.
  - by intros [= <-].
  - destruct (write_row P urandom table cols pk_col i st) as [e|st1] eqn:Hw;
      [done|].
    intros Hloop Hrect. apply (IH st1 Hloop). by eapply write_row_rect.
Qed.

Lemma gen_table_rect (script : Script) (table : string) (st st' : Run P) :
  gen_table P urandom script table st = inr st' →
  files_rect (files P st) → files_rect (files P st').
Proof.
  unfold gen_table. destruct (table_by_name _ !! table) as [t|]; [|done].
  destruct (filter _ (columns t)) as [|pk_col [|]]; [done| |done].
  intros Hloop Hrect. apply (rows_loop_rect _ _ _ _ _ _ Hloop). simpl.
  intros n f cells. destruct (decide (n = table)) as [->|Hne].
  - rewrite lookup_insert_eq. intros [= <-] Hc. inversion Hc.
  - rewrite lookup_insert_ne by done. apply Hrect.
Qed.

Lemma generate_rect (script : Script) (st : Run P) :
  generate P urandom script = inr st → files_rect (files P st).
Proof.
  unfold generate.
  assert (Hinit : files_rect (files P (init_run P (SEED script)))).
  { intros n f cells Hf. simpl in Hf. by rewrite lookup_empty in Hf. }
  revert Hinit. generalize (init_run P (SEED script)).
  induction (TABLE_ORDER script) as [|table order IH]; intros st0 Hrect; simpl.
  - by intros [= <-].
  - destruct (gen_table P urandom script table st0) as [e|st1] eqn:Ht; [done|].
    apply IH. by eapply gen_table_rect.
Qed.

End frames.

(** X9.  When the run of the script emitted for a validated schema returns,
    every declared table has its file: the header is the list of the
    declared column names in declaration order, there are exactly
    [rows_per_table] rows, and every row has one cell per column.  No other
    file is written. *)
Theorem generate_files (P : Platform) (urandom : nat → Z)
    (set_iter : set_order) (s : Schema) (rows_per_table seed : Z)
    (script : Script) (st : Run P) :
  lists_elements set_iter →
  validate_schema s = None →
  generate_faker_python_script set_iter s rows_per_table seed
  = Some (inr script) →
  generate P urandom script = inr st →
  (∀ t, t ∈ tables s →
        ∃ rs, files P st !! table_name t
              = Some {| fieldnames := col_name <$> columns t; rows := rs |}
              ∧ length rs = Z.to_nat rows_per_table
              ∧ ∀ cells, cells ∈ rs → length cells = length (columns t))
  ∧ (∀ n, n ∉ table_name <$> tables s → files P st !! n = None).
Proof.
  intros Hiter Hvalid Hemit Hrun.
  destruct (emitted_script_facts _ _ _ _ _ Hiter Hvalid Hemit)
    as (Hs & Hr & _ & _ & _ & Hperm & _).
  pose proof (toposort_nodup_names _ Hvalid) as Hnd.
  assert (Hinv : run_inv P script (TABLE_ORDER script) st).
  { eapply generate_run_inv with (rest := []); [done..| |done].
    by rewrite app_nil_r. }
  destruct Hinv as [Hfresh Hdone]. split.
  - intros t Ht.
    assert (Hin : table_name t ∈ TABLE_ORDER script).
    { rewrite Hperm. apply list_elem_of_fmap. by exists t. }
    destruct (Hdone _ Hin)
      as (t' & pk & rs & pool & Ht' & Hn & _ & _ & Hf & _ & Hlen & _ & _).
    rewrite Hs in Ht'.
    assert (t' = t) as -> by (by eapply (NoDup_fmap_inj table_name)).
    exists rs. split_and!; [done|by rewrite Hlen, Hr|].
    intros cells Hc.
    rewrite (generate_rect P urandom script st Hrun _ _ cells Hf Hc). simpl.
    by rewrite length_fmap.
  - intros n Hn. apply Hfresh. by rewrite Hperm.
Qed.

Lemma generate_files_witness :
  match generate toy_platform ex_urandom ex_script with
  | inr st =>
    (∀ t, t ∈ tables ex_users_orders →
          ∃ rs, files toy_platform st !! table_name t
                = Some {| fieldnames := col_name <$> columns t; rows := rs |}
                ∧ length rs = Z.to_nat 5
                ∧ ∀ cells, cells ∈ rs → length cells = length (columns t))
    ∧ (∀ n, n ∉ table_name <$> tables ex_users_orders →
            files toy_platform st !! n = None)
  | inl _ => False
  end.
Proof.
  pose proof ex_script_returns as Hret.
  destruct (generate toy_platform ex_urandom ex_script) as [e|st] eqn:Hrun;
    [discriminate Hret|].
  apply (generate_files toy_platform ex_urandom iter_fwd ex_users_orders 5 1
           ex_script).
  - intros s. reflexivity.
  - reflexivity.
  - reflexivity.
  - exact Hrun.
Defined.

(** The step of the run that writes the table [t]: it starts with nothing
    stored for [t], and what it leaves for [t] is what the run ends with. *)
Lemma emitted_table_step (P : Platform) (urandom : nat → Z)
    (set_iter : set_order) (s : Schema) (rows_per_table seed : Z)
    (script : Script) (st : Run P) (t : Table) :
  lists_elements set_iter →
  validate_schema s = None →
  generate_faker_python_script set_iter s rows_per_table seed
  = Some (inr script) →
  generate P urandom script = inr st →
  t ∈ tables s →
  ∃ st1 st2,
    pk_values P st1 !! table_name t = None
    ∧ files P st1 !! table_name t = None
    ∧ table_by_name (tables (SCHEMA script)) !! table_name t = Some t
    ∧ gen_table P urandom script (table_name t) st1 = inr st2
    ∧ files P st !! table_name t = files P st2 !! table_name t
    ∧ pk_values P st !! table_name t = pk_values P st2 !! table_name t.
Proof.
  intros Hiter Hvalid Hemit Hrun Ht.
  destruct (emitted_script_facts _ _ _ _ _ Hiter Hvalid Hemit)
    as (Hs & _ & _ & _ & Hnd & Hperm & _).
  pose proof (toposort_nodup_names _ Hvalid) as Hnames.
  assert (Hin : table_name t ∈ TABLE_ORDER script).
  { rewrite Hperm. apply list_elem_of_fmap. by exists t. }
  apply list_elem_of_split in Hin as (l1 & l2 & Horder).
  unfold generate in Hrun. rewrite Horder in Hrun.
  apply for_each_app_inv in Hrun as (st1 & Hrun1 & Hrun2). simpl in Hrun2.
  destruct (gen_table P urandom script (table_name t) st1) as [e|st2] eqn:Hstep;
    [done|].
  pose proof (generate_run_inv P urandom set_iter s rows_per_table seed script
                l1 (table_name t :: l2) st1 Hiter Hvalid Hemit Horder Hrun1)
    as [Hfresh _].
  rewrite Horder in Hnd. apply NoDup_app in Hnd as (_ & Hd & Hnd2).
  apply NoDup_cons in Hnd2 as [Hnot2 _].
  assert (Hnot1 : table_name t ∉ l1).
  { intros Hin. apply (Hd _ Hin). left. }
  destruct (Hfresh _ Hnot1) as [Hp Hf].
  destruct (tables_loop_frame P urandom script l2 st2 st (table_name t)
              Hrun2 Hnot2) as [Hf2 Hp2].
  exists st1, st2. split_and!; try done.
  rewrite Hs. by apply table_by_name_Some.
Qed.

(** ** Integer primary keys *)

Section int_keys.
Context (P : Platform) (urandom : nat → Z).

Lemma gen_row_pk_int (table : string) (i : nat) (cols : list Column)
    (pk : Column) (row row' : gmap string Value) (st st' : Run P) :
  NoDup (col_name <$> cols) → pk ∈ cols →
  primary_key pk = true → col_type pk = TInt →
  gen_row P urandom table i cols row st = inr (row', st') →
  row' !! col_name pk = Some (VInt (Z.of_nat i + 1)).
Proof.
  intros Hnd Hpk Htrue Hint. revert row st Hnd Hpk.
  induction cols as [|c cols IH]; intros row st Hnd Hpk; [inversion Hpk|].
  simpl. rewrite fmap_cons in Hnd. apply NoDup_cons in Hnd as [Hc Hnd].
  destruct (gen_cell P urandom table i c st) as [e|[v st1]] eqn:Hcell; [done|].
  intros Hrow. apply elem_of_cons in Hpk as [->|Hpk].
  - unfold gen_cell, _pk_generator in Hcell. rewrite Htrue in Hcell.
    rewrite decide_True in Hcell by done. injection Hcell as <- <-.
    apply gen_row_ok in Hrow as (_ & _ & _ & Hrest); [|done].
    rewrite Hrest by done. by rewrite lookup_insert_eq.
  - by eapply IH.
Qed.

Lemma write_row_pool_int (table : string) (cols : list Column) (pk : Column)
    (i : nat) (st st' : Run P) :
  NoDup (col_name <$> cols) → pk ∈ cols →
  primary_key pk = true → col_type pk = TInt →
  write_row P urandom table cols pk i st = inr st' →
  pk_values P st'
  = <[table := default [] (pk_values P st !! table) ++ [VInt (Z.of_nat i + 1)]]>
      (pk_values P st).
Proof.
  intros Hnd Hpk Htrue Hint. unfold write_row.
  destruct (gen_row P urandom table i cols ∅ st) as [e|[row st1]] eqn:Hrow;
    [done|].
  rewrite (gen_row_pk_int _ _ _ _ _ _ _ _ Hnd Hpk Htrue Hint Hrow).
  apply gen_row_frame in Hrow as [Hpkv _].
  intros [= <-]. simpl.
  assert (Hw : pk_values P (writerow P table row st1) = pk_values P st).
  { unfold writerow. by destruct (files P st1 !! table). }
  by rewrite Hw.
Qed.

Lemma rows_loop_pool_int (table : string) (cols : list Column) (pk : Column)
    (a k : nat) (st st' : Run P) :
  NoDup (col_name <$> cols) → pk ∈ cols →
  primary_key pk = true → col_type pk = TInt →
  is_Some (pk_values P st !! table) →
  for_each (write_row P urandom table cols pk) (seq a k) st = inr st' →
  pk_values P st' !! table
  = Some (default [] (pk_values P st !! table)
          ++ ((λ i, VInt (Z.of_nat i + 1)) <$> seq a k)).
Proof.
  intros Hnd Hpk Htrue Hint. revert a st.
  induction k as [|k IH]; intros a st Hsome; simpl.
  - intros [= <-]. rewrite app_nil_r. by destruct Hsome as [l ->].
  - destruct (write_row P urandom table cols pk a st) as [e|st1] eqn:Hw; [done|].
    intros Hloop.
    pose proof (write_row_pool_int _ _ _ _ _ _ Hnd Hpk Htrue Hint Hw) as Hp1.
    rewrite (IH (S a) st1); [|rewrite Hp1, lookup_insert_eq; by eexists|done].
    rewrite Hp1, lookup_insert_eq. simpl. by rewrite <- app_assoc.
Qed.

End int_keys.

(** X10.  When the run of the script emitted for a validated schema
    returns, the pool of a table whose primary key is an [int] column is
    [1, 2, ..., rows_per_table], and row number [i] of the table's file
    (counted from 0) has [i + 1] in the primary-key column. *)
Theorem integer_primary_keys (P : Platform) (urandom : nat → Z)
    (set_iter : set_order) (s : Schema) (rows_per_table seed : Z)
    (script : Script) (st : Run P) (t : Table) (pk : Column) :
  lists_elements set_iter →
  validate_schema s = None →
  generate_faker_python_script set_iter s rows_per_table seed
  = Some (inr script) →
  generate P urandom script = inr st →
  t ∈ tables s → pk ∈ columns t →
  primary_key pk = true → col_type pk = TInt →
  pk_values P st !! table_name t = Some (VInt <$> seqZ 1 rows_per_table)
  ∧ ∃ f, files P st !! table_name t = Some f
         ∧ ∀ j i cells, columns t !! j = Some pk → rows f !! i = Some cells →
                        cells !! j = Some (VInt (Z.of_nat i + 1)).
Proof.
  intros Hiter Hvalid Hemit Hrun Ht Hpk Htrue Hint.
  destruct (emitted_script_facts _ _ _ _ _ Hiter Hvalid Hemit)
    as (Hs & Hr & _ & _ & _ & Hperm & _).
  pose proof (valid_columns_nodup s t Hvalid Ht) as Hcols.
  assert (Hpool : pk_values P st !! table_name t
                  = Some (VInt <$> seqZ 1 rows_per_table)).
  { destruct (emitted_table_step P urandom set_iter s rows_per_table seed
                script st t Hiter Hvalid Hemit Hrun Ht)
      as (st1 & st2 & Hfresh & _ & Hlook & Hstep & _ & ->).
    unfold gen_table in Hstep. rewrite Hlook in Hstep.
    destruct (filter _ (columns t)) as [|pk_col [|]] eqn:Hf; [done| |done].
    assert (pk = pk_col) as <-.
    { assert (Hin : pk ∈ filter (λ c, primary_key c = true) (columns t))
        by (by apply list_elem_of_filter).
      rewrite Hf in Hin. by apply list_elem_of_singleton in Hin. }
    apply rows_loop_pool_int in Hstep; [|done..|].
    - rewrite Hstep. simpl. unfold setdefault. rewrite Hfresh.
      rewrite lookup_insert_eq. simpl. f_equal. unfold seqZ.
      rewrite <- list_fmap_compose, Hr. done.
    - simpl. unfold setdefault. rewrite Hfresh, lookup_insert_eq. by eexists. }
  split; [done|].
  assert (Hinv : run_inv P script (TABLE_ORDER script) st).
  { eapply generate_run_inv with (rest := []); [done..| |done].
    by rewrite app_nil_r. }
  destruct Hinv as [_ Hdone].
  assert (Hin : table_name t ∈ TABLE_ORDER script).
  { rewrite Hperm. apply list_elem_of_fmap. by exists t. }
  destruct (Hdone _ Hin)
    as (t' & pk' & rs & pool & Ht' & Hn & Hpk' & Htrue' & Hf & Hpl & _ & Hal & _).
  rewrite Hs in Ht'. pose proof (toposort_nodup_names _ Hvalid) as Hnames.
  assert (t' = t) as -> by (by eapply (NoDup_fmap_inj table_name)).
  assert (pk' = pk) as ->.
  { destruct (for_each_tables_single_pk P urandom script _ _ _ Hrun _ Hin)
      as (t2 & pk2 & Hlook & Hone).
    rewrite Hs in Hlook. apply table_by_name_iff in Hlook as [Ht2 Hn2]; [|done].
    assert (t2 = t) as -> by (by eapply (NoDup_fmap_inj table_name)).
    assert (H1 : pk' ∈ primary_keys t) by (by apply list_elem_of_filter).
    assert (H2 : pk ∈ primary_keys t) by (by apply list_elem_of_filter).
    rewrite Hone in H1, H2.
    apply list_elem_of_singleton in H1, H2. congruence. }
  eexists. split; [done|]. simpl. intros j i cells Hj Hi.
  destruct (Forall2_lookup_l _ _ _ _ _ Hal Hi) as (v & Hv & (j' & Hj' & Hc)).
  rewrite Hpool in Hpl. injection Hpl as <-.
  rewrite list_lookup_fmap in Hv.
  destruct (seqZ 1 rows_per_table !! i) as [z|] eqn:Hz; [|done].
  apply lookup_seqZ in Hz as [-> _]. injection Hv as <-.
  assert (j' = j) as ->.
  { apply NoDup_fmap_1 in Hcols.
    by eapply (NoDup_lookup (columns t)). }
  rewrite Hc. f_equal. f_equal. lia.
Qed.

Lemma integer_primary_keys_witness :
  match generate toy_platform ex_urandom ex_script with
  | inr st =>
    pk_values toy_platform st !! "users" = Some (VInt <$> seqZ 1 5)
    ∧ ∃ f, files toy_platform st !! "users" = Some f
           ∧ ∀ j i cells,
               [mk_col "user_id" TInt true None;
                {| col_name := "email"; col_type := TStr;
                   col_description := None; primary_key := false;
                   foreign_key := None; nullable := false; unique := true;
                   faker := None |}] !! j
               = Some (mk_col "user_id" TInt true None) →
               rows f !! i = Some cells →
               cells !! j = Some (VInt (Z.of_nat i + 1))
  | inl _ => False
  end.
Proof.
  pose proof ex_script_returns as Hret.
  destruct (generate toy_platform ex_urandom ex_script) as [e|st] eqn:Hrun;
    [discriminate Hret|].
  apply (integer_primary_keys toy_platform ex_urandom iter_fwd ex_users_orders
           5 1 ex_script st
           (mk_table "users"
              [mk_col "user_id" TInt true None;
               {| col_name := "email"; col_type := TStr;
                  col_description := None; primary_key := false;
                  foreign_key := None; nullable := false; unique := true;
                  faker := None |}])
           (mk_col "user_id" TInt true None)).
  - intros s. reflexivity.
  - reflexivity.
  - reflexivity.
  - exact Hrun.
  - left.
  - left.
  - reflexivity.
  - reflexivity.
Defined.

(** ** Unique columns *)

Lemma py_eqb_sym (v w : Value) : py_eqb v w = py_eqb w v.
Proof.
  unfold py_eqb. destruct (numeric v) as [a|], (numeric w) as [b|]; try done.
  - apply eq_true_iff_eq. rewrite !Qeq_bool_iff. split; intros H; by symmetry.
  - apply bool_decide_ext. split; intros H; by symmetry.
Qed.

Lemma py_eqb_str (a : string) (v : Value) :
  py_eqb (VStr a) v = true → v = VStr a.
Proof.
  unfold py_eqb. simpl. destruct (numeric v); [done|].
  intros H. by apply bool_decide_eq_true in H.
Qed.

Lemma py_in_false (w : Value) (seen : list Value) (u : Value) :
  py_in w seen = false → u ∈ seen → py_eqb w u = false.
Proof.
  unfold py_in. intros Hf Hu. destruct (py_eqb w u) eqn:He; [|done].
  assert (Ht : existsb (py_eqb w) seen = true).
  { apply existsb_exists. exists u. split; [by apply list_elem_of_In | done]. }
  congruence.
Qed.

Section unique_columns.
Context (P : Platform) (urandom : nat → Z).

Lemma seen_values_set_seen_ne (table key key' : string) (seen : list Value)
    (st : Run P) :
  key ≠ key' →
  seen_values P table key (set_seen P table key' seen st)
  = seen_values P table key st.
Proof.
  intros Hne. unfold seen_values, set_seen. simpl.
  rewrite lookup_insert_eq. simpl. by rewrite lookup_insert_ne.
Qed.

Lemma unique_attempts_other (n : nat) (table key : string) (col : Column)
    (st st' : Run P) (v : Value) :
  key ≠ col_name col →
  unique_attempts P n table col st = inr (v, st') →
  seen_values P table key st' = seen_values P table key st.
Proof.
  intros Hne. revert st. induction n as [|n IH]; intros st; simpl; [done|].
  pose proof (seen_values_gen P table key col st) as Hseen.
  destruct (gen P col st) as [w st1]. simpl in Hseen.
  destruct (py_in w _).
  - intros H. apply IH in H. congruence.
  - intros [= <- <-]. by rewrite seen_values_set_seen_ne.
Qed.

Lemma gen_cell_other_key (table key : string) (i : nat) (c : Column)
    (st st' : Run P) (w : Value) :
  key ≠ col_name c →
  gen_cell P urandom table i c st = inr (w, st') →
  seen_values P table key st' = seen_values P table key st.
Proof.
  intros Hne. unfold gen_cell.
  assert (Hs : ∀ st1, _generate_scalar P table c st1 = inr (w, st') →
                 seen_values P table key st' = seen_values P table key st1).
  { intros st1. unfold _generate_scalar. destruct (unique c).
    - intros H. apply (unique_attempts_other _ _ key) in H; [|done].
      by rewrite seen_values_set_seen_ne in H.
    - pose proof (seen_values_gen P table key c st1) as Hseen.
      destruct (gen P c st1) as [w1 st2]. by intros [= _ <-]. }
  destruct (primary_key c).
  - unfold _pk_generator. destruct (decide (col_type c = TInt));
      by intros [= _ <-].
  - destruct (foreign_key c) as [fk|].
    + case_bool_decide; [done|]. unfold choice.
      destruct (rng_below P _ _) as [r g].
      destruct (_ !! Z.to_nat r); [|done]. by intros [= _ <-].
    + destruct (nullable c); [|apply Hs].
      destruct (rng_random P (rng P st)) as [k g].
      destruct (below_5_percent k); [by intros [= _ <-]|].
      intros H. by apply Hs in H.
Qed.

Lemma gen_cell_unique (table : string) (i : nat) (c : Column)
    (st st' : Run P) (w : Value) :
  unique c = true → primary_key c = false → foreign_key c = None →
  gen_cell P urandom table i c st = inr (w, st') →
  tracked_cell (nullable c) w (seen_values P table (col_name c) st)
               (seen_values P table (col_name c) st').
Proof.
  intros Hu Hpk Hfk. unfold gen_cell, tracked_cell. rewrite Hpk, Hfk.
  destruct (nullable c).
  - destruct (rng_random P (rng P st)) as [k g].
    destruct (below_5_percent k).
    + intros [= <- <-]. by left.
    + intros H. right. by apply generate_scalar_fresh in H.
  - intros H. right. by apply generate_scalar_fresh in H.
Qed.

Lemma gen_row_other_key (table key : string) (i : nat) (cols : list Column)
    (row row' : gmap string Value) (st st' : Run P) :
  key ∉ col_name <$> cols →
  gen_row P urandom table i cols row st = inr (row', st') →
  seen_values P table key st' = seen_values P table key st.
Proof.
  revert row st. induction cols as [|c cols IH]; intros row st Hkey; simpl.
  - by intros [= _ <-].
  - rewrite fmap_cons in Hkey. apply not_elem_of_cons in Hkey as [Hne Hkey].
    destruct (gen_cell P urandom table i c st) as [e|[v st1]] eqn:Hc; [done|].
    apply (gen_cell_other_key _ key) in Hc; [|done].
    intros H. apply IH in H; [|done]. congruence.
Qed.

Lemma gen_row_unique (table : string) (i : nat) (cols : list Column)
    (c : Column) (row row' : gmap string Value) (st st' : Run P) :
  NoDup (col_name <$> cols) → c ∈ cols →
  unique c = true → primary_key c = false → foreign_key c = None →
  gen_row P urandom table i cols row st = inr (row', st') →
  ∃ w, row' !! col_name c = Some w
       ∧ tracked_cell (nullable c) w (seen_values P table (col_name c) st)
                      (seen_values P table (col_name c) st').
Proof.
  intros Hnd Hc Hu Hpk Hfk. revert row st Hnd Hc.
  induction cols as [|c0 cols IH]; intros row st Hnd Hc; [inversion Hc|].
  simpl. rewrite fmap_cons in Hnd. apply NoDup_cons in Hnd as [Hc0 Hnd].
  destruct (gen_cell P urandom table i c0 st) as [e|[v st1]] eqn:Hcell; [done|].
  intros Hrow. apply elem_of_cons in Hc as [->|Hc].
  - exists v. apply gen_cell_unique in Hcell; [|done..].
    rewrite (gen_row_other_key _ _ _ _ _ _ _ _ Hc0 Hrow).
    apply gen_row_ok in Hrow as (_ & _ & _ & Hrest); [|done].
    rewrite Hrest by done. by rewrite lookup_insert_eq.
  - assert (Hne : col_name c ≠ col_name c0).
    { intros Heq. apply Hc0. rewrite <- Heq. apply list_elem_of_fmap.
      by exists c. }
    apply (gen_cell_other_key _ (col_name c)) in Hcell; [|done].
    rewrite <- Hcell. by eapply IH.
Qed.

Lemma column_inv_snoc (nb : bool) (j : nat) (rs : list (list Value))
    (seen seen' : list Value) (cells : list Value) (w : Value) :
  column_inv nb j rs seen → cells !! j = Some w →
  tracked_cell nb w seen seen' →
  column_inv nb j (rs ++ [cells]) seen'.
Proof.
  intros [Hmem Hdist] Hw Htr.
  assert (Hgrow : ∀ v, v ∈ seen → v ∈ seen').
  { intros v Hv. destruct Htr as [(_ & _ & ->)|(_ & ->)]; [done | by right]. }
  assert (Hnew : ∀ r v, r ∈ rs → r !! j = Some v →
            (py_eqb v w = true ∨ py_eqb w v = true) →
            nb = true ∧ v = VStr "" ∧ w = VStr "").
  { intros r v Hr Hv Heq.
    assert (Heq' : py_eqb w v = true)
      by (destruct Heq as [Heq|?]; [by rewrite py_eqb_sym | done]).
    destruct Htr as [(Hnb & -> & _)|(Hin & _)].
    - apply py_eqb_str in Heq'. done.
    - destruct (Hmem r v Hr Hv) as [[Hnb ->]|Hseen].
      + rewrite py_eqb_sym in Heq'. apply py_eqb_str in Heq'. done.
      + rewrite (py_in_false w seen v Hin Hseen) in Heq'. done. }
  split.
  - intros r v Hr Hv. apply elem_of_app in Hr as [Hr|Hr].
    + destruct (Hmem r v Hr Hv) as [?|?]; [by left | right; by apply Hgrow].
    + apply list_elem_of_singleton in Hr as ->.
      assert (v = w) as -> by congruence.
      destruct Htr as [(Hnb & -> & _)|(_ & ->)]; [by left | right; left].
  - intros i1 i2 r1 r2 v1 v2 Hne H1 H2 Hv1 Hv2 Heq.
    apply lookup_app_Some in H1 as [H1|[Hl1 H1]];
      apply lookup_app_Some in H2 as [H2|[Hl2 H2]].
    + by eapply (Hdist i1 i2).
    + apply list_lookup_singleton_Some in H2 as [_ <-].
      assert (v2 = w) as -> by congruence.
      apply (Hnew r1 v1); [by eapply list_elem_of_lookup_2|done|by left].
    + apply list_lookup_singleton_Some in H1 as [_ <-].
      assert (v1 = w) as -> by congruence.
      destruct (Hnew r2 v2) as (? & ? & ?);
        [by eapply list_elem_of_lookup_2|done|by right|done].
    + apply list_lookup_singleton_Some in H1 as [H1 _].
      apply list_lookup_singleton_Some in H2 as [H2 _]. lia.
Qed.

Lemma write_row_unique (table : string) (cols : list Column)
    (pk_col c : Column) (j i : nat) (st st' : Run P)
    (rs : list (list Value)) :
  NoDup (col_name <$> cols) → cols !! j = Some c →
  unique c = true → primary_key c = false → foreign_key c = None →
  files P st !! table = Some {| fieldnames := col_name <$> cols; rows := rs |} →
  write_row P urandom table cols pk_col i st = inr st' →
  ∃ cells w,
    files P st' !! table
    = Some {| fieldnames := col_name <$> cols; rows := rs ++ [cells] |}
    ∧ cells !! j = Some w
    ∧ tracked_cell (nullable c) w (seen_values P table (col_name c) st)
                   (seen_values P table (col_name c) st').
Proof.
  intros Hnd Hj Hu Hpk Hfk Hfile. unfold write_row.
  destruct (gen_row P urandom table i cols ∅ st) as [e|[row st1]] eqn:Hrow;
    [done|].
  assert (Hc : c ∈ cols) by (by eapply list_elem_of_lookup_2).
  destruct (gen_row_unique _ _ _ c _ _ _ _ Hnd Hc Hu Hpk Hfk Hrow)
    as (w & Hw & Htr).
  apply gen_row_frame in Hrow as [_ Hf].
  destruct (row !! col_name pk_col) as [v|]; [|done].
  intros [= <-]. unfold writerow. rewrite Hf, Hfile. simpl.
  exists ((λ n, default (VStr "") (row !! n)) <$> (col_name <$> cols)), w.
  split_and!.
  - by rewrite lookup_insert_eq.
  - rewrite !list_lookup_fmap, Hj. simpl. by rewrite Hw.
  - done.
Qed.

Lemma rows_loop_unique (table : string) (cols : list Column)
    (pk_col c : Column) (j : nat) (idxs : list nat) (st st' : Run P)
    (rs : list (list Value)) :
  NoDup (col_name <$> cols) → cols !! j = Some c →
  unique c = true → primary_key c = false → foreign_key c = None →
  files P st !! table = Some {| fieldnames := col_name <$> cols; rows := rs |} →
  column_inv (nullable c) j rs (seen_values P table (col_name c) st) →
  for_each (write_row P urandom table cols pk_col) idxs st = inr st' →
  ∃ rs', files P st' !! table
         = Some {| fieldnames := col_name <$> cols; rows := rs' |}
         ∧ distinct_unless_empty (nullable c) j rs'.
Proof.
  intros Hnd Hj Hu Hpk Hfk. revert st rs.
  induction idxs as [|i idxs IH]; intros st rs Hfile Hinv; simpl.
  - intros [= <-]. exists rs. split; [done|]. by destruct Hinv.
  - destruct (write_row P urandom table cols pk_col i st) as [e|st1] eqn:Hw;
      [done|].
    destruct (write_row_unique _ _ _ c j _ _ _ rs Hnd Hj Hu Hpk Hfk Hfile Hw)
      as (cells & w & Hfile1 & Hcell & Htr).
    apply (IH st1 (rs ++ [cells])); [done|]. by eapply column_inv_snoc.
Qed.

End unique_columns.

(** X11.  When the run of the script emitted for a validated schema
    returns, two cells of a unique column that is no key, taken from
    different rows of the table's file, are different under Python's [==];
    the one exception is the empty string of a nullable column, which may
    stand in several rows. *)
Theorem unique_column_distinct (P : Platform) (urandom : nat → Z)
    (set_iter : set_order) (s : Schema) (rows_per_table seed : Z)
    (script : Script) (st : Run P) (t : Table) (j : nat) (c : Column) :
  lists_elements set_iter →
  validate_schema s = None →
  generate_faker_python_script set_iter s rows_per_table seed
  = Some (inr script) →
  generate P urandom script = inr st →
  t ∈ tables s → columns t !! j = Some c →
  unique c = true → primary_key c = false → foreign_key c = None →
  ∃ f, files P st !! table_name t = Some f
       ∧ distinct_unless_empty (nullable c) j (rows f).
Proof.
  intros Hiter Hvalid Hemit Hrun Ht Hj Hu Hpk Hfk.
  pose proof (valid_columns_nodup s t Hvalid Ht) as Hcols.
  destruct (emitted_table_step P urandom set_iter s rows_per_table seed
              script st t Hiter Hvalid Hemit Hrun Ht)
    as (st1 & st2 & _ & _ & Hlook & Hstep & -> & _).
  unfold gen_table in Hstep. rewrite Hlook in Hstep.
  destruct (filter _ (columns t)) as [|pk_col [|]]; [done| |done].
  apply (rows_loop_unique P urandom _ _ _ c j _ _ _ []) in Hstep;
    [| done.. | |].
  - destruct Hstep as (rs' & Hf & Hd). by eexists.
  - simpl. by rewrite lookup_insert_eq.
  - split.
    + intros r v Hr. inversion Hr.
    + intros i1 i2 r1 r2 v1 v2 _ H1. by rewrite lookup_nil in H1.
Qed.

Lemma unique_column_distinct_witness :
  match generate toy_platform ex_urandom ex_script with
  | inr st =>
    ∃ f, files toy_platform st !! "users" = Some f
         ∧ distinct_unless_empty false 1 (rows f)
  | inl _ => False
  end.
Proof.
  pose proof ex_script_returns as Hret.
  destruct (generate toy_platform ex_urandom ex_script) as [e|st] eqn:Hrun;
    [discriminate Hret|].
  apply (unique_column_distinct toy_platform ex_urandom iter_fwd
           ex_users_orders 5 1 ex_script st
           (mk_table "users"
              [mk_col "user_id" TInt true None;
               {| col_name := "email"; col_type := TStr;
                  col_description := None; primary_key := false;
                  foreign_key := None; nullable := false; unique := true;
                  faker := None |}])
           1
           {| col_name := "email"; col_type := TStr;
              col_description := None; primary_key := false;
              foreign_key := None; nullable := false; unique := true;
              faker := None |}).
  - intros s. reflexivity.
  - reflexivity.
  - reflexivity.
  - exact Hrun.
  - left.
  - reflexivity.
  - reflexivity.
  - reflexivity.
  - reflexivity.
Defined.

(** ** The operating system's random bytes *)

Section os_bytes.
Context (P : Platform) (urandom : nat → Z).

Lemma gen_calls (col : Column) (st : Run P) :
  urandom_calls P (gen P col st).2 = urandom_calls P st.
Proof.
  unfold gen. destruct (called_provider P col).
  - by destruct (fake_call P s (fake P st)).
  - unfold by_type. destruct (col_type col).
    + by destruct (rng_below P 10000000 (rng P st)).
    + by destruct (fake_word P (fake P st)).
    + by destruct (rng_random P (rng P st)).
    + by destruct (rng_bit P (rng P st)).
    + by destruct (fake_date_object P (fake P st)).
    + by destruct (fake_date_time P (fake P st)).
Qed.

Lemma unique_attempts_calls (n : nat) (table : string) (col : Column)
    (st st' : Run P) (v : Value) :
  unique_attempts P n table col st = inr (v, st') →
  urandom_calls P st' = urandom_calls P st.
Proof.
  revert st. induction n as [|n IH]; intros st; simpl; [done|].
  pose proof (gen_calls col st) as Hc.
  destruct (gen P col st) as [w st1]. simpl in Hc.
  destruct (py_in w _).
  - intros H. apply IH in H. congruence.
  - by intros [= _ <-].
Qed.

Lemma gen_cell_calls (table : string) (i : nat) (c : Column)
    (st st' : Run P) (v : Value) :
  (primary_key c = true → col_type c = TInt) →
  gen_cell P urandom table i c st = inr (v, st') →
  urandom_calls P st' = urandom_calls P st.
Proof.
  intros Hint. unfold gen_cell.
  assert (Hs : ∀ st1, _generate_scalar P table c st1 = inr (v, st') →
                 urandom_calls P st' = urandom_calls P st1).
  { intros st1. unfold _generate_scalar. destruct (unique c).
    - intros H. by apply unique_attempts_calls in H.
    - pose proof (gen_calls c st1) as Hc.
      destruct (gen P c st1) as [w st2]. by intros [= _ <-]. }
  destruct (primary_key c).
  - unfold _pk_generator. rewrite decide_True by auto. by intros [= _ <-].
  - destruct (foreign_key c) as [fk|].
    + case_bool_decide; [done|]. unfold choice.
      destruct (rng_below P _ _) as [r g].
      destruct (_ !! Z.to_nat r); [|done]. by intros [= _ <-].
    + destruct (nullable c); [|apply Hs].
      destruct (rng_random P (rng P st)) as [k g].
      destruct (below_5_percent k); [by intros [= _ <-]|].
      intros H. by apply Hs in H.
Qed.

Lemma gen_row_calls (table : string) (i : nat) (cols : list Column)
    (row row' : gmap string Value) (st st' : Run P) :
  (∀ c, c ∈ cols → primary_key c = true → col_type c = TInt) →
  gen_row P urandom table i cols row st = inr (row', st') →
  urandom_calls P st' = urandom_calls P st.
Proof.
  revert row st. induction cols as [|c cols IH]; intros row st Hint; simpl.
  - by intros [= _ <-].
  - destruct (gen_cell P urandom table i c st) as [e|[v st1]] eqn:Hc; [done|].
    apply gen_cell_calls in Hc; [|apply Hint; left].
    intros H. apply IH in H; [congruence|].
    intros c' Hc'. apply Hint. by right.
Qed.

Lemma rows_loop_calls (table : string) (cols : list Column) (pk_col : Column)
    (idxs : list nat) (st st' : Run P) :
  (∀ c, c ∈ cols → primary_key c = true → col_type c = TInt) →
  for_each (write_row P urandom table cols pk_col) idxs st = inr st' →
  urandom_calls P st' = urandom_calls P st.
Proof.
  intros Hint. revert st. induction idxs as [|i idxs IH]; intros st; simpl.
  - by intros [= <-].
  - unfold write_row at 1.
    destruct (gen_row P urandom table i cols ∅ st) as [e|[row st1]] eqn:Hrow;
      [done|].
    apply gen_row_calls in Hrow; [|done].
    destruct (row !! col_name pk_col) as [v|]; [|done].
    intros H. apply IH in H. rewrite H. simpl. unfold writerow.
    by destruct (files P st1 !! table).
Qed.

Lemma generate_calls (script : Script) (st : Run P) :
  (∀ t c, t ∈ tables (SCHEMA script) → c ∈ columns t →
          primary_key c = true → col_type c = TInt) →
  generate P urandom script = inr st → urandom_calls P st = O.
Proof.
  intros Hint. unfold generate.
  assert (H0 : urandom_calls P (init_run P (SEED script)) = O) by done.
  revert H0. generalize (init_run P (SEED script)).
  induction (TABLE_ORDER script) as [|table order IH]; intros st0 H0; simpl.
  - by intros [= <-].
  - destruct (gen_table P urandom script table st0) as [e|st1] eqn:Ht; [done|].
    apply IH. unfold gen_table in Ht.
    destruct (table_by_name _ !! table) as [t|] eqn:Hlook; [|done].
    apply table_by_name_lookup in Hlook as [[Hin _]|Hm];
      [|by rewrite lookup_empty in Hm].
    destruct (filter _ (columns t)) as [|pk_col [|]]; [done| |done].
    apply rows_loop_calls in Ht; [|intros c Hc; by apply (Hint t)].
    by rewrite Ht.
Qed.

End os_bytes.

(** X12.  When every primary-key column of the schema is an [int] column,
    a run never calls [uuid.uuid4()]: it reads none of the operating
    system's random bytes, and two runs of the script give the same result
    whatever those bytes are. *)
Theorem int_keys_use_seed_only (P : Platform) (u1 u2 : nat → Z)
    (script : Script) :
  (∀ t c, t ∈ tables (SCHEMA script) → c ∈ columns t →
          primary_key c = true → col_type c = TInt) →
  generate P u1 script = generate P u2 script
  ∧ ∀ st, generate P u1 script = inr st → urandom_calls P st = O.
Proof.
  intros Hint. split; [by apply generate_int_pk_seeded|].
  intros st. by apply generate_calls.
Qed.

Lemma int_keys_use_seed_only_witness :
  generate toy_platform (λ _, 0) ex_script
  = generate toy_platform (λ _, 1) ex_script
  ∧ ∀ st, generate toy_platform (λ _, 0) ex_script = inr st →
          urandom_calls toy_platform st = O.
Proof.
  apply (int_keys_use_seed_only toy_platform (λ _, 0) (λ _, 1) ex_script).
  intros t c Ht Hc. apply list_elem_of_In in Ht. simpl in Ht.
  destruct Ht as [<-|[<-|[]]]; apply list_elem_of_In in Hc; simpl in Hc;
    destruct Hc as [<-|[<-|[]]]; (reflexivity || discriminate).
Defined.

(** ** When the order does not depend on the iteration of the sets *)

Lemma add_edges_out_sound (es : list (string * string)) (g g' : Graph)
    (c p : string) :
  add_edges g es = inr g' → c ∈ g'.2 !!! p →
  c ∈ g.2 !!! p ∨ (c, p) ∈ es.
Proof.
  revert g. induction es as [|e es IH]; intros g; simpl.
  - intros [= <-]. by left.
  - destruct (add_edge g e) as [err|g1] eqn:He; [done|].
    intros Hes Hc. destruct (IH _ Hes Hc) as [Hc1|Hin]; [|right; by right].
    destruct g as [indeg out], e as [child parent]. unfold add_edge in He.
    case_bool_decide; [done|].
    destruct (_ || _); [injection He as <-; by left|].
    case_bool_decide; [|injection He as <-; by left].
    injection He as <-. simpl in Hc1.
    destruct (decide (p = parent)) as [->|Hne].
    + rewrite lookup_total_insert_eq in Hc1.
      apply elem_of_union in Hc1 as [Hc1|?]; [|by left].
      apply elem_of_singleton in Hc1 as ->. right; left.
    + rewrite lookup_total_insert_ne in Hc1 by done. by left.
Qed.

Lemma single_child_iteration (it1 it2 : set_order) (X : gset string) :
  lists_elements it1 → lists_elements it2 →
  (∀ x y, x ∈ X → y ∈ X → x = y) → it1 X = it2 X.
Proof.
  intros H1 H2 Hone. specialize (H1 X). specialize (H2 X).
  pose proof (NoDup_elements X) as Hnd.
  destruct (elements X) as [|a [|b l]] eqn:Hel.
  - apply Permutation_nil_r in H1, H2. congruence.
  - apply Permutation_singleton_r in H1, H2. congruence.
  - exfalso. assert (a = b).
    { apply Hone; apply elem_of_elements; rewrite Hel;
        [left | right; left]. }
    subst. apply NoDup_cons in Hnd as [Hn _]. apply Hn. left.
Qed.

Lemma kahn_loop_same (it1 it2 : set_order) (out : gmap string (gset string))
    (fuel : nat) (indeg : gmap string Z) (q ordered : list string) :
  (∀ t, it1 (out !!! t) = it2 (out !!! t)) →
  kahn_loop it1 out fuel indeg q ordered
  = kahn_loop it2 out fuel indeg q ordered.
Proof.
  intros Hsame. revert indeg q ordered.
  induction fuel as [|fuel IH]; intros indeg q ordered;
    destruct q as [|t q]; simpl; try done.
  rewrite Hsame.
  destruct (foldl release (indeg, q) (it2 (out !!! t))) as [indeg' q'].
  apply IH.
Qed.

(** X13.  When no table is referenced by two different tables, the result
    of [_toposort_tables] is the same for every iteration order of the
    child sets: the order is then a function of the schema alone. *)
Theorem toposort_order_fixed (it1 it2 : set_order) (s : Schema) :
  lists_elements it1 → lists_elements it2 →
  (∀ c1 c2 p, (c1, p) ∈ dependency_edges s →
              (c2, p) ∈ dependency_edges s → c1 = c2) →
  _toposort_tables it1 s = _toposort_tables it2 s.
Proof.
  intros H1 H2 Hone. unfold _toposort_tables.
  destruct (add_edges _ _) as [err|[indeg out]] eqn:Hes; [done|].
  f_equal. apply kahn_loop_same. intros t.
  apply single_child_iteration; [done..|].
  assert (Hedge : ∀ c, c ∈ out !!! t → (c, t) ∈ dependency_edges s).
  { intros c Hc.
    destruct (add_edges_out_sound _ _ _ c t Hes Hc) as [Hinit|?]; [|done].
    exfalso. revert Hinit. unfold init_graph; simpl.
    rewrite lookup_total_alt, foldl_insert_const_lookup, lookup_empty.
    case_decide; simpl; apply not_elem_of_empty. }
  intros x y Hx Hy. apply (Hone x y t); by apply Hedge.
Qed.

Lemma toposort_order_fixed_witness :
  _toposort_tables iter_fwd ex_users_orders
  = _toposort_tables iter_rev ex_users_orders.
Proof.
  apply (toposort_order_fixed iter_fwd iter_rev ex_users_orders).
  - intros s. reflexivity.
  - apply iter_rev_lists.
  - intros c1 c2 p Hc1 Hc2. vm_compute in Hc1, Hc2.
    apply list_elem_of_singleton in Hc1, Hc2. congruence.
Defined.

(** ** The fields that neither the resolver nor the script reads *)

Lemma table_edges_read (t : Table) :
  table_edges (read_table t) = table_edges t.
Proof.
  unfold table_edges, foreign_keys. simpl.
  induction (columns t) as [|c cs IH]; [done|].
  rewrite fmap_cons, !filter_cons.
  destruct (decide (foreign_key (read_column c) ≠ None)) as [Hr|Hr];
    destruct (decide (foreign_key c ≠ None)) as [Hc|Hc].
  - simpl. destruct (foreign_key c) as [fk|]; [|done]. simpl. f_equal.
    apply IH.
  - exfalso. apply Hr. simpl. destruct (foreign_key c); [|done].
    by destruct Hc.
  - exfalso. apply Hr. simpl. by destruct (foreign_key c).
  - apply IH.
Qed.

Lemma dependency_edges_read (s : Schema) :
  dependency_edges (read_schema s) = dependency_edges s.
Proof.
  unfold dependency_edges. simpl.
  induction (tables s) as [|t ts IH]; [done|].
  rewrite fmap_cons. simpl. rewrite table_edges_read. f_equal. apply IH.
Qed.

Lemma table_names_read (s : Schema) :
  table_name <$> tables (read_schema s) = table_name <$> tables s.
Proof. simpl. rewrite <- list_fmap_compose. by apply list_fmap_ext. Qed.

Lemma toposort_read (set_iter : set_order) (s : Schema) :
  _toposort_tables set_iter (read_schema s) = _toposort_tables set_iter s.
Proof.
  unfold _toposort_tables.
  by rewrite dependency_edges_read, table_names_read.
Qed.

Lemma table_by_name_read (ts : list Table) (n : string) :
  table_by_name (read_table <$> ts) !! n
  = read_table <$> table_by_name ts !! n.
Proof.
  unfold table_by_name. rewrite <- lookup_fmap. f_equal.
  assert (H : ∀ m : gmap string Table,
            foldl (λ m t, <[table_name t := t]> m) (read_table <$> m)
                  (read_table <$> ts)
            = read_table <$> foldl (λ m t, <[table_name t := t]> m) m ts).
  { induction ts as [|t ts IH]; intros m; [done|].
    simpl. rewrite <- IH. by rewrite fmap_insert. }
  rewrite <- H. by rewrite fmap_empty.
Qed.

Lemma for_each_ext {A S : Type} (f g : A → S → ScriptError + S)
    (l : list A) (s : S) :
  (∀ a s, f a s = g a s) → for_each f l s = for_each g l s.
Proof.
  intros Hfg. revert s. induction l as [|a l IH]; intros s; [done|].
  simpl. rewrite Hfg. by destruct (g a s).
Qed.

Section unread_fields.
Context (P : Platform) (urandom : nat → Z).

Lemma unique_attempts_read (n : nat) (table : string) (c : Column)
    (st : Run P) :
  unique_attempts P n table (read_column c) st
  = unique_attempts P n table c st.
Proof.
  revert st. induction n as [|n IH]; intros st; [done|].
  simpl. change (gen P (read_column c) st) with (gen P c st).
  destruct (gen P c st) as [v st1]. by destruct (py_in v _).
Qed.

Lemma gen_cell_read (table : string) (i : nat) (c : Column) (st : Run P) :
  gen_cell P urandom table i (read_column c) st
  = gen_cell P urandom table i c st.
Proof.
  assert (Hs : ∀ st1, _generate_scalar P table (read_column c) st1
                      = _generate_scalar P table c st1).
  { intros st1. unfold _generate_scalar.
    change (unique (read_column c)) with (unique c).
    change (col_name (read_column c)) with (col_name c).
    destruct (unique c); [apply unique_attempts_read | done]. }
  unfold gen_cell.
  change (primary_key (read_column c)) with (primary_key c).
  change (nullable (read_column c)) with (nullable c).
  change (col_name (read_column c)) with (col_name c).
  change (foreign_key (read_column c)) with (read_fk <$> foreign_key c).
  destruct (primary_key c); [done|].
  destruct (foreign_key c) as [fk|]; [done|].
  change (read_fk <$> None) with (@None ForeignKey). cbv iota.
  destruct (nullable c); [|apply Hs].
  destruct (rng_random P (rng P st)) as [k g].
  destruct (below_5_percent k); [done|apply Hs].
Qed.

Lemma gen_row_read (table : string) (i : nat) (cols : list Column)
    (row : gmap string Value) (st : Run P) :
  gen_row P urandom table i (read_column <$> cols) row st
  = gen_row P urandom table i cols row st.
Proof.
  revert row st. induction cols as [|c cols IH]; intros row st; [done|].
  rewrite fmap_cons. simpl. rewrite gen_cell_read.
  destruct (gen_cell P urandom table i c st) as [e|[v st1]]; [done|].
  apply IH.
Qed.

Lemma gen_table_read (s : Schema) (order : list string) (rows seed : Z)
    (n : string) (st : Run P) :
  gen_table P urandom
    {| SCHEMA := read_schema s; TABLE_ORDER := order;
       ROWS_PER_TABLE := rows; SEED := seed |} n st
  = gen_table P urandom
      {| SCHEMA := s; TABLE_ORDER := order;
         ROWS_PER_TABLE := rows; SEED := seed |} n st.
Proof.
  unfold gen_table. simpl. rewrite table_by_name_read.
  destruct (table_by_name (tables s) !! n) as [t|]; [|done]. simpl.
  rewrite filter_fmap_comm.
  change (filter (λ x, primary_key (read_column x) = true) (columns t))
    with (filter (λ c, primary_key c = true) (columns t)).
  destruct (filter _ (columns t)) as [|pk [|]]; [done| |done]. simpl.
  rewrite <- list_fmap_compose.
  change (col_name ∘ read_column) with col_name.
  apply for_each_ext. intros i st1. unfold write_row.
  by rewrite gen_row_read.
Qed.

Lemma generate_read (s : Schema) (order : list string) (rows seed : Z) :
  generate P urandom
    {| SCHEMA := read_schema s; TABLE_ORDER := order;
       ROWS_PER_TABLE := rows; SEED := seed |}
  = generate P urandom
      {| SCHEMA := s; TABLE_ORDER := order;
         ROWS_PER_TABLE := rows; SEED := seed |}.
Proof.
  unfold generate. simpl. apply for_each_ext. intros n st.
  apply gen_table_read.
Qed.

End unread_fields.

(** X14.  Two schemas that differ only in what [read_schema] blanks (the
    descriptions, the name of the schema, and [ref_column] and [on_delete]
    of the foreign keys) are resolved to the same table order or the same
    error, and the runs of the script over them, with the same table order,
    row count and seed, end with the same files or with the same error:
    [generate] draws a foreign-key cell from the primary keys of
    [ref_table] whichever column [ref_column] names, and [on_delete]
    changes nothing. *)
Theorem unread_fields_inert (set_iter : set_order) (P : Platform)
    (urandom : nat → Z) (s1 s2 : Schema) :
  read_schema s1 = read_schema s2 →
  _toposort_tables set_iter s1 = _toposort_tables set_iter s2
  ∧ ∀ order rows seed,
      generate P urandom
        {| SCHEMA := s1; TABLE_ORDER := order;
           ROWS_PER_TABLE := rows; SEED := seed |}
      = generate P urandom
          {| SCHEMA := s2; TABLE_ORDER := order;
             ROWS_PER_TABLE := rows; SEED := seed |}.
Proof.
  intros Hread. split.
  - by rewrite <- (toposort_read _ s1), <- (toposort_read _ s2), Hread.
  - intros order rows seed.
    by rewrite <- (generate_read _ _ s1), <- (generate_read _ _ s2), Hread.
Qed.

Lemma unread_fields_inert_witness :
  _toposort_tables iter_fwd ex_users_orders
  = _toposort_tables iter_fwd ex_users_orders_by_email
  ∧ ∀ order rows seed,
      generate toy_platform ex_urandom
        {| SCHEMA := ex_users_orders; TABLE_ORDER := order;
           ROWS_PER_TABLE := rows; SEED := seed |}
      = generate toy_platform ex_urandom
          {| SCHEMA := ex_users_orders_by_email; TABLE_ORDER := order;
             ROWS_PER_TABLE := rows; SEED := seed |}.
Proof.
  apply (unread_fields_inert iter_fwd toy_platform ex_urandom
           ex_users_orders ex_users_orders_by_email).
  reflexivity.
Defined.
